(** * tokscale core: pricing resolver and aggregation engine

    Shallow embedding of [src/core/src/pricing.rs] and
    [src/packages/core/src/aggregator.rs].

    Conventions of the model:
    - [i64] / [i32] values are [Z]; Rust's plain [+] on them is modelled as
      in a release build (wrap-around), [saturating_add] clamps, and [/]
      truncates toward zero and panics on a zero divisor or [MIN / -1].
    - [f64] values are IEEE binary64 numbers of Stdlib's [SpecFloat]
      (precision 53, emax 1024, round to nearest even).
    - [String]s are Rocq [string]s read as their UTF-8 bytes.
    - A [HashMap] is a stdpp [gmap]; where the source iterates over a
      [HashMap] in its (unspecified) order, the model iterates over
      [map_to_list], or over a list fixing that order.
    - A panic is [None] in an [option] result. *)

From Stdlib Require Import ZArith Lia Bool Ascii String SpecFloat Sorted OrdersEx.
From stdpp Require Import base gmap strings list sorting.

Open Scope Z_scope.

(* ===================================================================== *)
(** ** Machine integers *)
(* ===================================================================== *)

Definition i64_min : Z := -9223372036854775808.
Definition i64_max : Z := 9223372036854775807.
Definition i32_min : Z := -2147483648.
Definition i32_max : Z := 2147483647.

(** Two's-complement wrap-around to 64 and 32 bits (release-build [+]). *)
Definition wrap64 (z : Z) : Z :=
  (z + 9223372036854775808) mod 18446744073709551616 - 9223372036854775808.
Definition wrap32 (z : Z) : Z := (z + 2147483648) mod 4294967296 - 2147483648.

(** [i64::saturating_add] and [i32::saturating_add]. *)
Definition saturating_add (a b : Z) : Z := Z.max i64_min (Z.min i64_max (a + b)).
Definition saturating_add32 (a b : Z) : Z := Z.max i32_min (Z.min i32_max (a + b)).

(** [i64] division [a / b]: truncating; panics on [b = 0] and on overflow. *)
Definition div_i64 (a b : Z) : option Z :=
  if Z.eqb b 0 then None
  else if Z.eqb a i64_min && Z.eqb b (-1) then None
  else Some (Z.quot a b).

(** [u64 as i64]. *)
Definition u64_as_i64 (u : Z) : Z := wrap64 u.

(* ===================================================================== *)
(** ** IEEE binary64 ([f64]) *)
(* ===================================================================== *)

Module F64.

Definition prec : Z := 53.
Definition emax : Z := 1024.

Definition add (x y : spec_float) : spec_float := SFadd prec emax x y.
Definition mul (x y : spec_float) : spec_float := SFmul prec emax x y.
Definition div (x y : spec_float) : spec_float := SFdiv prec emax x y.

(** [z as f64] for an integer [z]: rounded to nearest even. *)
Definition of_Z (z : Z) : spec_float := binary_normalize prec emax z 0 false.

(** [0.0] and [f64::MAX]. *)
Definition zero : spec_float := S754_zero false.
Definition max_value : spec_float := S754_finite false 9007199254740991 971.

(** IEEE comparisons, as Rust's [==], [>=], [>], [<] and [<=] on [f64]. *)
Definition eqb (x y : spec_float) : bool :=
  match SFcompare x y with Some Eq => true | _ => false end.
Definition ge (x y : spec_float) : bool :=
  match SFcompare x y with Some Gt | Some Eq => true | _ => false end.
Definition gt (x y : spec_float) : bool :=
  match SFcompare x y with Some Gt => true | _ => false end.
Definition lt (x y : spec_float) : bool :=
  match SFcompare x y with Some Lt => true | _ => false end.
Definition le (x y : spec_float) : bool :=
  match SFcompare x y with Some Lt | Some Eq => true | _ => false end.

Definition is_nan (x : spec_float) : bool :=
  match x with S754_nan => true | _ => false end.

(** [f64::max] and [f64::min]: a NaN argument is ignored. *)
Definition fmax (x y : spec_float) : spec_float :=
  if is_nan x then y else if is_nan y then x else
  match SFcompare x y with Some Lt => y | _ => x end.
Definition fmin (x y : spec_float) : spec_float :=
  if is_nan x then y else if is_nan y then x else
  match SFcompare x y with Some Gt => y | _ => x end.

(** [x as i64]: truncation toward zero, saturating at the [i64] bounds,
    [NaN] to [0]. *)
Definition to_i64 (x : spec_float) : Z :=
  match x with
  | S754_nan => 0
  | S754_zero _ => 0
  | S754_infinity s => if s then i64_min else i64_max
  | S754_finite s m e =>
      let mag := if Z.leb 0 e then Z.pos m * 2 ^ e else Z.shiftr (Z.pos m) (- e) in
      Z.max i64_min (Z.min i64_max (if s then - mag else mag))
  end.

End F64.

(* ===================================================================== *)
(** ** Data model *)
(* ===================================================================== *)

Record TokenBreakdown := mkTokenBreakdown {
  input : Z; output : Z; cache_read : Z; cache_write : Z; reasoning : Z }.

(** [TokenBreakdown::default()]. *)
Definition tb_default : TokenBreakdown := mkTokenBreakdown 0 0 0 0 0.

Record UnifiedMessage := mkUnifiedMessage {
  source : string;
  model_id : string;
  provider_id : string;
  session_id : string;
  timestamp : Z;
  date : string;
  tokens : TokenBreakdown;
  cost : spec_float }.

(** Field-by-field [saturating_add] of two breakdowns, as every
    accumulator of the aggregator writes it out. *)
Definition tb_saturating_add (a b : TokenBreakdown) : TokenBreakdown :=
  mkTokenBreakdown
    (saturating_add (input a) (input b))
    (saturating_add (output a) (output b))
    (saturating_add (cache_read a) (cache_read b))
    (saturating_add (cache_write a) (cache_write b))
    (saturating_add (reasoning a) (reasoning b)).

(** [msg.tokens.input.saturating_add(msg.tokens.output)...saturating_add(reasoning)]. *)
Definition msg_total_tokens (t : TokenBreakdown) : Z :=
  saturating_add (saturating_add (saturating_add (saturating_add
    (input t) (output t)) (cache_read t)) (cache_write t)) (reasoning t).

(** Modelled from the spec: [DailyTotals] and [SourceContribution] are
    declared in the crate root, which is not part of the sources; their
    fields are the spec's (tokens, cost, message count; source, model,
    provider, token breakdown, cost, message count). The message counters
    are taken as [i32], the width [IntervalBucket::messages] has. *)
Record DailyTotals := mkDailyTotals {
  totals_tokens : Z; totals_cost : spec_float; totals_messages : Z }.

Record SourceContribution := mkSourceContribution {
  sc_source : string; sc_model_id : string; sc_provider_id : string;
  sc_tokens : TokenBreakdown; sc_cost : spec_float; sc_messages : Z }.

Definition totals_default : DailyTotals := mkDailyTotals 0 F64.zero 0.

(* ===================================================================== *)
(** ** [DayAccumulator] *)
(* ===================================================================== *)

Record DayAccumulator := mkDayAccumulator {
  day_totals : DailyTotals;
  day_token_breakdown : TokenBreakdown;
  day_sources : gmap string SourceContribution }.

(** [DayAccumulator::default()]. *)
Definition day_default : DayAccumulator :=
  mkDayAccumulator totals_default tb_default ∅.

(** [format!("{}:{}", msg.source, msg.model_id)]. *)
Definition source_key (m : UnifiedMessage) : string :=
  source m ++ ":" ++ model_id m.

(** [DayAccumulator::add_message]. *)
Definition day_add_message (acc : DayAccumulator) (msg : UnifiedMessage)
  : DayAccumulator :=
  let total_tokens := msg_total_tokens (tokens msg) in
  let t := day_totals acc in
  let key := source_key msg in
  let entry :=
    match day_sources acc !! key with
    | Some sc => sc
    | None => mkSourceContribution (source msg) (model_id msg) (provider_id msg)
                tb_default F64.zero 0
    end in
  let entry' :=
    mkSourceContribution (sc_source entry) (sc_model_id entry) (sc_provider_id entry)
      (tb_saturating_add (sc_tokens entry) (tokens msg))
      (F64.add (sc_cost entry) (cost msg))
      (saturating_add32 (sc_messages entry) 1) in
  mkDayAccumulator
    (mkDailyTotals (saturating_add (totals_tokens t) total_tokens)
                   (F64.add (totals_cost t) (cost msg))
                   (saturating_add32 (totals_messages t) 1))
    (tb_saturating_add (day_token_breakdown acc) (tokens msg))
    (<[key := entry']> (day_sources acc)).

(** One iteration of the [for (key, source) in other.sources] loop of
    [DayAccumulator::merge]. *)
Definition day_merge_source (srcs : gmap string SourceContribution)
    (kv : string * SourceContribution) : gmap string SourceContribution :=
  let '(key, source) := kv in
  let entry :=
    match srcs !! key with
    | Some sc => sc
    | None => mkSourceContribution (sc_source source) (sc_model_id source)
                (sc_provider_id source) tb_default F64.zero 0
    end in
  <[key := mkSourceContribution (sc_source entry) (sc_model_id entry)
             (sc_provider_id entry)
             (tb_saturating_add (sc_tokens entry) (sc_tokens source))
             (F64.add (sc_cost entry) (sc_cost source))
             (saturating_add32 (sc_messages entry) (sc_messages source))]> srcs.

(** [DayAccumulator::merge]. *)
Definition day_merge (self other : DayAccumulator) : DayAccumulator :=
  let t := day_totals self in
  let o := day_totals other in
  mkDayAccumulator
    (mkDailyTotals (saturating_add (totals_tokens t) (totals_tokens o))
                   (F64.add (totals_cost t) (totals_cost o))
                   (saturating_add32 (totals_messages t) (totals_messages o)))
    (tb_saturating_add (day_token_breakdown self) (day_token_breakdown other))
    (foldl day_merge_source (day_sources self) (map_to_list (day_sources other))).

(* ===================================================================== *)
(** ** [IntervalAccumulator] *)
(* ===================================================================== *)

Record IntervalAccumulator := mkIntervalAccumulator {
  iv_token_breakdown : TokenBreakdown;
  iv_messages : Z;
  iv_cost : spec_float;
  iv_message_data : list (Z * Z) }.

(** [IntervalAccumulator::default()]. *)
Definition iv_default : IntervalAccumulator :=
  mkIntervalAccumulator tb_default 0 F64.zero [].

(** [IntervalAccumulator::add_message]. *)
Definition iv_add_message (acc : IntervalAccumulator) (msg : UnifiedMessage)
  : IntervalAccumulator :=
  mkIntervalAccumulator
    (tb_saturating_add (iv_token_breakdown acc) (tokens msg))
    (wrap32 (iv_messages acc + 1))
    (F64.add (iv_cost acc) (cost msg))
    (iv_message_data acc ++ [(timestamp msg, msg_total_tokens (tokens msg))]).

(** [IntervalAccumulator::merge]. *)
Definition iv_merge (self other : IntervalAccumulator) : IntervalAccumulator :=
  mkIntervalAccumulator
    (tb_saturating_add (iv_token_breakdown self) (iv_token_breakdown other))
    (wrap32 (iv_messages self + iv_messages other))
    (F64.add (iv_cost self) (iv_cost other))
    (iv_message_data self ++ iv_message_data other).

(* ===================================================================== *)
(** ** Parallel fold / reduce *)
(* ===================================================================== *)

(** A run of rayon's [fold]/[reduce]: the leaves are the partitions a
    worker folds with [add_message] from the identity, the nodes the
    pairwise [merge]s, in the order the tree gives. *)
Inductive Partition :=
  | PLeaf (ms : list UnifiedMessage)
  | PNode (l r : Partition).

Fixpoint flatten (p : Partition) : list UnifiedMessage :=
  match p with
  | PLeaf ms => ms
  | PNode l r => flatten l ++ flatten r
  end.

Fixpoint day_reduce (p : Partition) : DayAccumulator :=
  match p with
  | PLeaf ms => foldl day_add_message day_default ms
  | PNode l r => day_merge (day_reduce l) (day_reduce r)
  end.

Fixpoint iv_reduce (p : Partition) : IntervalAccumulator :=
  match p with
  | PLeaf ms => foldl iv_add_message iv_default ms
  | PNode l r => iv_merge (iv_reduce l) (iv_reduce r)
  end.

(* ===================================================================== *)
(** ** Exact sums, for stating what the accumulators compute *)
(* ===================================================================== *)

(** The spec's data model: every token counter is non-negative. *)
Definition tb_nonneg (t : TokenBreakdown) : Prop :=
  0 <= input t /\ 0 <= output t /\ 0 <= cache_read t /\
  0 <= cache_write t /\ 0 <= reasoning t.

(** ... and fits the [i64] fields that hold it. *)
Definition tb_le_max (t : TokenBreakdown) : Prop :=
  input t <= i64_max /\ output t <= i64_max /\ cache_read t <= i64_max /\
  cache_write t <= i64_max /\ reasoning t <= i64_max.

Definition msg_nonneg (m : UnifiedMessage) : Prop :=
  tb_nonneg (tokens m) /\ tb_le_max (tokens m).

(** Field-wise exact sum of the breakdowns of a list of messages. *)
Definition tb_plus (a b : TokenBreakdown) : TokenBreakdown :=
  mkTokenBreakdown (input a + input b) (output a + output b)
    (cache_read a + cache_read b) (cache_write a + cache_write b)
    (reasoning a + reasoning b).

Definition tb_sum (ms : list UnifiedMessage) : TokenBreakdown :=
  fold_right (fun m acc => tb_plus (tokens m) acc) tb_default ms.

(** Field-wise clamp at [i64::MAX]. *)
Definition tb_clamp (t : TokenBreakdown) : TokenBreakdown :=
  mkTokenBreakdown (Z.min i64_max (input t)) (Z.min i64_max (output t))
    (Z.min i64_max (cache_read t)) (Z.min i64_max (cache_write t))
    (Z.min i64_max (reasoning t)).

(** Exact token total of one message and of a list of messages. *)
Definition raw_total (t : TokenBreakdown) : Z :=
  input t + output t + cache_read t + cache_write t + reasoning t.

Definition raw_total_sum (ms : list UnifiedMessage) : Z :=
  fold_right (fun m acc => raw_total (tokens m) + acc) 0 ms.

(** The pair [IntervalAccumulator::add_message] retains for a message. *)
Definition iv_entry (m : UnifiedMessage) : Z * Z :=
  (timestamp m, msg_total_tokens (tokens m)).

(** [f64] value of the decimal [n / d], as the literal is rounded. *)
Definition f64_ratio (n d : Z) : spec_float := F64.div (F64.of_Z n) (F64.of_Z d).

(** A message carrying only a cost, with fixed other fields. *)
Definition cost_message (c : spec_float) : UnifiedMessage :=
  mkUnifiedMessage "test" "test-model" "test-provider" "test-session" 0 "2024-01-01"
    tb_default c.

(** Three messages costing 0.1, 0.2 and 0.3. *)
Definition three_costs : list UnifiedMessage :=
  [cost_message (f64_ratio 1 10); cost_message (f64_ratio 2 10);
   cost_message (f64_ratio 3 10)].

(** One worker folds all three; or the first alone and the other two
    together, then merges. *)
Definition one_group : Partition := PLeaf three_costs.
Definition two_groups : Partition :=
  PNode (PLeaf [cost_message (f64_ratio 1 10)])
        (PLeaf [cost_message (f64_ratio 2 10); cost_message (f64_ratio 3 10)]).

(* ===================================================================== *)
(** ** Interval buckets: [aggregate_by_interval] *)
(* ===================================================================== *)

Record RateStats := mkRateStats {
  avg_tokens_per_min : spec_float;
  max_tokens_per_min : spec_float;
  min_tokens_per_min : spec_float }.

Record IntervalBucket := mkIntervalBucket {
  start_ms : Z;
  end_ms : Z;
  token_breakdown : TokenBreakdown;
  messages : Z;
  cost_micros : Z;
  rate_stats : option RateStats }.

(** The [f64] literals [60_000.0] and [1_000_000.0]. *)
Definition f64_60000 : spec_float := F64.of_Z 60000.
Definition f64_1e6 : spec_float := F64.of_Z 1000000.

(** [MIN_DT_MS] and [MAX_DT_MS] of [calculate_rate_stats]. *)
Definition MIN_DT_MS : Z := 5000.
Definition MAX_DT_MS : Z := 1800000.

(** [i64::clamp]. *)
Definition clamp_i64 (x lo hi : Z) : Z := Z.max lo (Z.min hi x).

(** [sorted.sort_by_key(|(ts, _)| *ts)]: a stable sort on the timestamp,
    written as an insertion sort that places an element after every
    element of equal key. *)
Fixpoint insert_by_ts (x : Z * Z) (l : list (Z * Z)) : list (Z * Z) :=
  match l with
  | [] => [x]
  | y :: l' => if Z.leb (fst y) (fst x) then y :: insert_by_ts x l' else x :: l
  end.

Definition sort_by_ts (l : list (Z * Z)) : list (Z * Z) :=
  foldl (fun acc x => insert_by_ts x acc) [] l.

(** The rate of one consecutive pair [(ts1, _), (ts2, tokens2)]. *)
Definition pair_rate (ts1 ts2 tokens2 : Z) : spec_float :=
  let dt_ms := clamp_i64 (wrap64 (ts2 - ts1)) MIN_DT_MS MAX_DT_MS in
  let dt_minutes := F64.div (F64.of_Z dt_ms) f64_60000 in
  F64.div (F64.of_Z tokens2) dt_minutes.

(** The loop [for i in 0..sorted.len() - 1], threading [max_rate] and
    [min_rate]. *)
Fixpoint rate_loop (sorted : list (Z * Z)) (max_rate min_rate : spec_float)
  : spec_float * spec_float :=
  match sorted with
  | (ts1, _) :: (((ts2, tokens2) :: _) as rest) =>
      let rate := pair_rate ts1 ts2 tokens2 in
      rate_loop rest (F64.fmax max_rate rate) (F64.fmin min_rate rate)
  | _ => (max_rate, min_rate)
  end.

(** [IntervalAccumulator::calculate_rate_stats]. *)
Definition calculate_rate_stats (acc : IntervalAccumulator) (interval_ms : Z)
  : option RateStats :=
  match iv_message_data acc with
  | [] => None
  | data =>
    let tb := iv_token_breakdown acc in
    let total_tokens := wrap64 (wrap64 (wrap64 (wrap64 (input tb + output tb)
                          + cache_read tb) + cache_write tb) + reasoning tb) in
    let interval_minutes := F64.div (F64.of_Z interval_ms) f64_60000 in
    let avg_tokens_per_min := F64.div (F64.of_Z total_tokens) interval_minutes in
    if Nat.eqb (length data) 1 then
      Some (mkRateStats avg_tokens_per_min avg_tokens_per_min avg_tokens_per_min)
    else
      let sorted := sort_by_ts data in
      let '(max_rate, min_rate) := rate_loop sorted F64.zero F64.max_value in
      let min_rate := if F64.eqb min_rate F64.max_value then avg_tokens_per_min
                      else min_rate in
      Some (mkRateStats avg_tokens_per_min
              (F64.fmax max_rate avg_tokens_per_min)
              (F64.fmin min_rate avg_tokens_per_min))
  end.

(** [IntervalAccumulator::into_bucket]. *)
Definition into_bucket (acc : IntervalAccumulator) (start interval_ms : Z)
  : IntervalBucket :=
  mkIntervalBucket start (wrap64 (start + interval_ms)) (iv_token_breakdown acc)
    (iv_messages acc) (F64.to_i64 (F64.mul (iv_cost acc) f64_1e6))
    (calculate_rate_stats acc interval_ms).

(** The bucket [aggregate_by_interval] builds for a start with no
    accumulator. *)
Definition empty_bucket (current interval_ms : Z) : IntervalBucket :=
  mkIntervalBucket current (wrap64 (current + interval_ms)) tb_default 0 0 None.

(** [(ts / interval_ms_i64) * interval_ms_i64]. *)
Definition bucket_start (ts w : Z) : option Z :=
  match div_i64 ts w with
  | Some q => Some (wrap64 (q * w))
  | None => None
  end.

(** The min/max fold over the timestamps, from [(i64::MAX, i64::MIN)]. *)
Definition min_max_ts (messages : list UnifiedMessage) : Z * Z :=
  foldl (fun '(mn, mx) m => (Z.min mn (timestamp m), Z.max mx (timestamp m)))
    (i64_max, i64_min) messages.

(** A worker's [fold] building its part of [bucket_map], from an empty map:
    [acc.entry(bucket_start).or_default().add_message(&msg)]; [None] when
    the division panics. *)
Fixpoint bucket_fold (w : Z) (acc : gmap Z IntervalAccumulator)
    (messages : list UnifiedMessage) : option (gmap Z IntervalAccumulator) :=
  match messages with
  | [] => Some acc
  | msg :: rest =>
      match bucket_start (timestamp msg) w with
      | None => None
      | Some k =>
          let a := match acc !! k with Some a => a | None => iv_default end in
          bucket_fold w (<[k := iv_add_message a msg]> acc) rest
      end
  end.

(** One step of the [reduce] closure:
    [a.entry(bucket_start).or_default().merge(acc)]. *)
Definition bucket_merge_step (a : gmap Z IntervalAccumulator) (kv : Z * IntervalAccumulator)
  : gmap Z IntervalAccumulator :=
  let '(k, acc) := kv in
  let e := match a !! k with Some x => x | None => iv_default end in
  <[k := iv_merge e acc]> a.

(** The [reduce] closure: [for (bucket_start, acc) in b { ... }] over the
    entries of [b] (each key once, so their order does not matter). *)
Definition bucket_merge (a b : gmap Z IntervalAccumulator) : gmap Z IntervalAccumulator :=
  foldl bucket_merge_step a (map_to_list b).

(** [bucket_map] for a run of rayon's [fold]/[reduce] given by [p]: each
    leaf folded from an empty map, each node the [reduce] of its two maps. *)
Fixpoint bucket_reduce (w : Z) (p : Partition) : option (gmap Z IntervalAccumulator) :=
  match p with
  | PLeaf ms => bucket_fold w ∅ ms
  | PNode l r =>
      match bucket_reduce w l, bucket_reduce w r with
      | Some a, Some b => Some (bucket_merge a b)
      | _, _ => None
      end
  end.

(** The parallel min/max pass: [min_max_ts] on each leaf, then the
    [reduce] [(min1.min(min2), max1.max(max2))]. Its result does not depend
    on the split ([min_max_reduce_flatten]), so the model runs it on the
    split of the bucket pass. *)
Fixpoint min_max_reduce (p : Partition) : Z * Z :=
  match p with
  | PLeaf ms => min_max_ts ms
  | PNode l r =>
      let '(min1, max1) := min_max_reduce l in
      let '(min2, max2) := min_max_reduce r in
      (Z.min min1 min2, Z.max max1 max2)
  end.

(** The bucket the [while] loop pushes for [current]. *)
Definition bucket_at (bucket_map : gmap Z IntervalAccumulator) (current w : Z)
  : IntervalBucket :=
  match bucket_map !! current with
  | Some acc => into_bucket acc current w
  | None => empty_bucket current w
  end.

(** The [while current <= last_bucket] loop; [None] when it panics or does
    not finish within [fuel] iterations. *)
Fixpoint fill_buckets (fuel : nat) (bucket_map : gmap Z IntervalAccumulator)
    (current last_bucket w : Z) : option (list IntervalBucket) :=
  match fuel with
  | O => None
  | S fuel' =>
      if Z.leb current last_bucket then
        match fill_buckets fuel' bucket_map (wrap64 (current + w)) last_bucket w with
        | Some bs => Some (bucket_at bucket_map current w :: bs)
        | None => None
        end
      else Some []
  end.

(** [aggregate_by_interval(messages, interval_ms)] for the messages
    [flatten p], with the parallel passes run on the split [p] and the
    [while] loop run with [fuel] iterations at most. *)
Definition aggregate_by_interval (fuel : nat) (p : Partition) (interval_ms : Z)
  : option (list IntervalBucket) :=
  match flatten p with
  | [] => Some []
  | _ =>
    let w := u64_as_i64 interval_ms in
    let '(min_ts, max_ts) := min_max_reduce p in
    match bucket_start min_ts w, bucket_start max_ts w with
    | Some first_bucket, Some last_bucket =>
        match div_i64 (wrap64 (last_bucket - first_bucket)) w with
        | None => None
        | Some _ =>
            match bucket_reduce w p with
            | None => None
            | Some bucket_map => fill_buckets fuel bucket_map first_bucket last_bucket w
            end
        end
    | _, _ => None
    end
  end.

(** The bucket start of a message by truncating division, and the
    floor-aligned start the spec describes. *)
Definition trunc_bucket (w ts : Z) : Z := Z.quot ts w * w.
Definition floor_bucket (w ts : Z) : Z := Z.div ts w * w.

(** A timestamp is an [i64]. *)
Definition ts_valid (m : UnifiedMessage) : Prop :=
  i64_min <= timestamp m <= i64_max.

(** The messages whose truncated bucket start is [k], in input order. *)
Definition msgs_in_bucket (w k : Z) (ms : list UnifiedMessage) : list UnifiedMessage :=
  List.filter (fun m => Z.eqb (trunc_bucket w (timestamp m)) k) ms.

(** The accumulator left under a key after folding [l] into [a]. *)
Definition acc_after (a : option IntervalAccumulator) (l : list UnifiedMessage)
  : option IntervalAccumulator :=
  match l with
  | [] => a
  | _ => Some (foldl iv_add_message (match a with Some x => x | None => iv_default end) l)
  end.

(** An accumulator built from exactly the messages [l]: their count as an
    [i32], their (timestamp, tokens) pairs in order and, for non-negative
    counters, their clamped token breakdown. *)
Definition acc_holds (acc : IntervalAccumulator) (l : list UnifiedMessage) : Prop :=
  iv_messages acc = wrap32 (Z.of_nat (length l)) /\
  iv_message_data acc = map iv_entry l /\
  (Forall msg_nonneg l -> iv_token_breakdown acc = tb_clamp (tb_sum l)).

(** The entry of [bucket_map] under a start whose messages are [l]. *)
Definition entry_holds (o : option IntervalAccumulator) (l : list UnifiedMessage) : Prop :=
  match o with
  | None => l = []
  | Some acc => l <> [] /\ acc_holds acc l
  end.

(** The starts [s, s + w, ..., s + (n - 1) w]. *)
Fixpoint bucket_starts (s w : Z) (n : nat) : list Z :=
  match n with
  | O => []
  | S n' => s :: bucket_starts (s + w) w n'
  end.

(** The number of buckets from [first] to [last] by [w]. *)
Definition bucket_span (first last w : Z) : nat := Z.to_nat ((last - first) / w + 1).

(** A message of the aggregator's tests: timestamp, input and output
    tokens, cost. *)
Definition test_message (ts input_tokens output_tokens : Z) (c : spec_float)
  : UnifiedMessage :=
  mkUnifiedMessage "test" "test-model" "test-provider" "test-session" ts "2024-01-01"
    (mkTokenBreakdown input_tokens output_tokens 0 0 0) c.

(** The gap-filling test: messages at 0 ms and 3000 ms. *)
Definition gap_messages : list UnifiedMessage :=
  [test_message 0 100 50 (f64_ratio 1 100); test_message 3000 200 100 (f64_ratio 2 100)].

(** A split of the gap-filling test with one more message at 500 ms: the
    two workers both fill the bucket at 0, which the [reduce] merges. *)
Definition gap_split : Partition :=
  PNode (PLeaf gap_messages) (PLeaf [test_message 500 300 150 (f64_ratio 3 100)]).


(* ===================================================================== *)
(** ** Pricing: [src/core/src/pricing.rs] *)
(* ===================================================================== *)

(** [ModelPricing]: per-token rates. *)
Record ModelPricing := mkModelPricing {
  input_cost_per_token : spec_float;
  output_cost_per_token : spec_float;
  cache_read_input_token_cost : spec_float;
  cache_creation_input_token_cost : spec_float }.

(** [PricingData::models], a [HashMap<String, ModelPricing>]; its
    iteration order, which the fuzzy step depends on, is that of
    [map_to_list]. *)
Definition PricingData := gmap string ModelPricing.

(** [char::to_lowercase] on ASCII letters; the ids are taken as ASCII
    strings (Unicode case mapping is not modelled). *)
Definition ascii_to_lowercase (c : ascii) : ascii :=
  let n := nat_of_ascii c in
  if Nat.leb 65 n && Nat.leb n 90 then ascii_of_nat (n + 32) else c.

Fixpoint to_lowercase (s : string) : string :=
  match s with
  | EmptyString => EmptyString
  | String c s' => String (ascii_to_lowercase c) (to_lowercase s')
  end.

(** [str::contains] with a string pattern. *)
Fixpoint contains (s pat : string) : bool :=
  String.prefix pat s ||
  match s with
  | EmptyString => false
  | String _ s' => contains s' pat
  end.

(** [str::starts_with]. *)
Definition starts_with (s pat : string) : bool := String.prefix pat s.

(** [PricingData::normalize_cursor_model_name]. *)
Definition normalize_cursor_model_name (model_id : string) : option string :=
  let lower := to_lowercase model_id in
  let opus :=
    if contains lower "opus" then
      if contains lower "4.5" || contains lower "4-5" then Some "opus-4-5"
      else if contains lower "4" then Some "opus-4"
      else None
    else None in
  match opus with Some r => Some r | None =>
  let sonnet :=
    if contains lower "sonnet" then
      if contains lower "4.5" || contains lower "4-5" then Some "sonnet-4-5"
      else if contains lower "4" then Some "sonnet-4"
      else if contains lower "3.7" || contains lower "3-7" then Some "sonnet-3-7"
      else if contains lower "3.5" || contains lower "3-5" then Some "sonnet-3-5"
      else None
    else None in
  match sonnet with Some r => Some r | None =>
  let haiku :=
    if contains lower "haiku" then
      if contains lower "4.5" || contains lower "4-5" then Some "haiku-4-5"
      else None
    else None in
  match haiku with Some r => Some r | None =>
  if String.eqb lower "o3" then Some "o3"
  else if starts_with lower "gpt-4o" || String.eqb lower "gpt-4o" then Some "gpt-4o"
  else if starts_with lower "gpt-4.1" || contains lower "gpt-4.1" then Some "gpt-4.1"
  else if contains lower "gemini-2.5-pro" then Some "gemini-2.5-pro"
  else if contains lower "gemini-2.5-flash" then Some "gemini-2.5-flash"
  else None
  end end end%string.

(** The provider prefixes tried by [get_pricing], in order. *)
Definition prefixes : list string := ["anthropic/"; "openai/"; "google/"; "bedrock/"]%string.

(** [for prefix in prefixes { ... self.models.get(&format!("{}{}", prefix, id)) ... }]. *)
Fixpoint lookup_prefixed (models : PricingData) (ps : list string) (id : string)
  : option ModelPricing :=
  match ps with
  | [] => None
  | p :: ps' =>
      match models !! (p ++ id)%string with
      | Some pricing => Some pricing
      | None => lookup_prefixed models ps' id
      end
  end.

(** The test of one key of the fuzzy step. *)
Definition fuzzy_hit (lower_model : string) (lower_normalized : option string)
    (key : string) : bool :=
  let lower_key := to_lowercase key in
  (contains lower_key lower_model || contains lower_model lower_key) ||
  match lower_normalized with
  | Some ln => contains lower_key ln || contains ln lower_key
  | None => false
  end.

(** The fuzzy loop [for (key, pricing) in &self.models]. *)
Fixpoint fuzzy_loop (lower_model : string) (lower_normalized : option string)
    (entries : list (string * ModelPricing)) : option ModelPricing :=
  match entries with
  | [] => None
  | (key, pricing) :: rest =>
      if fuzzy_hit lower_model lower_normalized key then Some pricing
      else fuzzy_loop lower_model lower_normalized rest
  end.

(** [PricingData::get_pricing]. *)
Definition get_pricing (models : PricingData) (model_id : string) : option ModelPricing :=
  match models !! model_id with
  | Some pricing => Some pricing
  | None =>
  match lookup_prefixed models prefixes model_id with
  | Some pricing => Some pricing
  | None =>
  let normalized := normalize_cursor_model_name model_id in
  let by_norm :=
    match normalized with
    | Some norm =>
        match models !! norm with
        | Some pricing => Some pricing
        | None => lookup_prefixed models prefixes norm
        end
    | None => None
    end in
  match by_norm with
  | Some pricing => Some pricing
  | None =>
      fuzzy_loop (to_lowercase model_id) (option_map to_lowercase normalized)
        (map_to_list models)
  end end end.

(** [PricingData::calculate_cost]; [output + reasoning] is an [i64]
    addition, which wraps in a release build. *)
Definition calculate_cost (models : PricingData) (model_id : string)
    (input output cache_read cache_write reasoning : Z) : spec_float :=
  match get_pricing models model_id with
  | None => F64.zero
  | Some pricing =>
      let input_cost := F64.mul (F64.of_Z input) (input_cost_per_token pricing) in
      let output_cost := F64.mul (F64.of_Z (wrap64 (output + reasoning)))
                           (output_cost_per_token pricing) in
      let cache_read_cost := F64.mul (F64.of_Z cache_read)
                               (cache_read_input_token_cost pricing) in
      let cache_write_cost := F64.mul (F64.of_Z cache_write)
                                (cache_creation_input_token_cost pricing) in
      F64.add (F64.add (F64.add input_cost output_cost) cache_read_cost) cache_write_cost
  end.

(** The pricing of the tests: [3.0 / 1e6], [15.0 / 1e6], [0.3 / 1e6] and
    [3.75 / 1e6] per token ([0.3] is the [f64] nearest to 3/10, [3.75] is
    exact). *)
Definition f64_1e6_div (x : spec_float) : spec_float := F64.div x f64_1e6.
Definition test_pricing : ModelPricing :=
  mkModelPricing (f64_1e6_div (F64.of_Z 3)) (f64_1e6_div (F64.of_Z 15))
    (f64_1e6_div (f64_ratio 3 10)) (f64_1e6_div (f64_ratio 375 100)).

Definition sonnet_id : string := "claude-3-5-sonnet-20241022".

(** The catalogs of [test_calculate_cost] and [test_fuzzy_matching]. *)
Definition cost_catalog : PricingData := {[ sonnet_id := test_pricing ]}.
Definition prefixed_catalog : PricingData := {[ ("anthropic/" ++ sonnet_id)%string := test_pricing ]}.



(** The normalization rules as a table read top to bottom: the first rule
    whose family token and one of whose version markers the lower-cased id
    contains gives the canonical name. *)
Definition claude_rules : list (string * list string * string) :=
  [("opus", ["4.5"; "4-5"], "opus-4-5");
   ("opus", ["4"], "opus-4");
   ("sonnet", ["4.5"; "4-5"], "sonnet-4-5");
   ("sonnet", ["4"], "sonnet-4");
   ("sonnet", ["3.7"; "3-7"], "sonnet-3-7");
   ("sonnet", ["3.5"; "3-5"], "sonnet-3-5");
   ("haiku", ["4.5"; "4-5"], "haiku-4-5")]%string.

Fixpoint first_claude_rule (lower : string) (rules : list (string * list string * string))
  : option string :=
  match rules with
  | [] => None
  | (family, markers, canonical) :: rest =>
      if contains lower family && existsb (contains lower) markers then Some canonical
      else first_claude_rule lower rest
  end.

(** The OpenAI and Gemini names, tried after the table. *)
Definition other_rules (lower : string) : option string :=
  if String.eqb lower "o3" then Some "o3"
  else if starts_with lower "gpt-4o" then Some "gpt-4o"
  else if contains lower "gpt-4.1" then Some "gpt-4.1"
  else if contains lower "gemini-2.5-pro" then Some "gemini-2.5-pro"
  else if contains lower "gemini-2.5-flash" then Some "gemini-2.5-flash"
  else None.

(** The spec's [round(cost * 1_000_000)]: the integer nearest to the
    value of a finite [f64], halves away from zero (unbounded). *)
Definition round_half_away (x : spec_float) : Z :=
  match x with
  | S754_finite s m e =>
      let mag :=
        if Z.leb 0 e then Z.pos m * 2 ^ e
        else let d := 2 ^ (- e) in
             if Z.leb d (2 * (Z.pos m mod d)) then Z.pos m / d + 1 else Z.pos m / d in
      if s then - mag else mag
  | _ => 0
  end.

(** The [f64] [2^-19], about [1.9e-6]. *)
Definition cost_2_pow_m19 : spec_float := f64_ratio 1 524288.

(* ===================================================================== *)
(** ** Daily contributions: [aggregate_by_date], [calculate_intensities] *)
(* ===================================================================== *)

(** Modelled from the spec: [DailyContribution] is declared in the crate
    root, which is not part of the sources; its fields are the spec's
    (date, totals, intensity, token breakdown, sources). *)
Record DailyContribution := mkDailyContribution {
  dc_date : string;
  dc_totals : DailyTotals;
  dc_intensity : Z;
  dc_token_breakdown : TokenBreakdown;
  dc_sources : list SourceContribution }.

Definition day_cost (c : DailyContribution) : spec_float := totals_cost (dc_totals c).

(** [DayAccumulator::into_contribution]. *)
Definition into_contribution (acc : DayAccumulator) (date : string) : DailyContribution :=
  mkDailyContribution date (day_totals acc) 0 (day_token_breakdown acc)
    (map snd (map_to_list (day_sources acc))).

(** The fold step [acc.entry(msg.date.clone()).or_default().add_message(&msg)]. *)
Definition date_add (acc : gmap string DayAccumulator) (msg : UnifiedMessage)
  : gmap string DayAccumulator :=
  let e := match acc !! date msg with Some a => a | None => day_default end in
  <[date msg := day_add_message e msg]> acc.

(** The reduce step: [for (date, acc) in b { a.entry(date).or_default().merge(acc) }]. *)
Definition date_merge (a b : gmap string DayAccumulator) : gmap string DayAccumulator :=
  foldl (fun a '(d, acc) =>
           let e := match a !! d with Some x => x | None => day_default end in
           <[d := day_merge e acc]> a) a (map_to_list b).

Fixpoint date_reduce (p : Partition) : gmap string DayAccumulator :=
  match p with
  | PLeaf ms => foldl date_add ∅ ms
  | PNode l r => date_merge (date_reduce l) (date_reduce r)
  end.

(** [contributions.sort_by(|a, b| a.date.cmp(&b.date))], a stable sort. *)
Fixpoint insert_by_date (x : DailyContribution) (l : list DailyContribution)
  : list DailyContribution :=
  match l with
  | [] => [x]
  | y :: l' => if String.leb (dc_date y) (dc_date x) then y :: insert_by_date x l'
               else x :: l
  end.

Definition sort_by_date (l : list DailyContribution) : list DailyContribution :=
  foldl (fun acc x => insert_by_date x acc) [] l.

(** The [f64] literals [0.25], [0.5] and [0.75]. *)
Definition f64_quarter : spec_float := f64_ratio 1 4.
Definition f64_half : spec_float := f64_ratio 1 2.
Definition f64_three_quarters : spec_float := f64_ratio 3 4.
Definition f64_one : spec_float := F64.of_Z 1.

(** The [if ratio >= 0.75 { 4 } else if ...] chain. *)
Definition intensity_of (ratio : spec_float) : Z :=
  if F64.ge ratio f64_three_quarters then 4
  else if F64.ge ratio f64_half then 3
  else if F64.ge ratio f64_quarter then 2
  else if F64.gt ratio F64.zero then 1
  else 0.

Definition set_intensity (c : DailyContribution) (i : Z) : DailyContribution :=
  mkDailyContribution (dc_date c) (dc_totals c) i (dc_token_breakdown c) (dc_sources c).

(** [calculate_intensities]: [max_cost] is [fold(0.0, f64::max)] over the
    costs. *)
Definition calculate_intensities (contributions : list DailyContribution)
  : list DailyContribution :=
  let max_cost := foldl (fun a c => F64.fmax a (day_cost c)) F64.zero contributions in
  if F64.eqb max_cost F64.zero then contributions
  else map (fun c => set_intensity c (intensity_of (F64.div (day_cost c) max_cost)))
         contributions.

(** [aggregate_by_date], for the run of the parallel fold/reduce [p]. *)
Definition aggregate_by_date (p : Partition) : list DailyContribution :=
  match flatten p with
  | [] => []
  | _ =>
      let daily_map := date_reduce p in
      let contributions :=
        map (fun '(d, acc) => into_contribution acc d) (map_to_list daily_map) in
      calculate_intensities (sort_by_date contributions)
  end.

(** A message of a given date and cost. *)
Definition day_message (d : string) (c : spec_float) : UnifiedMessage :=
  mkUnifiedMessage "test" "test-model" "test-provider" "test-session" 0 d tb_default c.

(** Four days costing 1.0, 0.5, 0.1 and 0.0, folded in two partitions. *)
Definition days_partition : Partition :=
  PNode (PLeaf [day_message "2024-01-02" (f64_ratio 1 2); day_message "2024-01-01" f64_one])
        (PLeaf [day_message "2024-01-03" (f64_ratio 1 10); day_message "2024-01-04" F64.zero]).

(* ===================================================================== *)
(** ** Year summaries: [calculate_years] *)
(* ===================================================================== *)

(** Modelled from the spec: [YearSummary] is declared in the crate root,
    which is not part of the sources; its fields are those
    [calculate_years] fills. *)
Record YearSummary := mkYearSummary {
  ys_year : string;
  ys_total_tokens : Z;
  ys_total_cost : spec_float;
  ys_range_start : string;
  ys_range_end : string }.

(** [YearAccumulator] and its [Default]. *)
Record YearAccumulator := mkYearAccumulator {
  ya_tokens : Z;
  ya_cost : spec_float;
  ya_start : string;
  ya_end : string }.

Definition ya_default : YearAccumulator := mkYearAccumulator 0 F64.zero "" "".

(** [str::is_char_boundary]: index 0, the length, or a byte that is not a
    UTF-8 continuation byte ([0x80..=0xBF]); an index past the end is not
    a boundary. The string is its list of bytes. *)
Definition is_char_boundary (s : string) (i : nat) : bool :=
  if Nat.eqb i 0 then true
  else if Nat.eqb i (String.length s) then true
  else match String.get i s with
       | Some ch => Nat.ltb (nat_of_ascii ch) 128 || Nat.leb 192 (nat_of_ascii ch)
       | None => false
       end.

(** [&s[0..j]]: [None] where the indexing panics. *)
Definition str_prefix_slice (s : string) (j : nat) : option string :=
  if Nat.leb j (String.length s) && is_char_boundary s j then Some (substring 0 j s)
  else None.

(** One iteration of the [for c in contributions] loop; [None] when it
    panics. *)
Definition year_step (years_map : gmap string YearAccumulator) (c : DailyContribution)
  : option (gmap string YearAccumulator) :=
  match str_prefix_slice (dc_date c) 4 with
  | None => None
  | Some year =>
      let entry := match years_map !! year with Some a => a | None => ya_default end in
      let tokens := wrap64 (ya_tokens entry + totals_tokens (dc_totals c)) in
      let cost := F64.add (ya_cost entry) (totals_cost (dc_totals c)) in
      let start := if String.eqb (ya_start entry) "" || String.ltb (dc_date c) (ya_start entry)
                   then dc_date c else ya_start entry in
      let end_ := if String.eqb (ya_end entry) "" || String.ltb (ya_end entry) (dc_date c)
                  then dc_date c else ya_end entry in
      Some (<[year := mkYearAccumulator tokens cost start end_]> years_map)
  end.

Fixpoint year_loop (years_map : gmap string YearAccumulator) (cs : list DailyContribution)
  : option (gmap string YearAccumulator) :=
  match cs with
  | [] => Some years_map
  | c :: rest =>
      match year_step years_map c with
      | None => None
      | Some m => year_loop m rest
      end
  end.

(** [years.sort_by(|a, b| a.year.cmp(&b.year))], a stable sort. *)
Fixpoint insert_by_year (x : YearSummary) (l : list YearSummary) : list YearSummary :=
  match l with
  | [] => [x]
  | y :: l' => if String.leb (ys_year y) (ys_year x) then y :: insert_by_year x l'
               else x :: l
  end.

(** [calculate_years]; [None] when it panics. *)
Definition calculate_years (contributions : list DailyContribution)
  : option (list YearSummary) :=
  match year_loop ∅ contributions with
  | None => None
  | Some years_map =>
      Some (foldl (fun acc x => insert_by_year x acc) []
              (map (fun '(year, acc) =>
                      mkYearSummary year (ya_tokens acc) (ya_cost acc) (ya_start acc) (ya_end acc))
                   (map_to_list years_map)))
  end.

(** A contribution of a given date, with no tokens and no cost. *)
Definition date_contribution (d : string) : DailyContribution :=
  mkDailyContribution d totals_default 0 tb_default [].

(* ===================================================================== *)
(** ** Rate statistics as the spec states them *)
(* ===================================================================== *)

(** The spec's rate of a consecutive pair: [dt] is the exact difference
    [ts2 - ts1] clamped to [[5000, 1_800_000]] ms, and
    [rate = tokens2 / (dt / 60000)] in [f64]. *)
Definition spec_pair_rate (ts1 ts2 tokens2 : Z) : spec_float :=
  let dt_ms := clamp_i64 (ts2 - ts1) MIN_DT_MS MAX_DT_MS in
  F64.div (F64.of_Z tokens2) (F64.div (F64.of_Z dt_ms) f64_60000).

(** The rates of all consecutive pairs of a sorted list. *)
Fixpoint spec_consecutive_rates (sorted : list (Z * Z)) : list spec_float :=
  match sorted with
  | (ts1, _) :: (((ts2, tokens2) :: _) as rest) =>
      spec_pair_rate ts1 ts2 tokens2 :: spec_consecutive_rates rest
  | _ => []
  end.

(** The spec's rate statistics of a bucket with breakdown [tb] and
    retained pairs [data]: [avg] is the exact token total over
    [interval_ms / 60000]; one pair gives [max = min = avg]; otherwise the
    pairs are sorted by timestamp, the running max and min are taken over
    the consecutive rates, and the results are [max(running_max, avg)] and
    [min(running_min, avg)]. *)
Definition spec_rate_stats (tb : TokenBreakdown) (data : list (Z * Z)) (interval_ms : Z)
  : option RateStats :=
  match data with
  | [] => None
  | _ =>
    let total := input tb + output tb + cache_read tb + cache_write tb + reasoning tb in
    let avg := F64.div (F64.of_Z total) (F64.div (F64.of_Z interval_ms) f64_60000) in
    if Nat.eqb (length data) 1 then Some (mkRateStats avg avg avg)
    else
      match spec_consecutive_rates (sort_by_ts data) with
      | [] => Some (mkRateStats avg avg avg)
      | r :: rs =>
          Some (mkRateStats avg (F64.fmax (foldl F64.fmax r rs) avg)
                  (F64.fmin (foldl F64.fmin r rs) avg))
      end
  end.



(** A message whose token counts are each within [i64] but whose sum is
    [i64::MAX + 1]. *)
Definition overflow_message : UnifiedMessage := test_message 0 i64_max 1 F64.zero.

(* ===================================================================== *)
(** ** Further definitions: the rest of [pricing.rs] and [aggregator.rs] *)
(* ===================================================================== *)

(** [PricingData::new()]. *)
Definition PricingData_new : PricingData := ∅.

(** [PricingData::add_model]: [self.models.insert(model_id, pricing)]. *)
Definition add_model (models : PricingData) (model_id : string) (pricing : ModelPricing)
  : PricingData := <[model_id := pricing]> models.

(** The names [normalize_cursor_model_name] can return. *)
Definition normalized_names : list string :=
  ["opus-4-5"; "opus-4"; "sonnet-4-5"; "sonnet-4"; "sonnet-3-7"; "sonnet-3-5";
   "haiku-4-5"; "o3"; "gpt-4o"; "gpt-4.1"; "gemini-2.5-pro"; "gemini-2.5-flash"]%string.





(** Modelled from the source's use: [DataSummary] is declared in the crate
    root, which is not part of the sources; its fields and their types are
    those [calculate_summary] fills ([total_tokens: i64], [total_cost: f64],
    [len() as i32], [count() as i32], [f64] values, and the collected
    [HashSet]s). *)
Record DataSummary := mkDataSummary {
  ds_total_tokens : Z;
  ds_total_cost : spec_float;
  ds_total_days : Z;
  ds_active_days : Z;
  ds_average_per_day : spec_float;
  ds_max_cost_in_single_day : spec_float;
  ds_sources : list string;
  ds_models : list string }.

(** The [for c in contributions { for s in &c.sources { ... } }] loop
    filling [sources_set] and [models_set]. *)
Definition summary_sets (contributions : list DailyContribution) : gset string * gset string :=
  foldl (fun '(sources_set, models_set) c =>
           foldl (fun '(sources_set, models_set) s =>
                    ({[sc_source s]} ∪ sources_set, {[sc_model_id s]} ∪ models_set))
                 (sources_set, models_set) (dc_sources c))
        (∅, ∅) contributions.

(** [calculate_summary]. [Iterator::sum] on [i64] folds [+] from [0]
    (wrapping in a release build), on [f64] it folds [+] from [-0.0];
    [count() as i32] and [len() as i32] truncate to 32 bits; a [HashSet]
    collected into a [Vec] gives its elements once each, in the set's
    order. *)
Definition calculate_summary (contributions : list DailyContribution) : DataSummary :=
  let total_tokens :=
    foldl (fun a c => wrap64 (a + totals_tokens (dc_totals c))) 0 contributions in
  let total_cost := foldl (fun a c => F64.add a (day_cost c)) (S754_zero true) contributions in
  let active_days :=
    wrap32 (Z.of_nat (length (List.filter (fun c => F64.gt (day_cost c) F64.zero) contributions))) in
  let max_cost := foldl (fun a c => F64.fmax a (day_cost c)) F64.zero contributions in
  let '(sources_set, models_set) := summary_sets contributions in
  mkDataSummary total_tokens total_cost (wrap32 (Z.of_nat (length contributions))) active_days
    (if Z.ltb 0 active_days then F64.div total_cost (F64.of_Z active_days) else F64.zero)
    max_cost (elements sources_set) (elements models_set).

(** Modelled from the source's use: [GraphMeta] and [GraphResult] are
    declared in the crate root; their fields are those
    [generate_graph_result] fills. *)
Record GraphMeta := mkGraphMeta {
  generated_at : string;
  version : string;
  date_range_start : string;
  date_range_end : string;
  processing_time_ms : Z }.

Record GraphResult := mkGraphResult {
  gr_meta : GraphMeta;
  gr_summary : DataSummary;
  gr_years : list YearSummary;
  gr_contributions : list DailyContribution }.

(** [generate_graph_result]; [chrono::Utc::now().to_rfc3339()] and
    [env!("CARGO_PKG_VERSION")] are the arguments [now] and [pkg_version].
    [None] when [calculate_years] panics. *)
Definition generate_graph_result (now pkg_version : string)
    (contributions : list DailyContribution) (processing_time_ms : Z) : option GraphResult :=
  let summary := calculate_summary contributions in
  match calculate_years contributions with
  | None => None
  | Some years =>
      let date_range_start :=
        match head contributions with Some c => dc_date c | None => EmptyString end in
      let date_range_end :=
        match last contributions with Some c => dc_date c | None => EmptyString end in
      Some (mkGraphResult
              (mkGraphMeta now pkg_version date_range_start date_range_end processing_time_ms)
              summary years contributions)
  end.

(** Sum of an integer measure over a list. *)
Definition zsum {A} (h : A -> Z) (l : list A) : Z := fold_right (fun x acc => h x + acc) 0 l.

(** Field-wise exact sum of the breakdowns of a list of buckets. *)
Definition tb_sum_buckets (bs : list IntervalBucket) : TokenBreakdown :=
  fold_right (fun b acc => tb_plus (token_breakdown b) acc) tb_default bs.

Definition gap_buckets : list IntervalBucket :=
  match aggregate_by_interval 10 gap_split 1000 with Some bs => bs | None => [] end.

(** Consecutive contributions with strictly increasing dates. *)
Definition date_lt (c1 c2 : DailyContribution) : Prop := String.ltb (dc_date c1) (dc_date c2) = true.

(** The body of the [for c in contributions] loop on the year's entry. *)
Definition ya_add (entry : YearAccumulator) (c : DailyContribution) : YearAccumulator :=
  mkYearAccumulator (wrap64 (ya_tokens entry + totals_tokens (dc_totals c)))
    (F64.add (ya_cost entry) (totals_cost (dc_totals c)))
    (if String.eqb (ya_start entry) "" || String.ltb (dc_date c) (ya_start entry)
     then dc_date c else ya_start entry)
    (if String.eqb (ya_end entry) "" || String.ltb (ya_end entry) (dc_date c)
     then dc_date c else ya_end entry).

(** The contributions whose year key ([&c.date[0..4]]) is [y]. *)
Definition in_year (y : string) (c : DailyContribution) : bool :=
  bool_decide (str_prefix_slice (dc_date c) 4 = Some y).

(** The entry left under a year key after the loop body ran on [l]. *)
Definition ya_after (e : option YearAccumulator) (l : list DailyContribution)
  : option YearAccumulator :=
  match l with
  | [] => e
  | _ => Some (foldl ya_add (match e with Some a => a | None => ya_default end) l)
  end.

Definition year_lt (a b : YearSummary) : Prop := String.ltb (ys_year a) (ys_year b) = true.

Definition year_summary_of (ya : string * YearAccumulator) : YearSummary :=
  let '(year, acc) := ya in
  mkYearSummary year (ya_tokens acc) (ya_cost acc) (ya_start acc) (ya_end acc).

(** The messages of a list with source key [k]. *)
Definition key_msgs (k : string) (l : list UnifiedMessage) : list UnifiedMessage :=
  List.filter (fun m => String.eqb (source_key m) k) l.

(** The messages of a list dated [d]. *)
Definition date_msgs (d : string) (l : list UnifiedMessage) : list UnifiedMessage :=
  List.filter (fun m => String.eqb (date m) d) l.

(** A source entry under key [k] holds the clamped sums over the messages
    of [l] with that key, and the labels of one of them. *)
Definition src_inv (k : string) (sc : SourceContribution) (l : list UnifiedMessage) : Prop :=
  sc_tokens sc = tb_clamp (tb_sum (key_msgs k l)) /\
  sc_messages sc = Z.min i32_max (Z.of_nat (length (key_msgs k l))) /\
  exists m, In m (key_msgs k l) /\ source m = sc_source sc /\ model_id m = sc_model_id sc /\
            provider_id m = sc_provider_id sc.

(** A day accumulator holding the clamped sums over the messages [l]. *)
Definition day_inv (acc : DayAccumulator) (l : list UnifiedMessage) : Prop :=
  day_token_breakdown acc = tb_clamp (tb_sum l) /\
  totals_tokens (day_totals acc) = Z.min i64_max (raw_total_sum l) /\
  totals_messages (day_totals acc) = Z.min i32_max (Z.of_nat (length l)) /\
  (forall k, day_sources acc !! k = None -> key_msgs k l = []) /\
  (forall k sc, day_sources acc !! k = Some sc -> src_inv k sc l).

Definition date_inv (M : gmap string DayAccumulator) (l : list UnifiedMessage) : Prop :=
  (forall d acc, M !! d = Some acc -> day_inv acc (date_msgs d l)) /\
  (forall d, M !! d = None -> date_msgs d l = []).

Definition date_merge_step (a : gmap string DayAccumulator) (kv : string * DayAccumulator)
  : gmap string DayAccumulator :=
  let '(d, acc) := kv in
  let e := match a !! d with Some x => x | None => day_default end in
  <[d := day_merge e acc]> a.

Definition src_message (src model d : string) (i o : Z) : UnifiedMessage :=
  mkUnifiedMessage src model "test-provider" "test-session" 0 d (mkTokenBreakdown i o 0 0 0)
    F64.zero.

Definition sources_partition : Partition :=
  PNode (PLeaf [src_message "claude" "sonnet" "2024-01-01" 100 50;
                src_message "codex" "gpt" "2024-01-01" 10 5])
        (PLeaf [src_message "claude" "sonnet" "2024-01-01" 7 3;
                src_message "claude" "sonnet" "2023-12-31" 1 1]).

Definition days_contributions : list DailyContribution := aggregate_by_date days_partition.

Definition sources_contributions : list DailyContribution := aggregate_by_date sources_partition.

Definition sources_years : list YearSummary :=
  match calculate_years sources_contributions with Some ys => ys | None => [] end.

Definition sources_graph : GraphResult :=
  match generate_graph_result "2026-01-01T00:00:00Z" "1.0.0" sources_contributions 5 with
  | Some g => g
  | None => mkGraphResult (mkGraphMeta "" "" "" "" 0) (calculate_summary []) [] []
  end.

Definition first_source_day : DailyContribution :=
  hd (date_contribution "") (aggregate_by_date sources_partition).

Definition first_source_year : YearSummary :=
  hd (mkYearSummary "" 0 F64.zero "" "") sources_years.

(* ##################################################################### *)
(** * Proofs *)
(* ##################################################################### *)

(** ** Saturating and wrapping arithmetic *)

Lemma saturating_add_clamped (x y : Z) :
  0 <= x -> 0 <= y ->
  saturating_add (Z.min i64_max x) (Z.min i64_max y) = Z.min i64_max (x + y).
Proof. unfold saturating_add, i64_max, i64_min. lia. Qed.

Lemma saturating_add32_clamped (x y : Z) :
  0 <= x -> 0 <= y ->
  saturating_add32 (Z.min i32_max x) (Z.min i32_max y) = Z.min i32_max (x + y).
Proof. unfold saturating_add32, i32_max, i32_min. lia. Qed.

Lemma wrap32_add (a b : Z) : wrap32 (wrap32 a + wrap32 b) = wrap32 (a + b).
Proof.
  unfold wrap32.
  replace ((a + 2147483648) mod 4294967296 - 2147483648 +
           ((b + 2147483648) mod 4294967296 - 2147483648) + 2147483648)
    with ((a + 2147483648) mod 4294967296 + ((b + 2147483648) mod 4294967296 - 2147483648))
    by lia.
  rewrite Zplus_mod_idemp_l.
  replace (a + 2147483648 + ((b + 2147483648) mod 4294967296 - 2147483648))
    with ((b + 2147483648) mod 4294967296 + a) by lia.
  rewrite Zplus_mod_idemp_l.
  f_equal. f_equal. lia.
Qed.

Lemma wrap32_one : wrap32 1 = 1.
Proof. reflexivity. Qed.

Lemma msg_total_tokens_nonneg (t : TokenBreakdown) :
  0 <= input t -> 0 <= output t -> 0 <= cache_read t -> 0 <= cache_write t ->
  0 <= reasoning t -> msg_total_tokens t = Z.min i64_max (raw_total t).
Proof.
  intros. unfold msg_total_tokens, raw_total, saturating_add, i64_max, i64_min. lia.
Qed.

Lemma tb_saturating_add_clamped (a b : TokenBreakdown) :
  0 <= input a -> 0 <= output a -> 0 <= cache_read a -> 0 <= cache_write a ->
  0 <= reasoning a ->
  0 <= input b -> 0 <= output b -> 0 <= cache_read b -> 0 <= cache_write b ->
  0 <= reasoning b ->
  tb_saturating_add (tb_clamp a) (tb_clamp b) = tb_clamp (tb_plus a b).
Proof.
  intros. unfold tb_saturating_add, tb_clamp, tb_plus; simpl.
  rewrite !saturating_add_clamped by assumption. reflexivity.
Qed.

(** ** Closed forms of the accumulators' integer fields *)

Ltac tb_ext :=
  repeat match goal with t : TokenBreakdown |- _ => destruct t end;
  unfold tb_plus, tb_clamp, tb_default in *; simpl in *; f_equal; lia.

Lemma tb_plus_assoc (a b c : TokenBreakdown) :
  tb_plus (tb_plus a b) c = tb_plus a (tb_plus b c).
Proof. tb_ext. Qed.

Lemma tb_plus_default_r (a : TokenBreakdown) : tb_plus a tb_default = a.
Proof. tb_ext. Qed.

Lemma tb_plus_default_l (a : TokenBreakdown) : tb_plus tb_default a = a.
Proof. tb_ext. Qed.

Lemma tb_nonneg_plus (a b : TokenBreakdown) :
  tb_nonneg a -> tb_nonneg b -> tb_nonneg (tb_plus a b).
Proof. unfold tb_nonneg, tb_plus; simpl; lia. Qed.

Lemma tb_nonneg_default : tb_nonneg tb_default.
Proof. unfold tb_nonneg; simpl; lia. Qed.

Lemma tb_sum_nonneg (ms : list UnifiedMessage) :
  Forall msg_nonneg ms -> tb_nonneg (tb_sum ms).
Proof.
  induction 1 as [|m ms Hm _ IH]; simpl;
    [apply tb_nonneg_default | apply tb_nonneg_plus; [apply Hm | apply IH]].
Qed.

Lemma tb_sum_app (l1 l2 : list UnifiedMessage) :
  tb_sum (l1 ++ l2) = tb_plus (tb_sum l1) (tb_sum l2).
Proof.
  induction l1 as [|m l1 IH]; simpl.
  - destruct (tb_sum l2); reflexivity.
  - rewrite IH, tb_plus_assoc. reflexivity.
Qed.

Lemma raw_total_sum_nonneg (ms : list UnifiedMessage) :
  Forall msg_nonneg ms -> 0 <= raw_total_sum ms.
Proof.
  induction 1 as [|m ms [Hm _] _ IH]; simpl; [lia|].
  unfold tb_nonneg, raw_total in *. lia.
Qed.

Lemma raw_total_sum_app (l1 l2 : list UnifiedMessage) :
  raw_total_sum (l1 ++ l2) = raw_total_sum l1 + raw_total_sum l2.
Proof. induction l1; simpl; lia. Qed.

Lemma tb_sum_perm (l1 l2 : list UnifiedMessage) :
  l1 ≡ₚ l2 -> tb_sum l1 = tb_sum l2.
Proof.
  induction 1; simpl; try congruence.
  rewrite <- !tb_plus_assoc. f_equal. tb_ext.
Qed.

Lemma raw_total_sum_perm (l1 l2 : list UnifiedMessage) :
  l1 ≡ₚ l2 -> raw_total_sum l1 = raw_total_sum l2.
Proof. induction 1; simpl; lia. Qed.

Lemma tb_clamp_le_max (t : TokenBreakdown) : tb_le_max t -> tb_clamp t = t.
Proof. unfold tb_le_max, tb_clamp; destruct t; simpl; intros; f_equal; lia. Qed.

Lemma raw_total_nonneg (t : TokenBreakdown) : tb_nonneg t -> 0 <= raw_total t.
Proof. unfold tb_nonneg, raw_total; lia. Qed.

(** One [add_message] step keeps the integer fields of a [DayAccumulator]
    at the clamped exact sums. *)
Lemma day_add_message_closed (acc : DayAccumulator) (m : UnifiedMessage)
    (X : TokenBreakdown) (T n : Z) :
  msg_nonneg m -> tb_nonneg X -> 0 <= T -> 0 <= n ->
  day_token_breakdown acc = tb_clamp X ->
  totals_tokens (day_totals acc) = Z.min i64_max T ->
  totals_messages (day_totals acc) = Z.min i32_max n ->
  day_token_breakdown (day_add_message acc m) = tb_clamp (tb_plus X (tokens m)) /\
  totals_tokens (day_totals (day_add_message acc m)) =
    Z.min i64_max (T + raw_total (tokens m)) /\
  totals_messages (day_totals (day_add_message acc m)) = Z.min i32_max (n + 1).
Proof.
  intros [Hnn Hle] HX HT Hn Htb Htok Hmsg. unfold day_add_message; simpl.
  rewrite Htb, Htok, Hmsg.
  pose proof (raw_total_nonneg _ Hnn).
  rewrite (msg_total_tokens_nonneg (tokens m)) by (unfold tb_nonneg in Hnn; lia).
  repeat split.
  - rewrite <- (tb_clamp_le_max (tokens m)) at 1 by assumption.
    destruct HX as (? & ? & ? & ? & ?); destruct Hnn as (? & ? & ? & ? & ?).
    apply tb_saturating_add_clamped; assumption.
  - apply saturating_add_clamped; lia.
  - change 1 with (Z.min i32_max 1) at 1. apply saturating_add32_clamped; lia.
Qed.

Lemma day_fold_closed (ms : list UnifiedMessage) (acc : DayAccumulator)
    (X : TokenBreakdown) (T n : Z) :
  Forall msg_nonneg ms -> tb_nonneg X -> 0 <= T -> 0 <= n ->
  day_token_breakdown acc = tb_clamp X ->
  totals_tokens (day_totals acc) = Z.min i64_max T ->
  totals_messages (day_totals acc) = Z.min i32_max n ->
  day_token_breakdown (foldl day_add_message acc ms) = tb_clamp (tb_plus X (tb_sum ms)) /\
  totals_tokens (day_totals (foldl day_add_message acc ms)) =
    Z.min i64_max (T + raw_total_sum ms) /\
  totals_messages (day_totals (foldl day_add_message acc ms)) =
    Z.min i32_max (n + Z.of_nat (length ms)).
Proof.
  revert acc X T n.
  induction ms as [|m ms IH]; intros acc X T n Hall HX HT Hn Htb Htok Hmsg; simpl.
  - rewrite tb_plus_default_r, Htok, Hmsg. repeat split; [assumption | f_equal; lia ..].
  - inversion Hall as [|? ? Hm Hms]; subst.
    pose proof (raw_total_nonneg _ (proj1 Hm)).
    destruct (day_add_message_closed acc m X T n) as (A & B & C); try assumption.
    destruct (IH (day_add_message acc m) (tb_plus X (tokens m))
                 (T + raw_total (tokens m)) (n + 1)) as (A' & B' & C'); try assumption.
    + apply tb_nonneg_plus; [assumption | exact (proj1 Hm)].
    + lia.
    + lia.
    + rewrite A', B', C', tb_plus_assoc. repeat split; f_equal; lia.
Qed.

Lemma iv_add_message_closed (acc : IntervalAccumulator) (m : UnifiedMessage)
    (X : TokenBreakdown) (n : Z) :
  msg_nonneg m -> tb_nonneg X ->
  iv_token_breakdown acc = tb_clamp X ->
  iv_messages acc = wrap32 n ->
  iv_token_breakdown (iv_add_message acc m) = tb_clamp (tb_plus X (tokens m)) /\
  iv_messages (iv_add_message acc m) = wrap32 (n + 1) /\
  iv_message_data (iv_add_message acc m) = iv_message_data acc ++ [iv_entry m].
Proof.
  intros [Hnn Hle] HX Htb Hmsg. unfold iv_add_message; simpl.
  rewrite Htb, Hmsg. repeat split.
  - rewrite <- (tb_clamp_le_max (tokens m)) at 1 by assumption.
    destruct HX as (? & ? & ? & ? & ?); destruct Hnn as (? & ? & ? & ? & ?).
    apply tb_saturating_add_clamped; assumption.
  - rewrite <- wrap32_one at 1. apply wrap32_add.
Qed.

Lemma iv_fold_closed (ms : list UnifiedMessage) (acc : IntervalAccumulator)
    (X : TokenBreakdown) (n : Z) :
  Forall msg_nonneg ms -> tb_nonneg X ->
  iv_token_breakdown acc = tb_clamp X ->
  iv_messages acc = wrap32 n ->
  iv_token_breakdown (foldl iv_add_message acc ms) = tb_clamp (tb_plus X (tb_sum ms)) /\
  iv_messages (foldl iv_add_message acc ms) = wrap32 (n + Z.of_nat (length ms)) /\
  iv_message_data (foldl iv_add_message acc ms) = iv_message_data acc ++ map iv_entry ms.
Proof.
  revert acc X n.
  induction ms as [|m ms IH]; intros acc X n Hall HX Htb Hmsg; simpl.
  - rewrite tb_plus_default_r, Hmsg, app_nil_r. repeat split; [assumption | f_equal; lia].
  - inversion Hall as [|? ? Hm Hms]; subst.
    destruct (iv_add_message_closed acc m X n) as (A & B & C); try assumption.
    destruct (IH (iv_add_message acc m) (tb_plus X (tokens m)) (n + 1))
      as (A' & B' & C'); try assumption.
    + apply tb_nonneg_plus; [assumption | exact (proj1 Hm)].
    + rewrite A', B', C', C, tb_plus_assoc, <- app_assoc. repeat split; f_equal; lia.
Qed.

(** The integer fields of the result of any run of the parallel fold/reduce
    are the clamped (days) or wrapped (interval message count) exact sums
    over the messages the run covers. *)
Lemma day_reduce_closed (p : Partition) :
  Forall msg_nonneg (flatten p) ->
  day_token_breakdown (day_reduce p) = tb_clamp (tb_sum (flatten p)) /\
  totals_tokens (day_totals (day_reduce p)) = Z.min i64_max (raw_total_sum (flatten p)) /\
  totals_messages (day_totals (day_reduce p)) =
    Z.min i32_max (Z.of_nat (length (flatten p))).
Proof.
  induction p as [ms | l IHl r IHr]; simpl; intros Hall.
  - destruct (day_fold_closed ms day_default tb_default 0 0) as (A & B & C);
      try assumption; try apply tb_nonneg_default; try lia; try reflexivity.
    rewrite A, B, C, tb_plus_default_l. split; [reflexivity | split; lia].
  - apply Forall_app in Hall as [Hl Hr].
    destruct (IHl Hl) as (Al & Bl & Cl); destruct (IHr Hr) as (Ar & Br & Cr).
    pose proof (tb_sum_nonneg _ Hl) as Nl; pose proof (tb_sum_nonneg _ Hr) as Nr.
    pose proof (raw_total_sum_nonneg _ Hl); pose proof (raw_total_sum_nonneg _ Hr).
    unfold day_merge; simpl.
    rewrite Al, Bl, Cl, Ar, Br, Cr, tb_sum_app, raw_total_sum_app, length_app.
    destruct Nl as (? & ? & ? & ? & ?); destruct Nr as (? & ? & ? & ? & ?).
    repeat split.
    + apply tb_saturating_add_clamped; assumption.
    + apply saturating_add_clamped; assumption.
    + rewrite saturating_add32_clamped by lia. f_equal; lia.
Qed.

Lemma iv_reduce_closed (p : Partition) :
  Forall msg_nonneg (flatten p) ->
  iv_token_breakdown (iv_reduce p) = tb_clamp (tb_sum (flatten p)) /\
  iv_messages (iv_reduce p) = wrap32 (Z.of_nat (length (flatten p))) /\
  iv_message_data (iv_reduce p) = map iv_entry (flatten p).
Proof.
  induction p as [ms | l IHl r IHr]; simpl; intros Hall.
  - destruct (iv_fold_closed ms iv_default tb_default 0) as (A & B & C);
      try assumption; try apply tb_nonneg_default; try reflexivity.
    rewrite A, B, C, tb_plus_default_l. split; [reflexivity | split; reflexivity].
  - apply Forall_app in Hall as [Hl Hr].
    destruct (IHl Hl) as (Al & Bl & Cl); destruct (IHr Hr) as (Ar & Br & Cr).
    pose proof (tb_sum_nonneg _ Hl) as Nl; pose proof (tb_sum_nonneg _ Hr) as Nr.
    unfold iv_merge; simpl.
    rewrite Al, Bl, Cl, Ar, Br, Cr, tb_sum_app, length_app, map_app.
    destruct Nl as (? & ? & ? & ? & ?); destruct Nr as (? & ? & ? & ? & ?).
    repeat split.
    + apply tb_saturating_add_clamped; assumption.
    + rewrite wrap32_add. f_equal; lia.
Qed.

Lemma msg_nonneg_cost_message (c : spec_float) : msg_nonneg (cost_message c).
Proof. unfold msg_nonneg, tb_nonneg, tb_le_max, i64_max; simpl; lia. Qed.

(** ** C1: merge and partitions *)

(** C1 (counterexample): splitting the messages costing 0.1, 0.2 and 0.3
    into the groups [0.1] and [0.2, 0.3] and merging gives another
    floating-point cost than folding them in one group, for a
    [DayAccumulator] as for an [IntervalAccumulator]: the cost total is
    not independent of the partition. *)
Lemma C1_cost_depends_on_partition :
  flatten one_group = flatten two_groups /\
  totals_cost (day_totals (day_reduce one_group)) <>
    totals_cost (day_totals (day_reduce two_groups)) /\
  iv_cost (iv_reduce one_group) <> iv_cost (iv_reduce two_groups).
Proof.
  split; [reflexivity|].
  split; vm_compute; congruence.
Qed.

(** C1 (amended): for messages with non-negative token counts, any two
    runs of the parallel fold/merge over the same messages (any number of
    groups, any boundaries, any reduction order) give the same token
    breakdown, token total and message count, in a [DayAccumulator] and in
    an [IntervalAccumulator], whose retained (timestamp, tokens) pairs are
    the same up to order. *)
Theorem C1_integer_totals_partition_invariant (p1 p2 : Partition) :
  Forall msg_nonneg (flatten p1) ->
  flatten p1 ≡ₚ flatten p2 ->
  day_token_breakdown (day_reduce p1) = day_token_breakdown (day_reduce p2) /\
  totals_tokens (day_totals (day_reduce p1)) = totals_tokens (day_totals (day_reduce p2)) /\
  totals_messages (day_totals (day_reduce p1)) =
    totals_messages (day_totals (day_reduce p2)) /\
  iv_token_breakdown (iv_reduce p1) = iv_token_breakdown (iv_reduce p2) /\
  iv_messages (iv_reduce p1) = iv_messages (iv_reduce p2) /\
  iv_message_data (iv_reduce p1) ≡ₚ iv_message_data (iv_reduce p2).
Proof.
  intros H1 Hp.
  assert (H2 : Forall msg_nonneg (flatten p2)) by (rewrite <- Hp; exact H1).
  destruct (day_reduce_closed p1 H1) as (A1 & B1 & C1).
  destruct (day_reduce_closed p2 H2) as (A2 & B2 & C2).
  destruct (iv_reduce_closed p1 H1) as (D1 & E1 & F1).
  destruct (iv_reduce_closed p2 H2) as (D2 & E2 & F2).
  rewrite A1, A2, B1, B2, C1, C2, D1, D2, E1, E2, F1, F2.
  rewrite (tb_sum_perm _ _ Hp), (raw_total_sum_perm _ _ Hp), (Permutation_length Hp).
  repeat split; try reflexivity.
  now apply Permutation_map.
Qed.

Lemma C1_integer_totals_partition_invariant_witness :
  (Forall msg_nonneg (flatten one_group) /\ flatten one_group ≡ₚ flatten two_groups) /\
  (day_token_breakdown (day_reduce one_group) = day_token_breakdown (day_reduce two_groups) /\
  totals_tokens (day_totals (day_reduce one_group)) =
    totals_tokens (day_totals (day_reduce two_groups)) /\
  totals_messages (day_totals (day_reduce one_group)) =
    totals_messages (day_totals (day_reduce two_groups)) /\
  iv_token_breakdown (iv_reduce one_group) = iv_token_breakdown (iv_reduce two_groups) /\
  iv_messages (iv_reduce one_group) = iv_messages (iv_reduce two_groups) /\
  iv_message_data (iv_reduce one_group) ≡ₚ iv_message_data (iv_reduce two_groups)).
Proof.
  assert (H : Forall msg_nonneg (flatten one_group)).
  { repeat constructor; apply msg_nonneg_cost_message. }
  assert (Hp : flatten one_group ≡ₚ flatten two_groups) by reflexivity.
  split; [split; assumption|].
  exact (C1_integer_totals_partition_invariant one_group two_groups H Hp).
Defined.

(** ** Interval bucketing *)

Lemma trunc_bucket_bounds (w ts : Z) :
  0 < w -> i64_min <= ts <= i64_max ->
  i64_min <= trunc_bucket w ts <= i64_max /\
  (0 <= ts -> 0 <= trunc_bucket w ts <= ts) /\
  (ts < 0 -> ts <= trunc_bucket w ts <= 0).
Proof.
  intros Hw Hts. unfold trunc_bucket.
  pose proof (Z.quot_rem' ts w) as Hqr.
  destruct (Z.le_gt_cases 0 ts) as [Hpos | Hneg].
  - pose proof (Z.rem_bound_pos ts w Hpos Hw).
    pose proof (Z.quot_pos ts w Hpos Hw).
    assert (0 <= Z.quot ts w * w) by nia.
    unfold i64_min, i64_max in *. repeat split; lia.
  - assert (Z.rem ts w <= 0) by (apply Z.rem_nonpos; lia).
    pose proof (Z.rem_bound_abs ts w ltac:(lia)).
    assert (Z.quot ts w <= 0).
    { rewrite <- (Z.opp_involutive ts), Z.quot_opp_l by lia.
      pose proof (Z.quot_pos (- ts) w ltac:(lia) Hw). lia. }
    assert (Z.quot ts w * w <= 0) by nia.
    unfold i64_min, i64_max in *. repeat split; lia.
Qed.

Lemma wrap64_id (z : Z) : i64_min <= z <= i64_max -> wrap64 z = z.
Proof.
  unfold wrap64, i64_min, i64_max. intros.
  rewrite Z.mod_small by lia. lia.
Qed.

Lemma bucket_start_trunc (w ts : Z) :
  0 < w <= i64_max -> i64_min <= ts <= i64_max ->
  bucket_start ts w = Some (trunc_bucket w ts).
Proof.
  intros Hw Hts. unfold bucket_start, div_i64.
  destruct (Z.eqb_spec w 0); [lia|].
  destruct (Z.eqb_spec ts i64_min), (Z.eqb_spec w (-1)); simpl; try lia.
  all: f_equal; apply wrap64_id, trunc_bucket_bounds; lia.
Qed.

Lemma trunc_bucket_nonneg (w ts : Z) :
  0 < w -> 0 <= ts -> trunc_bucket w ts = floor_bucket w ts.
Proof.
  intros. unfold trunc_bucket, floor_bucket. rewrite Z.quot_div_nonneg by lia.
  reflexivity.
Qed.

Lemma trunc_bucket_mono (w a b : Z) :
  0 < w -> a <= b -> trunc_bucket w a <= trunc_bucket w b.
Proof.
  intros. unfold trunc_bucket. apply Z.mul_le_mono_nonneg_r; [lia|].
  apply Z.quot_le_mono; lia.
Qed.

Lemma min_max_ts_gen (ms : list UnifiedMessage) (mn mx : Z) :
  let r := foldl (fun '(mn, mx) m => (Z.min mn (timestamp m), Z.max mx (timestamp m)))
             (mn, mx) ms in
  fst r <= mn /\ (forall m, In m ms -> fst r <= timestamp m) /\
  (fst r = mn \/ exists m, In m ms /\ fst r = timestamp m) /\
  mx <= snd r /\ (forall m, In m ms -> timestamp m <= snd r) /\
  (snd r = mx \/ exists m, In m ms /\ snd r = timestamp m).
Proof.
  revert mn mx. induction ms as [|m ms IH]; intros mn mx; simpl.
  - repeat split; try lia; try (intros ? []); left; reflexivity.
  - destruct (IH (Z.min mn (timestamp m)) (Z.max mx (timestamp m)))
      as (A1 & A2 & A3 & B1 & B2 & B3).
    repeat split.
    + lia.
    + intros m' [<- | Hin]; [lia | auto].
    + destruct A3 as [-> | (m' & Hin & ->)].
      * destruct (Z.min_spec mn (timestamp m)) as [[_ ->] | [_ ->]];
          [left; reflexivity | right; exists m; auto].
      * right; exists m'; auto.
    + lia.
    + intros m' [<- | Hin]; [lia | auto].
    + destruct B3 as [-> | (m' & Hin & ->)].
      * destruct (Z.max_spec mx (timestamp m)) as [[_ ->] | [_ ->]];
          [right; exists m; auto | left; reflexivity].
      * right; exists m'; auto.
Qed.

(** For a non-empty list of [i64] timestamps the fold yields the least and
    the greatest timestamp. *)
Lemma min_max_ts_spec (ms : list UnifiedMessage) :
  ms <> [] -> Forall ts_valid ms ->
  (forall m, In m ms -> fst (min_max_ts ms) <= timestamp m) /\
  (exists m, In m ms /\ fst (min_max_ts ms) = timestamp m) /\
  (forall m, In m ms -> timestamp m <= snd (min_max_ts ms)) /\
  (exists m, In m ms /\ snd (min_max_ts ms) = timestamp m).
Proof.
  intros Hne Hv. unfold min_max_ts.
  destruct (min_max_ts_gen ms i64_max i64_min) as (A1 & A2 & A3 & B1 & B2 & B3).
  destruct ms as [|m0 ms']; [congruence|].
  assert (H0 : ts_valid m0) by (inversion Hv; assumption).
  unfold ts_valid in H0.
  repeat split; try assumption.
  - destruct A3 as [Heq | Hex]; [|exact Hex].
    exists m0; split; [left; reflexivity|].
    specialize (A2 m0 (or_introl eq_refl)). lia.
  - destruct B3 as [Heq | Hex]; [|exact Hex].
    exists m0; split; [left; reflexivity|].
    specialize (B2 m0 (or_introl eq_refl)). lia.
Qed.

Lemma bucket_fold_spec (w : Z) (ms : list UnifiedMessage) (acc : gmap Z IntervalAccumulator) :
  0 < w <= i64_max -> Forall ts_valid ms ->
  exists M, bucket_fold w acc ms = Some M /\
    forall k, M !! k = acc_after (acc !! k) (msgs_in_bucket w k ms).
Proof.
  intros Hw. revert acc.
  induction ms as [|m ms IH]; intros acc Hv; simpl.
  - exists acc; split; [reflexivity | intros k; reflexivity].
  - inversion Hv as [|? ? Hm Hms]; subst.
    rewrite bucket_start_trunc by assumption.
    destruct (IH (<[trunc_bucket w (timestamp m) :=
                   iv_add_message (match acc !! trunc_bucket w (timestamp m) with
                                   | Some a => a | None => iv_default end) m]> acc) Hms)
      as (M & HM & Hk).
    exists M; split; [exact HM|]. intros k. rewrite Hk.
    unfold msgs_in_bucket; simpl.
    destruct (Z.eqb_spec (trunc_bucket w (timestamp m)) k) as [<- | Hne].
    + rewrite lookup_insert_eq.
      destruct (List.filter _ ms); reflexivity.
    + rewrite lookup_insert_ne by assumption. reflexivity.
Qed.

(** The [while] loop from [current] pushes the [n] buckets at
    [current, current + w, ...] when [n] steps reach past [last_bucket]
    and no addition overflows. *)
Lemma fill_buckets_spec (M : gmap Z IntervalAccumulator) (last w : Z) (n : nat) :
  0 < w -> last + w <= i64_max ->
  forall current fuel, (n < fuel)%nat -> i64_min <= current ->
  last < current + Z.of_nat n * w -> current + Z.of_nat n * w <= last + w ->
  fill_buckets fuel M current last w =
    Some (map (fun s => bucket_at M s w) (bucket_starts current w n)).
Proof.
  intros Hw Hlast. induction n as [|n IH]; intros current fuel Hfuel Hmin H1 H2.
  - destruct fuel as [|fuel]; [lia|]. simpl.
    destruct (Z.leb_spec current last); [lia | reflexivity].
  - destruct fuel as [|fuel]; [lia|]. simpl.
    destruct (Z.leb_spec current last); [|lia].
    rewrite wrap64_id by (unfold i64_min, i64_max in *; lia).
    rewrite (IH (current + w) fuel); [reflexivity | lia | lia | lia | lia].
Qed.

Lemma bucket_starts_length (s w : Z) (n : nat) : length (bucket_starts s w n) = n.
Proof. revert s; induction n; simpl; auto. Qed.

Lemma bucket_starts_nth (s w : Z) (n k : nat) :
  (k < n)%nat -> nth k (bucket_starts s w n) 0 = s + Z.of_nat k * w.
Proof.
  revert s k; induction n as [|n IH]; intros s k Hk; [lia|].
  destruct k as [|k]; simpl; [lia|].
  rewrite IH by lia. lia.
Qed.

(** The min/max fold from [(mn, mx)] is the fold from any start, combined
    with [(mn, mx)] at the end. *)
Lemma min_max_ts_start (ms : list UnifiedMessage) (a b c d : Z) :
  foldl (fun '(mn, mx) m => (Z.min mn (timestamp m), Z.max mx (timestamp m)))
    (Z.min a c, Z.max b d) ms =
  let '(x, y) := foldl (fun '(mn, mx) m => (Z.min mn (timestamp m), Z.max mx (timestamp m)))
                   (c, d) ms in (Z.min a x, Z.max b y).
Proof.
  revert c d. induction ms as [|m ms IH]; intros c d; cbn [foldl]; [reflexivity|].
  rewrite <- Z.min_assoc, <- Z.max_assoc. apply IH.
Qed.

Lemma min_max_ts_app (l1 l2 : list UnifiedMessage) :
  min_max_ts (l1 ++ l2) =
  let '(min1, max1) := min_max_ts l1 in
  let '(min2, max2) := min_max_ts l2 in
  (Z.min min1 min2, Z.max max1 max2).
Proof.
  unfold min_max_ts. rewrite foldl_app.
  destruct (min_max_ts_gen l1 i64_max i64_min) as (A1 & _ & _ & B1 & _ & _).
  destruct (foldl _ (i64_max, i64_min) l1) as [a b] eqn:E. cbn [fst snd] in A1, B1.
  replace (a, b) with (Z.min a i64_max, Z.max b i64_min) by (f_equal; lia).
  rewrite min_max_ts_start. reflexivity.
Qed.

(** The min/max pass gives the same pair for every split. *)
Lemma min_max_reduce_flatten (p : Partition) : min_max_reduce p = min_max_ts (flatten p).
Proof.
  induction p as [ms | l IHl r IHr]; cbn [min_max_reduce flatten]; [reflexivity|].
  rewrite IHl, IHr, min_max_ts_app. reflexivity.
Qed.

Lemma msgs_in_bucket_app (w k : Z) (l1 l2 : list UnifiedMessage) :
  msgs_in_bucket w k (l1 ++ l2) = msgs_in_bucket w k l1 ++ msgs_in_bucket w k l2.
Proof. unfold msgs_in_bucket. apply List.filter_app. Qed.

Lemma iv_fold_messages (ms : list UnifiedMessage) (acc : IntervalAccumulator) (n : Z) :
  iv_messages acc = wrap32 n ->
  iv_messages (foldl iv_add_message acc ms) = wrap32 (n + Z.of_nat (length ms)) /\
  iv_message_data (foldl iv_add_message acc ms) = iv_message_data acc ++ map iv_entry ms.
Proof.
  revert acc n. induction ms as [|m ms IH]; intros acc n Hn; simpl.
  - rewrite Hn, app_nil_r. split; [f_equal; lia | reflexivity].
  - destruct (IH (iv_add_message acc m) (n + 1)) as [A B].
    + simpl. rewrite Hn, <- wrap32_one at 1. rewrite wrap32_add. reflexivity.
    + rewrite A, B. simpl. rewrite <- app_assoc. split; [f_equal; lia | reflexivity].
Qed.

Lemma calculate_rate_stats_none (acc : IntervalAccumulator) (w : Z) :
  calculate_rate_stats acc w = None <-> iv_message_data acc = [].
Proof.
  unfold calculate_rate_stats. destruct (iv_message_data acc) as [|x l]; [tauto|].
  split; [|discriminate]. destruct (Nat.eqb _ _); [discriminate|].
  destruct (rate_loop _ _ _); discriminate.
Qed.

Lemma acc_holds_default : acc_holds iv_default [].
Proof. unfold acc_holds. split; [reflexivity | split; [reflexivity | intros _; reflexivity]]. Qed.

(** A worker's accumulator for one start holds the messages it folded. *)
Lemma acc_holds_fold (l : list UnifiedMessage) :
  acc_holds (foldl iv_add_message iv_default l) l.
Proof.
  destruct (iv_fold_messages l iv_default 0 eq_refl) as [A B].
  split; [rewrite A; f_equal; lia|]. split; [exact B|].
  intros Hnn.
  destruct (iv_fold_closed l iv_default tb_default 0 Hnn tb_nonneg_default eq_refl eq_refl)
    as (T & _).
  rewrite T, tb_plus_default_l. reflexivity.
Qed.

(** [IntervalAccumulator::merge] of accumulators holding [l1] and [l2]
    holds [l1 ++ l2]. *)
Lemma acc_holds_merge (x y : IntervalAccumulator) (l1 l2 : list UnifiedMessage) :
  acc_holds x l1 -> acc_holds y l2 -> acc_holds (iv_merge x y) (l1 ++ l2).
Proof.
  intros (X1 & X2 & X3) (Y1 & Y2 & Y3).
  unfold acc_holds, iv_merge; cbn [iv_messages iv_message_data iv_token_breakdown].
  rewrite X1, Y1, X2, Y2, wrap32_add, length_app, map_app.
  split; [f_equal; lia|]. split; [reflexivity|].
  intros Hall. pose proof Hall as Hall'. apply Forall_app in Hall' as [Hl Hr].
  rewrite X3, Y3, tb_sum_app by assumption.
  destruct (tb_sum_nonneg _ Hl) as (? & ? & ? & ? & ?).
  destruct (tb_sum_nonneg _ Hr) as (? & ? & ? & ? & ?).
  apply tb_saturating_add_clamped; assumption.
Qed.

Lemma entry_holds_default (o : option IntervalAccumulator) (l : list UnifiedMessage) :
  entry_holds o l -> acc_holds (match o with Some x => x | None => iv_default end) l.
Proof.
  destruct o as [acc|]; cbn [entry_holds].
  - intros [_ H]; exact H.
  - intros ->; apply acc_holds_default.
Qed.

Lemma acc_after_holds (l : list UnifiedMessage) : entry_holds (acc_after None l) l.
Proof.
  destruct l as [|m l]; [reflexivity|]. unfold acc_after, entry_holds.
  split; [discriminate | apply acc_holds_fold].
Qed.

Lemma bucket_merge_fold (L : list (Z * IntervalAccumulator)) :
  NoDup (map fst L) ->
  forall (A : gmap Z IntervalAccumulator) k,
  (~ In k (map fst L) -> foldl bucket_merge_step A L !! k = A !! k) /\
  (forall acc, In (k, acc) L ->
   foldl bucket_merge_step A L !! k =
   Some (iv_merge (match A !! k with Some x => x | None => iv_default end) acc)).
Proof.
  induction L as [|[k' acc'] L IH]; intros Hnd A k; cbn [foldl map fst In].
  - split; [reflexivity | intros _ []].
  - apply NoDup_cons in Hnd as [Hk' Hnd].
    assert (Hk'' : ~ In k' (map fst L)) by (intros H; apply Hk', list_elem_of_In, H).
    destruct (IH Hnd (bucket_merge_step A (k', acc')) k) as [IH1 IH2].
    split.
    + intros Hk. rewrite IH1 by tauto. unfold bucket_merge_step.
      rewrite lookup_insert_ne; [reflexivity|]. intros ->. tauto.
    + intros acc [E | Hin].
      * injection E as <- <-. rewrite IH1 by exact Hk''. unfold bucket_merge_step.
        rewrite lookup_insert_eq. reflexivity.
      * assert (Hne : k' <> k).
        { intros <-. apply Hk''. apply in_map_iff. exists (k', acc). auto. }
        rewrite (IH2 acc Hin). unfold bucket_merge_step.
        rewrite lookup_insert_ne by exact Hne. reflexivity.
Qed.

(** The [reduce] closure leaves [a]'s entry where [b] has none, and merges
    [b]'s entry into [a]'s (or the default) where it has one. *)
Lemma bucket_merge_lookup (a b : gmap Z IntervalAccumulator) (k : Z) :
  bucket_merge a b !! k =
  match b !! k with
  | None => a !! k
  | Some acc => Some (iv_merge (match a !! k with Some x => x | None => iv_default end) acc)
  end.
Proof.
  unfold bucket_merge.
  destruct (bucket_merge_fold (map_to_list b) (NoDup_fst_map_to_list _) a k) as [F1 F2].
  destruct (b !! k) as [acc|] eqn:E.
  - apply F2. apply list_elem_of_In, elem_of_map_to_list, E.
  - apply F1. rewrite in_map_iff. intros ([k' acc] & <- & Hin).
    apply list_elem_of_In, elem_of_map_to_list in Hin. simpl in *. congruence.
Qed.

(** For a positive [i64] width and [i64] timestamps, every run of the
    parallel fold/reduce yields a [bucket_map] whose entry under each start
    holds exactly the messages with that truncated start, in input order. *)
Lemma bucket_reduce_spec (w : Z) (p : Partition) :
  0 < w <= i64_max -> Forall ts_valid (flatten p) ->
  exists M, bucket_reduce w p = Some M /\
    forall k, entry_holds (M !! k) (msgs_in_bucket w k (flatten p)).
Proof.
  intros Hw. induction p as [ms | l IHl r IHr]; intros Hv; cbn [bucket_reduce flatten] in *.
  - destruct (bucket_fold_spec w ms ∅ Hw Hv) as (M & HM & Hk).
    exists M; split; [exact HM|]. intros k. rewrite Hk, lookup_empty. apply acc_after_holds.
  - apply Forall_app in Hv as [Hl Hr].
    destruct (IHl Hl) as (A & -> & HA); destruct (IHr Hr) as (B & -> & HB).
    eexists; split; [reflexivity|]. intros k.
    rewrite bucket_merge_lookup, msgs_in_bucket_app.
    specialize (HA k); specialize (HB k).
    destruct (B !! k) as [y|]; cbn [entry_holds] in HB |- *.
    + destruct HB as [Hne Hy]. split.
      * intros E. apply app_eq_nil in E as [_ E]. contradiction.
      * apply acc_holds_merge; [apply entry_holds_default; exact HA | exact Hy].
    + rewrite HB, app_nil_r. exact HA.
Qed.

(** The bucket the [while] loop pushes for a start whose entry holds [l]. *)
Lemma bucket_at_holds (M : gmap Z IntervalAccumulator) (w s : Z) (l : list UnifiedMessage) :
  entry_holds (M !! s) l ->
  start_ms (bucket_at M s w) = s /\
  messages (bucket_at M s w) = wrap32 (Z.of_nat (length l)) /\
  (rate_stats (bucket_at M s w) = None <-> l = []) /\
  (l = [] -> bucket_at M s w = empty_bucket s w) /\
  (Forall msg_nonneg l -> token_breakdown (bucket_at M s w) = tb_clamp (tb_sum l)).
Proof.
  unfold bucket_at. destruct (M !! s) as [acc|]; cbn [entry_holds].
  - intros [Hne (H1 & H2 & H3)]. unfold into_bucket.
    cbn [start_ms messages rate_stats token_breakdown].
    split; [reflexivity|]. split; [exact H1|]. split.
    + rewrite calculate_rate_stats_none, H2. destruct l; [contradiction|]. split; discriminate.
    + split; [intros E; contradiction | exact H3].
  - intros ->. split; [reflexivity|]. split; [reflexivity|]. split; [tauto|].
    split; [reflexivity | intros _; reflexivity].
Qed.

(** When the [while] loop returns, it has pushed the buckets at
    [c, c + w, ...] up to the last start not above [l]. *)
Lemma fill_buckets_some (M : gmap Z IntervalAccumulator) (l w : Z) :
  0 < w -> l + w <= i64_max ->
  forall fuel c bs, i64_min <= c ->
  fill_buckets fuel M c l w = Some bs ->
  exists n, bs = map (fun s => bucket_at M s w) (bucket_starts c w n) /\
    l < c + Z.of_nat n * w /\ (n = O \/ c + (Z.of_nat n - 1) * w <= l).
Proof.
  intros Hw Hl. induction fuel as [|fuel IH]; intros c bs Hc H; simpl in H; [discriminate|].
  destruct (Z.leb_spec c l).
  - rewrite wrap64_id in H by (unfold i64_min, i64_max in *; lia).
    destruct (fill_buckets fuel M (c + w) l w) as [bs'|] eqn:E; [|discriminate].
    injection H as <-.
    destruct (IH (c + w) bs' ltac:(lia) E) as (n & -> & H1 & H2).
    exists (S n). split; [reflexivity|]. split; [lia|]. right.
    destruct H2 as [-> | H2]; lia.
  - injection H as <-. exists O. split; [reflexivity|]. split; [lia | left; reflexivity].
Qed.

Lemma fill_buckets_in (M : gmap Z IntervalAccumulator) (l w : Z) :
  forall fuel c bs, fill_buckets fuel M c l w = Some bs ->
  forall b, In b bs -> exists s, b = bucket_at M s w.
Proof.
  induction fuel as [|fuel IH]; intros c bs H b Hb; simpl in H; [discriminate|].
  destruct (Z.leb c l).
  - destruct (fill_buckets fuel M (wrap64 (c + w)) l w) as [bs'|] eqn:E; [|discriminate].
    injection H as <-. destruct Hb as [<- | Hb]; [eauto|]. exact (IH _ _ E b Hb).
  - injection H as <-. destruct Hb.
Qed.

(** The output of [aggregate_by_interval] on any split of the messages for
    a positive [i64] width, when the end of the last bucket fits in an
    [i64] and the loop is given enough iterations. *)
Lemma aggregate_by_interval_shape (fuel : nat) (p : Partition) (w : Z) :
  flatten p <> [] -> Forall ts_valid (flatten p) -> 0 < w <= i64_max ->
  trunc_bucket w (snd (min_max_ts (flatten p))) + w <= i64_max ->
  (bucket_span (trunc_bucket w (fst (min_max_ts (flatten p))))
               (trunc_bucket w (snd (min_max_ts (flatten p)))) w < fuel)%nat ->
  exists M, bucket_reduce w p = Some M /\
    (forall k, entry_holds (M !! k) (msgs_in_bucket w k (flatten p))) /\
    aggregate_by_interval fuel p w =
      Some (map (fun s => bucket_at M s w)
             (bucket_starts (trunc_bucket w (fst (min_max_ts (flatten p)))) w
                (bucket_span (trunc_bucket w (fst (min_max_ts (flatten p))))
                             (trunc_bucket w (snd (min_max_ts (flatten p)))) w))).
Proof.
  intros Hne Hv Hw Hlast Hfuel.
  destruct (bucket_reduce_spec w p Hw Hv) as (M & HM & Hk).
  exists M; split; [exact HM|]; split; [exact Hk|].
  unfold aggregate_by_interval. rewrite min_max_reduce_flatten.
  set (ms := flatten p) in *. clearbody ms.
  destruct (min_max_ts_spec ms Hne Hv) as (Hmin & (m1 & Hin1 & E1) & Hmax & (m2 & Hin2 & E2)).
  assert (V1 : ts_valid m1) by (eapply List.Forall_forall; eauto).
  assert (V2 : ts_valid m2) by (eapply List.Forall_forall; eauto).
  unfold ts_valid in V1, V2.
  destruct ms as [|m0 ms']; [congruence|].
  assert (Hu : u64_as_i64 w = w) by (apply wrap64_id; unfold i64_min in *; lia).
  rewrite Hu.
  destruct (min_max_ts (m0 :: ms')) as [mn mx] eqn:Emm; simpl in *.
  rewrite (bucket_start_trunc w mn), (bucket_start_trunc w mx) by (subst; lia).
  pose proof (trunc_bucket_bounds w mn ltac:(lia) ltac:(subst; lia)) as (Bf & _).
  pose proof (trunc_bucket_bounds w mx ltac:(lia) ltac:(subst; lia)) as (Bl & _).
  assert (Hle : trunc_bucket w mn <= trunc_bucket w mx).
  { apply trunc_bucket_mono; [lia|]. specialize (Hmin m1 Hin1). specialize (Hmax m1 Hin1).
    lia. }
  unfold div_i64.
  destruct (Z.eqb_spec w 0); [lia|].
  destruct (Z.eqb_spec (wrap64 (trunc_bucket w mx - trunc_bucket w mn)) i64_min),
           (Z.eqb_spec w (-1)); try lia; simpl; rewrite HM.
  all: apply fill_buckets_spec; try lia; try exact Hfuel.
  all: unfold bucket_span; set (d := trunc_bucket w mx - trunc_bucket w mn) in *;
       assert (0 <= d) by lia;
       pose proof (Z.div_mod d w ltac:(lia)); pose proof (Z.mod_pos_bound d w ltac:(lia));
       assert (0 <= d / w) by (apply Z.div_pos; lia);
       rewrite Z2Nat.id by lia; nia.
Qed.

(** When [aggregate_by_interval] returns on a non-empty input, it returned
    the loop's output over the [bucket_map] of the split. *)
Lemma aggregate_by_interval_some (fuel : nat) (p : Partition) (w : Z)
    (bs : list IntervalBucket) :
  flatten p <> [] -> 0 < w <= i64_max -> Forall ts_valid (flatten p) ->
  aggregate_by_interval fuel p w = Some bs ->
  exists M, bucket_reduce w p = Some M /\
    fill_buckets fuel M (trunc_bucket w (fst (min_max_ts (flatten p))))
      (trunc_bucket w (snd (min_max_ts (flatten p)))) w = Some bs.
Proof.
  intros Hne Hw Hv H.
  unfold aggregate_by_interval in H. rewrite min_max_reduce_flatten in H.
  set (ms := flatten p) in *. clearbody ms.
  destruct (min_max_ts_spec ms Hne Hv) as (_ & (m1 & Hin1 & E1) & _ & (m2 & Hin2 & E2)).
  assert (V1 : ts_valid m1) by (eapply List.Forall_forall; eauto).
  assert (V2 : ts_valid m2) by (eapply List.Forall_forall; eauto).
  unfold ts_valid in V1, V2.
  destruct ms as [|m0 ms']; [congruence|].
  assert (Hu : u64_as_i64 w = w) by (apply wrap64_id; unfold i64_min in *; lia).
  rewrite Hu in H.
  destruct (min_max_ts (m0 :: ms')) as [mn mx] eqn:Emm; cbn [fst snd] in *.
  rewrite (bucket_start_trunc w mn), (bucket_start_trunc w mx) in H by (subst; lia).
  destruct (div_i64 _ _); [|discriminate].
  destruct (bucket_reduce w p) as [M|]; [|discriminate].
  exists M; split; [reflexivity | exact H].
Qed.

(** The buckets of [aggregate_by_interval] on a non-empty input are those
    at a run of starts [c, c + w, ..., c + (n - 1) w] from the truncated
    start of the least timestamp, past the greatest one's. *)
Lemma aggregate_by_interval_starts (fuel : nat) (p : Partition) (w : Z)
    (bs : list IntervalBucket) :
  flatten p <> [] -> 0 < w <= i64_max -> Forall ts_valid (flatten p) ->
  (forall m, In m (flatten p) -> trunc_bucket w (timestamp m) + w <= i64_max) ->
  aggregate_by_interval fuel p w = Some bs ->
  exists M n, (forall k, entry_holds (M !! k) (msgs_in_bucket w k (flatten p))) /\
    bs = map (fun s => bucket_at M s w)
           (bucket_starts (trunc_bucket w (fst (min_max_ts (flatten p)))) w n) /\
    trunc_bucket w (snd (min_max_ts (flatten p))) <
      trunc_bucket w (fst (min_max_ts (flatten p))) + Z.of_nat n * w /\
    (n = O \/ trunc_bucket w (fst (min_max_ts (flatten p))) + (Z.of_nat n - 1) * w <=
              trunc_bucket w (snd (min_max_ts (flatten p)))).
Proof.
  intros Hne Hw Hv Hend H.
  destruct (aggregate_by_interval_some fuel p w bs Hne Hw Hv H) as (M & HM & Hf).
  destruct (bucket_reduce_spec w p Hw Hv) as (M' & HM' & Hk).
  rewrite HM in HM'. injection HM' as <-.
  destruct (min_max_ts_spec _ Hne Hv) as (_ & (m1 & Hin1 & E1) & _ & (m2 & Hin2 & E2)).
  assert (V1 : ts_valid m1) by (eapply List.Forall_forall; eauto).
  unfold ts_valid in V1.
  assert (Hc : i64_min <= trunc_bucket w (fst (min_max_ts (flatten p)))).
  { rewrite E1. apply (trunc_bucket_bounds w (timestamp m1)); lia. }
  assert (Hl : trunc_bucket w (snd (min_max_ts (flatten p))) + w <= i64_max)
    by (rewrite E2; apply Hend; exact Hin2).
  destruct (fill_buckets_some M _ w ltac:(lia) Hl fuel _ bs Hc Hf) as (n & -> & Hn1 & Hn2).
  exists M, n. split; [exact Hk|]. split; [reflexivity|]. split; assumption.
Qed.



Lemma bucket_starts_In (s w : Z) (n k : nat) :
  (k < n)%nat -> In (s + Z.of_nat k * w) (bucket_starts s w n).
Proof.
  revert s k; induction n as [|n IH]; intros s k Hk; [lia|].
  destruct k as [|k]; simpl; [left; lia|].
  right. replace (s + Z.of_nat (S k) * w) with (s + w + Z.of_nat k * w) by lia.
  apply IH; lia.
Qed.

Lemma bucket_starts_In_inv (s w : Z) (n : nat) (x : Z) :
  In x (bucket_starts s w n) -> exists k, (k < n)%nat /\ x = s + Z.of_nat k * w.
Proof.
  revert s; induction n as [|n IH]; intros s Hin; simpl in Hin; [contradiction|].
  destruct Hin as [<- | Hin].
  - exists O; split; lia.
  - destruct (IH (s + w) Hin) as (k & Hk & ->). exists (S k); split; lia.
Qed.

Lemma bucket_starts_hd (s w : Z) (n : nat) :
  (0 < n)%nat -> hd_error (bucket_starts s w n) = Some s.
Proof. destruct n; [lia | reflexivity]. Qed.

Lemma bucket_starts_last (s w : Z) (n : nat) :
  (0 < n)%nat -> last (bucket_starts s w n) = Some (s + (Z.of_nat n - 1) * w).
Proof.
  revert s; induction n as [|n IH]; intros s Hn; [lia|].
  destruct n as [|n]; [simpl; f_equal; lia|].
  change (last (s :: bucket_starts (s + w) w (S n)) = Some (s + (Z.of_nat (S (S n)) - 1) * w)).
  rewrite last_cons, IH by lia. simpl. f_equal; lia.
Qed.

Lemma trunc_bucket_diff_mod (w a b : Z) :
  0 < w -> (trunc_bucket w a - trunc_bucket w b) mod w = 0.
Proof.
  intros. unfold trunc_bucket. rewrite <- Z.mul_sub_distr_r. apply Z.mod_mul; lia.
Qed.


(** ** C2: bucket boundaries *)

(** C2 (counterexample): with an interval of 1000 ms, a message one
    millisecond before the epoch is put, for every split of the input, in
    the bucket [[0, 1000)], the only bucket of the output, which does not
    contain its timestamp; the floor-aligned start of that timestamp is
    -1000. *)
Lemma C2_negative_timestamp_rounds_toward_zero :
  floor_bucket 1000 (-1) = -1000 /\
  forall p, flatten p = [test_message (-1) 100 50 F64.zero] ->
    exists bs, aggregate_by_interval 2 p 1000 = Some bs /\
      map start_ms bs = [0] /\ map end_ms bs = [1000] /\ map messages bs = [1].
Proof.
  split; [reflexivity|].
  intros p Hp.
  assert (Hv : Forall ts_valid (flatten p))
    by (rewrite Hp; repeat constructor; unfold ts_valid, i64_min, i64_max; simpl; lia).
  destruct (aggregate_by_interval_shape 2 p 1000) as (M & _ & Hk & Hagg);
    [rewrite Hp; discriminate | exact Hv | unfold i64_max; lia
    | rewrite Hp; apply Z.leb_le; reflexivity | rewrite Hp; apply Nat.ltb_lt; reflexivity |].
  assert (Es : bucket_starts (trunc_bucket 1000 (fst (min_max_ts (flatten p)))) 1000
                 (bucket_span (trunc_bucket 1000 (fst (min_max_ts (flatten p))))
                    (trunc_bucket 1000 (snd (min_max_ts (flatten p)))) 1000) = [0])
    by (rewrite Hp; reflexivity).
  rewrite Es in Hagg. cbn [map] in Hagg.
  eexists; split; [exact Hagg|]. cbn [map].
  destruct (bucket_at_holds M 1000 0 _ (Hk 0)) as (S1 & S2 & _).
  rewrite S1, S2, Hp. split; [reflexivity|]. split; [|reflexivity].
  unfold bucket_at. destruct (M !! 0); reflexivity.
Qed.

(** ** C3: gap filling *)


Lemma gap_split_valid : Forall ts_valid (flatten gap_split).
Proof. simpl. repeat constructor; unfold ts_valid, i64_min, i64_max; simpl; lia. Qed.




(** ** C4: the cost formula *)




(** ** C8: model name normalization *)

Lemma prefix_refl (s : string) : String.prefix s s = true.
Proof. induction s as [|c s IH]; simpl; [reflexivity|]. now destruct (ascii_dec c c). Qed.

Lemma starts_with_contains (s p : string) : starts_with s p = true -> contains s p = true.
Proof. unfold starts_with. intros H. destruct s; cbn [contains]; rewrite H; reflexivity. Qed.

Lemma starts_with_or_eqb (s p : string) :
  starts_with s p || String.eqb s p = starts_with s p.
Proof.
  destruct (String.eqb_spec s p) as [->|]; [|apply orb_false_r].
  unfold starts_with. rewrite prefix_refl. reflexivity.
Qed.

Lemma starts_with_or_contains (s p : string) :
  starts_with s p || contains s p = contains s p.
Proof.
  destruct (starts_with s p) eqn:E; [|reflexivity].
  rewrite (starts_with_contains s p E). reflexivity.
Qed.

(** C8 (counterexample): [claude-3-5-sonnet-20241022] contains [sonnet]
    and the marker [3-5] but normalizes to [sonnet-4], the [4] of its date
    taking precedence over [3-5] (the source's comment maps
    [claude-X-{model}] to [{model}-X], here [sonnet-3-5]);
    [claude-3-5-haiku-20241022] contains [haiku] and [3-5] but normalizes
    to nothing. *)
Lemma C8_date_digit_wins :
  contains (to_lowercase sonnet_id) "sonnet" = true /\
  contains (to_lowercase sonnet_id) "3-5" = true /\
  normalize_cursor_model_name sonnet_id = Some "sonnet-4"%string /\
  contains (to_lowercase "claude-3-5-haiku-20241022") "haiku" = true /\
  contains (to_lowercase "claude-3-5-haiku-20241022") "3-5" = true /\
  normalize_cursor_model_name "claude-3-5-haiku-20241022" = None.
Proof. repeat split; vm_compute; reflexivity. Qed.

(** X22: normalization lower-cases the id and applies the first
    rule of [claude_rules] whose family token and one of whose markers
    the id contains, the markers being tested anywhere in the id (so a
    [4] in a date selects version 4): opus with 4.5/4-5, then opus with
    4; sonnet with 4.5/4-5, 4, 3.7/3-7, 3.5/3-5 in that order; haiku only
    with 4.5/4-5. With no such rule it tries [o3] (exact), a [gpt-4o]
    prefix, [gpt-4.1], [gemini-2.5-pro] and [gemini-2.5-flash]
    (contained); an id matching none of these normalizes to nothing. *)
Theorem normalize_rule_table (model_id : string) :
  normalize_cursor_model_name model_id =
    match first_claude_rule (to_lowercase model_id) claude_rules with
    | Some canonical => Some canonical
    | None => other_rules (to_lowercase model_id)
    end.
Proof.
  unfold normalize_cursor_model_name, other_rules.
  set (lower := to_lowercase model_id).
  rewrite starts_with_or_eqb, starts_with_or_contains.
  simpl first_claude_rule.
  rewrite !orb_false_r.
  destruct (contains lower "opus"), (contains lower "sonnet"), (contains lower "haiku"),
    (contains lower "4.5"), (contains lower "4-5"), (contains lower "4");
    simpl; try reflexivity;
  destruct (contains lower "3.7"), (contains lower "3-7"), (contains lower "3.5"),
    (contains lower "3-5"); simpl; reflexivity.
Qed.

(** ** C9: unresolved pricing *)

(** C9: for every catalog, every model id that no step of [get_pricing]
    resolves costs [0.0] for all token counts (no error and no panic);
    and in the catalog holding only
    [anthropic/claude-3-5-sonnet-20241022], the bare id
    [claude-3-5-sonnet-20241022] has no exact entry and resolves, via the
    [anthropic/] prefix, to that entry. *)
Theorem C9_unresolved_costs_zero :
  (forall (models : PricingData) (model_id : string)
          (input output cache_read cache_write reasoning : Z),
     get_pricing models model_id = None ->
     calculate_cost models model_id input output cache_read cache_write reasoning = F64.zero) /\
  prefixed_catalog !! sonnet_id = None /\
  lookup_prefixed prefixed_catalog prefixes sonnet_id = Some test_pricing /\
  get_pricing prefixed_catalog sonnet_id = Some test_pricing.
Proof.
  split.
  - intros models model_id input output cache_read cache_write reasoning H.
    unfold calculate_cost. rewrite H. reflexivity.
  - split; [|split]; vm_compute; reflexivity.
Qed.

Lemma C9_unresolved_costs_zero_witness :
  get_pricing ∅ "unknown-model" = None /\
  calculate_cost ∅ "unknown-model" 1000 500 2000 100 0 = F64.zero.
Proof.
  assert (H : get_pricing ∅ "unknown-model" = None) by (vm_compute; reflexivity).
  split; [exact H|].
  exact (proj1 C9_unresolved_costs_zero ∅ "unknown-model" 1000 500 2000 100 0 H).
Defined.

(** ** C5: [cost_micros] *)

(** C5 (counterexample): a bucket holding one message of cost [2^-19]
    has [cost * 1e6 = 1.9073486328125] exactly, which rounds to [2], but
    its [cost_micros] is [1]: the conversion truncates. *)
Lemma C5_cost_micros_truncates_not_rounds :
  F64.mul cost_2_pow_m19 f64_1e6 = S754_finite false 8589934592000000 (-52) /\
  round_half_away (F64.mul cost_2_pow_m19 f64_1e6) = 2 /\
  exists bs,
    aggregate_by_interval 2 (PLeaf [test_message 0 1 1 cost_2_pow_m19]) 1000 = Some bs /\
    map cost_micros bs = [1].
Proof.
  split; [vm_compute; reflexivity|]. split; [vm_compute; reflexivity|].
  remember (aggregate_by_interval 2 (PLeaf [test_message 0 1 1 cost_2_pow_m19]) 1000)
    as r eqn:E.
  vm_compute in E. subst r. eexists; split; [reflexivity|]. vm_compute; reflexivity.
Qed.

(** C5 (amended): a bucket's [cost_micros] is its accumulated cost times
    [1e6] (one [f64] product [x]) converted by [as i64]: [0] for a zero or
    NaN product, [i64::MIN] or [i64::MAX] for an infinite one, and for a
    finite [x = (-1)^s * m * 2^e] the integer part [t] of [|x|] (the
    integer with [t <= m * 2^e < t + 1]) with the sign of [x], saturated at
    the [i64] bounds: truncation toward zero, not rounding. *)
Theorem C5_cost_micros_truncation (acc : IntervalAccumulator) (start w : Z) :
  let n := cost_micros (into_bucket acc start w) in
  match F64.mul (iv_cost acc) f64_1e6 with
  | S754_nan => n = 0
  | S754_zero _ => n = 0
  | S754_infinity s => n = if s then i64_min else i64_max
  | S754_finite s m e =>
      exists t, 0 <= t /\
        t * 2 ^ (Z.max 0 (- e)) <= Z.pos m * 2 ^ (Z.max 0 e) <
          (t + 1) * 2 ^ (Z.max 0 (- e)) /\
        n = if s then Z.max i64_min (- t) else Z.min i64_max t
  end.
Proof.
  intros n. unfold n, into_bucket, F64.to_i64; cbn [cost_micros].
  destruct (F64.mul (iv_cost acc) f64_1e6) as [s | s | | s m e]; try reflexivity.
  assert (P1 : 0 < 2 ^ Z.max 0 (- e)) by (apply Z.pow_pos_nonneg; lia).
  assert (P2 : 0 < 2 ^ Z.max 0 e) by (apply Z.pow_pos_nonneg; lia).
  assert (Hmag : exists mag, (if Z.leb 0 e then Z.pos m * 2 ^ e
                              else Z.shiftr (Z.pos m) (- e)) = mag /\ 0 <= mag /\
                 mag * 2 ^ Z.max 0 (- e) <= Z.pos m * 2 ^ Z.max 0 e <
                   (mag + 1) * 2 ^ Z.max 0 (- e)).
  { destruct (Z.leb_spec 0 e).
    - rewrite (Z.max_r 0 e), (Z.max_l 0 (- e)) in * by lia.
      rewrite Z.pow_0_r in *.
      exists (Z.pos m * 2 ^ e). split; [reflexivity|]. rewrite !Z.mul_1_r. lia.
    - rewrite (Z.max_l 0 e), (Z.max_r 0 (- e)) in * by lia.
      rewrite Z.pow_0_r in *.
      rewrite Z.shiftr_div_pow2 by lia.
      exists (Z.pos m / 2 ^ (- e)). split; [reflexivity|]. rewrite Z.mul_1_r.
      pose proof (Z.div_mod (Z.pos m) (2 ^ (- e)) ltac:(lia)).
      pose proof (Z.mod_pos_bound (Z.pos m) (2 ^ (- e)) P1).
      assert (0 <= Z.pos m / 2 ^ (- e)) by (apply Z.div_pos; lia).
      split; [lia | nia]. }
  destruct Hmag as (mag & -> & Hpos & Hr).
  exists mag. split; [exact Hpos|]. split; [exact Hr|].
  unfold i64_min, i64_max in *. destruct s.
  - rewrite (Z.min_r _ (- mag)) by lia. reflexivity.
  - rewrite (Z.max_r _ (Z.min _ mag)) by lia. reflexivity.
Qed.

(** ** The order of [f64] values *)

(** A key ordering the non-NaN [spec_float]s lexicographically as
    [SFcompare] does. *)
Definition fkey (x : spec_float) : Z * Z * Z :=
  match x with
  | S754_zero _ | S754_nan => (0, 0, 0)
  | S754_infinity s => (if s then -3 else 3, 0, 0)
  | S754_finite s m e => if s then (-2, - e, - Z.pos m) else (2, e, Z.pos m)
  end.

Definition lexcmp (k1 k2 : Z * Z * Z) : comparison :=
  let '(a1, b1, c1) := k1 in
  let '(a2, b2, c2) := k2 in
  match Z.compare a1 a2 with
  | Eq => match Z.compare b1 b2 with Eq => Z.compare c1 c2 | r => r end
  | r => r
  end.

Definition lexlt (k1 k2 : Z * Z * Z) : Prop :=
  let '(a1, b1, c1) := k1 in
  let '(a2, b2, c2) := k2 in
  a1 < a2 \/ (a1 = a2 /\ (b1 < b2 \/ (b1 = b2 /\ c1 < c2))).

Lemma SFcompare_fkey (x y : spec_float) :
  x <> S754_nan -> y <> S754_nan -> SFcompare x y = Some (lexcmp (fkey x) (fkey y)).
Proof.
  intros Hx Hy.
  destruct x as [s1|s1| |s1 m1 e1], y as [s2|s2| |s2 m2 e2]; try congruence;
    try destruct s1; try destruct s2; simpl; try reflexivity.
  rewrite Z.compare_opp, (Z.compare_antisym e1 e2).
  destruct (e1 ?= e2)%Z; reflexivity.
Qed.

Lemma lexcmp_lt (k1 k2 : Z * Z * Z) : lexcmp k1 k2 = Lt <-> lexlt k1 k2.
Proof.
  destruct k1 as [[a1 b1] c1], k2 as [[a2 b2] c2]; simpl.
  destruct (Z.compare_spec a1 a2); [|split; [lia|reflexivity]|split; [discriminate|lia]].
  destruct (Z.compare_spec b1 b2); [|split; [lia|reflexivity]|split; [discriminate|lia]].
  destruct (Z.compare_spec c1 c2); split; (discriminate || lia || reflexivity).
Qed.

Lemma lexcmp_eq (k1 k2 : Z * Z * Z) : lexcmp k1 k2 = Eq <-> k1 = k2.
Proof.
  destruct k1 as [[a1 b1] c1], k2 as [[a2 b2] c2]; simpl.
  destruct (Z.compare_spec a1 a2), (Z.compare_spec b1 b2), (Z.compare_spec c1 c2);
    subst; split; intros Hk; try reflexivity; try discriminate; injection Hk; lia.
Qed.

Lemma lexcmp_gt (k1 k2 : Z * Z * Z) : lexcmp k1 k2 = Gt <-> lexlt k2 k1.
Proof.
  destruct k1 as [[a1 b1] c1], k2 as [[a2 b2] c2]; simpl.
  destruct (Z.compare_spec a1 a2); [|split; [discriminate|lia]|split; [lia|reflexivity]].
  destruct (Z.compare_spec b1 b2); [|split; [discriminate|lia]|split; [lia|reflexivity]].
  destruct (Z.compare_spec c1 c2); split; (discriminate || lia || reflexivity).
Qed.

Lemma f64_quarter_eq : f64_quarter = S754_finite false 4503599627370496 (-54).
Proof. vm_compute. reflexivity. Qed.
Lemma f64_half_eq : f64_half = S754_finite false 4503599627370496 (-53).
Proof. vm_compute. reflexivity. Qed.
Lemma f64_three_quarters_eq : f64_three_quarters = S754_finite false 6755399441055744 (-53).
Proof. vm_compute. reflexivity. Qed.

Definition lexltb (k1 k2 : Z * Z * Z) : bool :=
  let '(a1, b1, c1) := k1 in
  let '(a2, b2, c2) := k2 in
  (a1 <? a2) || ((a1 =? a2) && ((b1 <? b2) || ((b1 =? b2) && (c1 <? c2)))).

Lemma lexltb_spec (k1 k2 : Z * Z * Z) : lexltb k1 k2 = true <-> lexlt k1 k2.
Proof.
  destruct k1 as [[a1 b1] c1], k2 as [[a2 b2] c2]; simpl.
  split; intros; lia.
Qed.

Lemma lexltb_irrefl (k : Z * Z * Z) : lexltb k k = false.
Proof. destruct k as [[a b] c]; simpl. lia. Qed.

Lemma lexlt_asym (k1 k2 : Z * Z * Z) : lexlt k1 k2 -> lexltb k2 k1 = false.
Proof. destruct k1 as [[a1 b1] c1], k2 as [[a2 b2] c2]; simpl. lia. Qed.

Section FloatOrder.
Variables x y : spec_float.
Hypothesis Hx : x <> S754_nan.
Hypothesis Hy : y <> S754_nan.

Lemma lt_fkey : F64.lt x y = lexltb (fkey x) (fkey y).
Proof.
  unfold F64.lt. rewrite SFcompare_fkey by assumption.
  destruct (lexcmp _ _) eqn:E.
  - apply lexcmp_eq in E. rewrite E, lexltb_irrefl. reflexivity.
  - apply lexcmp_lt, lexltb_spec in E. rewrite E. reflexivity.
  - apply lexcmp_gt, lexlt_asym in E. rewrite E. reflexivity.
Qed.

Lemma ge_fkey : F64.ge x y = negb (lexltb (fkey x) (fkey y)).
Proof.
  unfold F64.ge. rewrite SFcompare_fkey by assumption.
  destruct (lexcmp _ _) eqn:E.
  - apply lexcmp_eq in E. rewrite E, lexltb_irrefl. reflexivity.
  - apply lexcmp_lt, lexltb_spec in E. rewrite E. reflexivity.
  - apply lexcmp_gt, lexlt_asym in E. rewrite E. reflexivity.
Qed.

Lemma gt_fkey : F64.gt x y = lexltb (fkey y) (fkey x).
Proof.
  unfold F64.gt. rewrite SFcompare_fkey by assumption.
  destruct (lexcmp _ _) eqn:E.
  - apply lexcmp_eq in E. rewrite E, lexltb_irrefl. reflexivity.
  - apply lexcmp_lt in E. rewrite (lexlt_asym _ _ E). reflexivity.
  - apply lexcmp_gt, lexltb_spec in E. rewrite E. reflexivity.
Qed.

Lemma le_fkey : F64.le x y = negb (lexltb (fkey y) (fkey x)).
Proof.
  unfold F64.le. rewrite SFcompare_fkey by assumption.
  destruct (lexcmp _ _) eqn:E.
  - apply lexcmp_eq in E. rewrite E, lexltb_irrefl. reflexivity.
  - apply lexcmp_lt in E. rewrite (lexlt_asym _ _ E). reflexivity.
  - apply lexcmp_gt, lexltb_spec in E. rewrite E. reflexivity.
Qed.

End FloatOrder.

Ltac if_cases :=
  repeat match goal with |- context [if ?b then _ else _] => destruct b eqn:? end.

(** How the [if] chain of [calculate_intensities] classifies a ratio. *)
Lemma intensity_of_ranges (r : spec_float) :
  (F64.gt r F64.zero = false -> intensity_of r = 0) /\
  (F64.gt r F64.zero = true -> F64.lt r f64_quarter = true -> intensity_of r = 1) /\
  (F64.ge r f64_quarter = true -> F64.lt r f64_half = true -> intensity_of r = 2) /\
  (F64.ge r f64_half = true -> F64.lt r f64_three_quarters = true -> intensity_of r = 3) /\
  (F64.ge r f64_three_quarters = true -> intensity_of r = 4).
Proof.
  assert (Hr : r = S754_nan \/ r <> S754_nan) by (destruct r; [right; discriminate..| left; reflexivity | right; discriminate]).
  destruct Hr as [-> | Hr].
  { vm_compute. repeat split; intros; (reflexivity || discriminate). }
  unfold intensity_of.
  rewrite !(ge_fkey r), !(gt_fkey r), !(lt_fkey r) by (assumption || discriminate).
  rewrite f64_quarter_eq, f64_half_eq, f64_three_quarters_eq.
  unfold F64.zero; simpl fkey.
  destruct (fkey r) as [[a b] c]. simpl lexltb.
  repeat split; intros; if_cases; lia.
Qed.

Lemma not_nan_is_nan (x : spec_float) : x <> S754_nan -> F64.is_nan x = false.
Proof. destruct x; simpl; congruence. Qed.

Lemma lt_not_nan (x y : spec_float) :
  F64.lt x y = true -> x <> S754_nan /\ y <> S754_nan.
Proof. intros H; split; intros ->; [discriminate | destruct x; discriminate]. Qed.

Lemma lt_irrefl (x : spec_float) : F64.lt x x = false.
Proof.
  destruct x as [s|s| |s m e]; try reflexivity.
  - destruct s; reflexivity.
  - rewrite lt_fkey by discriminate. apply lexltb_irrefl.
Qed.

Lemma fmax_cases (a x : spec_float) : F64.fmax a x = a \/ F64.fmax a x = x.
Proof.
  unfold F64.fmax. destruct (F64.is_nan a); [right; reflexivity|].
  destruct (F64.is_nan x); [left; reflexivity|].
  destruct (SFcompare a x) as [[]|]; auto.
Qed.

(** [f64::max(y, x)] is [y] when [x < y], and [f64::max(a, y)] is [y]
    when [a < y]. *)
Lemma fmax_lt_l (x y : spec_float) : F64.lt x y = true -> F64.fmax y x = y.
Proof.
  intros H. destruct (lt_not_nan x y H) as [Hx Hy].
  unfold F64.fmax. rewrite !not_nan_is_nan by assumption.
  rewrite lt_fkey in H by assumption. apply lexltb_spec, lexcmp_gt in H.
  rewrite SFcompare_fkey, H by assumption. reflexivity.
Qed.

Lemma fmax_lt_r (a y : spec_float) : F64.lt a y = true -> F64.fmax a y = y.
Proof.
  intros H. destruct (lt_not_nan a y H) as [Ha Hy].
  unfold F64.fmax. rewrite !not_nan_is_nan by assumption.
  unfold F64.lt in H. destruct (SFcompare a y) as [[]|]; congruence.
Qed.

(** The running [f64::max] from [acc] over the day costs reaches [M] when
    [M] is one of them and every other is below it. *)
Lemma fold_fmax_max (M : spec_float) (cs : list DailyContribution) :
  (forall x, In x (map day_cost cs) -> F64.lt x M = true \/ x = M) ->
  forall acc, (acc = M \/ F64.lt acc M = true) -> (acc = M \/ In M (map day_cost cs)) ->
  foldl (fun a c => F64.fmax a (day_cost c)) acc cs = M.
Proof.
  induction cs as [|c cs IH]; intros Hcs acc Hacc Hin; simpl in *.
  - destruct Hin; [assumption | contradiction].
  - apply IH; [intros; apply Hcs; right; assumption| |].
    + destruct (Hcs (day_cost c) (or_introl eq_refl)) as [Hx | Hx];
        destruct Hacc as [-> | Ha].
      * left. apply fmax_lt_l. exact Hx.
      * destruct (fmax_cases acc (day_cost c)) as [-> | ->]; right; assumption.
      * left. rewrite Hx. destruct (fmax_cases M M) as [-> | ->]; reflexivity.
      * left. rewrite Hx. apply fmax_lt_r. exact Ha.
    + destruct (Hcs (day_cost c) (or_introl eq_refl)) as [Hx | Hx];
        destruct Hacc as [-> | Ha].
      * left. apply fmax_lt_l. exact Hx.
      * destruct Hin as [-> | [Heq | Hin]]; [rewrite lt_irrefl in Ha; discriminate| |].
        -- rewrite Heq, lt_irrefl in Hx. discriminate.
        -- right; exact Hin.
      * left. rewrite Hx. destruct (fmax_cases M M) as [-> | ->]; reflexivity.
      * left. rewrite Hx. apply fmax_lt_r. exact Ha.
Qed.

(** The running [f64::max] from [0.0] stays [0.0] when no cost is
    positive. *)
Lemma fold_fmax_zero (cs : list DailyContribution) :
  (forall x, In x (map day_cost cs) -> F64.gt x F64.zero = false) ->
  foldl (fun a c => F64.fmax a (day_cost c)) F64.zero cs = F64.zero.
Proof.
  induction cs as [|c cs IH]; intros Hcs; simpl in *; [reflexivity|].
  replace (F64.fmax F64.zero (day_cost c)) with F64.zero.
  - apply IH. intros; apply Hcs; right; assumption.
  - specialize (Hcs (day_cost c) (or_introl eq_refl)).
    destruct (day_cost c) as [s|s| |s m e]; try destruct s; try discriminate; reflexivity.
Qed.

Lemma calculate_intensities_cost (cs : list DailyContribution) :
  map day_cost (calculate_intensities cs) = map day_cost cs.
Proof.
  unfold calculate_intensities. destruct (F64.eqb _ _); [reflexivity|].
  rewrite map_map. reflexivity.
Qed.

Lemma insert_by_date_In (c x : DailyContribution) (l : list DailyContribution) :
  In c (insert_by_date x l) -> c = x \/ In c l.
Proof.
  induction l as [|y l IH]; simpl; [intuition|].
  destruct (String.leb (dc_date y) (dc_date x)); simpl; intuition.
Qed.

Lemma sort_by_date_In (c : DailyContribution) (l : list DailyContribution) :
  In c (sort_by_date l) -> In c l.
Proof.
  unfold sort_by_date.
  assert (G : forall acc, In c (foldl (fun acc x => insert_by_date x acc) acc l) ->
                          In c acc \/ In c l).
  { induction l as [|x l IH]; intros acc H; simpl in *; [left; exact H|].
    destruct (IH (insert_by_date x acc) H) as [H1 | H1]; [|auto].
    destruct (insert_by_date_In c x acc H1); auto. }
  intros H. destruct (G [] H) as [[] | H1]. exact H1.
Qed.

(** ** C6: intensities *)

(** C6 (counterexample): a single day whose cost is [-1.0] (a negative
    cost, as [calculate_cost] returns on the [i64] overflow of C4) has
    [cost / max_cost = 1.0], in [[0.75, 1.0]], but intensity 0: the
    running maximum starts at [0.0], so [max_cost] is [0.0] and no
    intensity is computed. *)
Lemma C6_negative_max_cost :
  map day_cost (aggregate_by_date (PLeaf [day_message "2024-01-01" (F64.of_Z (-1))]))
    = [F64.of_Z (-1)] /\
  F64.div (F64.of_Z (-1)) (F64.of_Z (-1)) = f64_one /\
  F64.ge f64_one f64_three_quarters = true /\
  map dc_intensity (aggregate_by_date (PLeaf [day_message "2024-01-01" (F64.of_Z (-1))]))
    = [0].
Proof. repeat split; vm_compute; reflexivity. Qed.

(** C6 (amended): let [M] be a positive greatest day cost of the output
    of [aggregate_by_date] (every other day cost is below it, none is
    NaN). Each day's intensity is then the class of the [f64] ratio
    [r = cost / M]: 0 when the cost is exactly 0 and whenever [r] is not
    positive, 1 for [r] in [(0, 0.25)], 2 for [[0.25, 0.5)], 3 for
    [[0.5, 0.75)], 4 for [[0.75, 1.0]]. When no day has a positive cost
    (in particular when every cost is 0), every intensity stays 0 and
    nothing is divided. *)
Theorem C6_intensity_classes (p : Partition) :
  (forall M, F64.lt F64.zero M = true ->
     In M (map day_cost (aggregate_by_date p)) ->
     (forall x, In x (map day_cost (aggregate_by_date p)) -> F64.lt x M = true \/ x = M) ->
     forall c, In c (aggregate_by_date p) ->
       let r := F64.div (day_cost c) M in
       (F64.eqb (day_cost c) F64.zero = true -> dc_intensity c = 0) /\
       (F64.gt r F64.zero = false -> dc_intensity c = 0) /\
       (F64.gt r F64.zero = true -> F64.lt r f64_quarter = true -> dc_intensity c = 1) /\
       (F64.ge r f64_quarter = true -> F64.lt r f64_half = true -> dc_intensity c = 2) /\
       (F64.ge r f64_half = true -> F64.lt r f64_three_quarters = true ->
          dc_intensity c = 3) /\
       (F64.ge r f64_three_quarters = true -> F64.le r f64_one = true ->
          dc_intensity c = 4)) /\
  ((forall x, In x (map day_cost (aggregate_by_date p)) -> F64.gt x F64.zero = false) ->
   forall c, In c (aggregate_by_date p) -> dc_intensity c = 0).
Proof.
  unfold aggregate_by_date.
  destruct (flatten p) as [|m ms]; [split; [intros M _ [] | intros _ c []]|].
  set (sorted := sort_by_date _).
  rewrite !calculate_intensities_cost.
  split.
  - intros M HM Hin Hle c Hc.
    assert (Hmax : foldl (fun a c => F64.fmax a (day_cost c)) F64.zero sorted = M)
      by (apply fold_fmax_max; auto).
    destruct (lt_not_nan _ _ HM) as [_ HMn].
    assert (Hne : F64.eqb M F64.zero = false).
    { unfold F64.eqb. rewrite SFcompare_fkey by (assumption || discriminate).
      rewrite lt_fkey in HM by (assumption || discriminate).
      apply lexltb_spec, lexcmp_gt in HM. rewrite HM. reflexivity. }
    unfold calculate_intensities in Hc. rewrite Hmax, Hne in Hc.
    apply in_map_iff in Hc. destruct Hc as (c0 & <- & _).
    simpl dc_intensity.
    change (day_cost (set_intensity c0 _)) with (day_cost c0).
    pose proof (intensity_of_ranges (F64.div (day_cost c0) M)) as (R0 & R1 & R2 & R3 & R4).
    repeat split; intros; auto.
    apply R0.
    assert (Hz : exists s, day_cost c0 = S754_zero s).
    { destruct (day_cost c0) as [s|s| |s m' e]; try destruct s; try discriminate; eauto. }
    destruct Hz as [s ->].
    rewrite lt_fkey in HM by (assumption || discriminate).
    destruct M as [sM|sM| |sM mM eM]; try destruct sM; try discriminate; try contradiction;
      destruct s; reflexivity.
  - intros Hz c Hc.
    unfold calculate_intensities in Hc. rewrite fold_fmax_zero in Hc by exact Hz.
    change (F64.eqb F64.zero F64.zero) with true in Hc. cbv iota in Hc.
    apply sort_by_date_In, in_map_iff in Hc.
    destruct Hc as ([d acc] & <- & _). reflexivity.
Qed.

Lemma C6_intensity_classes_witness :
  (F64.lt F64.zero f64_one = true /\
   In f64_one (map day_cost (aggregate_by_date days_partition)) /\
   (forall x, In x (map day_cost (aggregate_by_date days_partition)) ->
      F64.lt x f64_one = true \/ x = f64_one)) /\
  (forall c, In c (aggregate_by_date days_partition) ->
     let r := F64.div (day_cost c) f64_one in
     (F64.eqb (day_cost c) F64.zero = true -> dc_intensity c = 0) /\
     (F64.gt r F64.zero = false -> dc_intensity c = 0) /\
     (F64.gt r F64.zero = true -> F64.lt r f64_quarter = true -> dc_intensity c = 1) /\
     (F64.ge r f64_quarter = true -> F64.lt r f64_half = true -> dc_intensity c = 2) /\
     (F64.ge r f64_half = true -> F64.lt r f64_three_quarters = true ->
        dc_intensity c = 3) /\
     (F64.ge r f64_three_quarters = true -> F64.le r f64_one = true ->
        dc_intensity c = 4)).
Proof.
  assert (H1 : F64.lt F64.zero f64_one = true) by (vm_compute; reflexivity).
  assert (H2 : In f64_one (map day_cost (aggregate_by_date days_partition)))
    by (vm_compute; auto).
  assert (H3 : forall x, In x (map day_cost (aggregate_by_date days_partition)) ->
                 F64.lt x f64_one = true \/ x = f64_one).
  { intros x Hx. vm_compute in Hx.
    repeat (destruct Hx as [<- | Hx]; [vm_compute; auto|]). destruct Hx. }
  split; [split; [exact H1 | split; assumption]|].
  exact (proj1 (C6_intensity_classes days_partition) f64_one H1 H2 H3).
Defined.

(** ** C10: the year slice *)

Lemma year_step_some (m : gmap string YearAccumulator) (c : DailyContribution) :
  (4 <= String.length (dc_date c))%nat -> is_char_boundary (dc_date c) 4 = true ->
  exists m', year_step m c = Some m'.
Proof.
  intros Hl Hb. unfold year_step, str_prefix_slice.
  rewrite Hb, andb_true_r. destruct (Nat.leb_spec 4 (String.length (dc_date c))); [|lia].
  eexists; reflexivity.
Qed.

Lemma year_step_short (m : gmap string YearAccumulator) (c : DailyContribution) :
  (String.length (dc_date c) < 4)%nat -> year_step m c = None.
Proof.
  intros Hl. unfold year_step, str_prefix_slice.
  destruct (Nat.leb_spec 4 (String.length (dc_date c))); [lia|reflexivity].
Qed.

Lemma year_loop_some (cs : list DailyContribution) :
  (forall c, In c cs ->
     (4 <= String.length (dc_date c))%nat /\ is_char_boundary (dc_date c) 4 = true) ->
  forall m, exists m', year_loop m cs = Some m'.
Proof.
  induction cs as [|c cs IH]; intros Hcs m; simpl; [eexists; reflexivity|].
  destruct (Hcs c (or_introl eq_refl)) as [Hl Hb].
  destruct (year_step_some m c Hl Hb) as [m1 ->].
  apply IH. intros; apply Hcs; right; assumption.
Qed.

Lemma year_loop_short (cs : list DailyContribution) (c : DailyContribution) :
  In c cs -> (String.length (dc_date c) < 4)%nat -> forall m, year_loop m cs = None.
Proof.
  induction cs as [|c0 cs IH]; intros Hin Hl m; simpl in *; [contradiction|].
  destruct Hin as [-> | Hin].
  - rewrite year_step_short by exact Hl. reflexivity.
  - destruct (year_step m c0); [|reflexivity]. apply IH; assumption.
Qed.

(** C10: [calculate_years] completes (returns its summaries) for every
    contribution list whose dates all have at least 4 bytes and a
    character boundary at byte 4, and panics (returns [None] here) as
    soon as one date is shorter than 4 bytes. *)
Theorem C10_year_slice_total (cs : list DailyContribution) :
  ((forall c, In c cs ->
      (4 <= String.length (dc_date c))%nat /\ is_char_boundary (dc_date c) 4 = true) ->
   exists ys, calculate_years cs = Some ys) /\
  (forall c, In c cs -> (String.length (dc_date c) < 4)%nat -> calculate_years cs = None).
Proof.
  split.
  - intros Hcs. unfold calculate_years.
    destruct (year_loop_some cs Hcs ∅) as [m ->]. eexists; reflexivity.
  - intros c Hin Hl. unfold calculate_years.
    rewrite (year_loop_short cs c Hin Hl). reflexivity.
Qed.

Lemma C10_year_slice_total_witness :
  ((forall c, In c (map date_contribution ["2024-01-01"; "2023-12-31"]%string) ->
      (4 <= String.length (dc_date c))%nat /\ is_char_boundary (dc_date c) 4 = true) /\
   In (date_contribution "202") (map date_contribution ["2024-01-01"; "202"]%string) /\
   (String.length (dc_date (date_contribution "202")) < 4)%nat) /\
  (exists ys, calculate_years (map date_contribution ["2024-01-01"; "2023-12-31"]%string)
                = Some ys) /\
  calculate_years (map date_contribution ["2024-01-01"; "202"]%string) = None.
Proof.
  assert (H1 : forall c, In c (map date_contribution ["2024-01-01"; "2023-12-31"]%string) ->
      (4 <= String.length (dc_date c))%nat /\ is_char_boundary (dc_date c) 4 = true).
  { intros c Hc. simpl in Hc.
    destruct Hc as [<- | [<- | []]]; split; (reflexivity || (simpl; lia)). }
  assert (H2 : In (date_contribution "202") (map date_contribution ["2024-01-01"; "202"]%string))
    by (right; left; reflexivity).
  assert (H3 : (String.length (dc_date (date_contribution "202")) < 4)%nat) by (simpl; lia).
  split; [split; [exact H1 | split; assumption]|].
  split.
  - exact (proj1 (C10_year_slice_total _) H1).
  - exact (proj2 (C10_year_slice_total _) _ H2 H3).
Defined.

(* ===================================================================== *)
(** ** C7: rate statistics *)
(* ===================================================================== *)

(** *** Digit counts and rounding of [SpecFloat] *)






















(** *** Sorting, the rate loop and the running extremes *)













(** [calculate_rate_stats] reads only the breakdown and the retained
    pairs of the accumulator. *)
Lemma calculate_rate_stats_fields (acc : IntervalAccumulator) (w : Z) :
  calculate_rate_stats acc w =
  calculate_rate_stats
    (mkIntervalAccumulator (iv_token_breakdown acc) 0 F64.zero (iv_message_data acc)) w.
Proof. destruct acc; reflexivity. Qed.

(** C7 (counterexample): one message with [input = i64::MAX] and
    [output = 1], each within [i64], lands in a bucket of width 60000 ms.
    The breakdown keeps both counts, but [calculate_rate_stats] sums them
    with plain [+], which wraps: for every split of the input, the bucket
    reports [avg = max = min = -2^63] tokens per minute, while the spec's
    average is [+2^63]. *)
Lemma C7_total_tokens_wraps :
  let acc := iv_add_message iv_default overflow_message in
  msg_nonneg overflow_message /\
  (forall p, flatten p = [overflow_message] ->
     exists bs, aggregate_by_interval 2 p 60000 = Some bs /\
       map rate_stats bs =
         [Some (mkRateStats (F64.of_Z i64_min) (F64.of_Z i64_min) (F64.of_Z i64_min))]) /\
  spec_rate_stats (iv_token_breakdown acc) (iv_message_data acc) 60000 =
    Some (mkRateStats (F64.of_Z (i64_max + 1)) (F64.of_Z (i64_max + 1))
            (F64.of_Z (i64_max + 1))) /\
  F64.lt (F64.of_Z i64_min) F64.zero = true.
Proof.
  cbv zeta.
  assert (Hnn : msg_nonneg overflow_message).
  { unfold msg_nonneg, tb_nonneg, tb_le_max, overflow_message, test_message, i64_max.
    simpl. lia. }
  split; [exact Hnn|].
  split; [|split; vm_compute; reflexivity].
  intros p Hp.
  assert (Hv : Forall ts_valid (flatten p))
    by (rewrite Hp; repeat constructor; unfold ts_valid, i64_min, i64_max; simpl; lia).
  destruct (aggregate_by_interval_shape 2 p 60000) as (M & _ & Hk & Hagg);
    [rewrite Hp; discriminate | exact Hv | unfold i64_max; lia
    | rewrite Hp; apply Z.leb_le; reflexivity | rewrite Hp; apply Nat.ltb_lt; reflexivity |].
  assert (Es : bucket_starts (trunc_bucket 60000 (fst (min_max_ts (flatten p)))) 60000
                 (bucket_span (trunc_bucket 60000 (fst (min_max_ts (flatten p))))
                    (trunc_bucket 60000 (snd (min_max_ts (flatten p)))) 60000) = [0])
    by (rewrite Hp; reflexivity).
  rewrite Es in Hagg. cbn [map] in Hagg.
  eexists; split; [exact Hagg|]. cbn [map].
  specialize (Hk 0). rewrite Hp in Hk.
  unfold bucket_at. destruct (M !! 0) as [a|]; cbn [entry_holds] in Hk.
  - destruct Hk as [_ (_ & H2 & H3)].
    unfold into_bucket; cbn [rate_stats].
    change (msgs_in_bucket 60000 0 [overflow_message]) with [overflow_message] in H2, H3.
    rewrite calculate_rate_stats_fields, H2, H3 by (constructor; [exact Hnn | constructor]).
    vm_compute; reflexivity.
  - vm_compute in Hk. discriminate.
Qed.



(* ===================================================================== *)
(** ** Further properties of the code *)
(* ===================================================================== *)

Lemma contains_empty (s : string) : contains s "" = true.
Proof. destruct s; reflexivity. Qed.

Lemma contains_of_prefix (s pat : string) : String.prefix pat s = true -> contains s pat = true.
Proof. intros H. destruct s; cbn [contains]; rewrite H; reflexivity. Qed.

Lemma contains_refl (s : string) : contains s s = true.
Proof. apply contains_of_prefix, prefix_refl. Qed.

Lemma contains_app_r (p s : string) : contains (p ++ s) s = true.
Proof.
  induction p as [|c p IH]; simpl; [apply contains_refl|].
  rewrite IH, orb_true_r. reflexivity.
Qed.

Lemma to_lowercase_app (a b : string) :
  to_lowercase (a ++ b) = (to_lowercase a ++ to_lowercase b)%string.
Proof. induction a as [|c a IH]; simpl; [reflexivity|]. rewrite IH. reflexivity. Qed.

Lemma ascii_to_lowercase_idem (c : ascii) :
  ascii_to_lowercase (ascii_to_lowercase c) = ascii_to_lowercase c.
Proof. destruct c as [[] [] [] [] [] [] [] []]; vm_compute; reflexivity. Qed.

Lemma to_lowercase_idem (s : string) : to_lowercase (to_lowercase s) = to_lowercase s.
Proof. induction s as [|c s IH]; simpl; [reflexivity|]. rewrite ascii_to_lowercase_idem, IH. reflexivity. Qed.

Lemma prefixes_lower (p : string) : In p prefixes -> to_lowercase p = p.
Proof. intros H. repeat destruct H as [<- | H]; try reflexivity. destruct H. Qed.

Lemma normalize_in_names (id n : string) :
  normalize_cursor_model_name id = Some n -> In n normalized_names.
Proof.
  unfold normalize_cursor_model_name.
  repeat match goal with
  | |- context [if ?b then _ else _] => destruct b
  end; simpl; intros H; try discriminate; injection H as <-; simpl; tauto.
Qed.

Lemma normalize_lower (id n : string) :
  normalize_cursor_model_name id = Some n -> to_lowercase n = n.
Proof.
  intros H. apply normalize_in_names in H.
  repeat destruct H as [<- | H]; try reflexivity. destruct H.
Qed.

Lemma lookup_prefixed_some (models : PricingData) (ps : list string) (id : string)
    (p : ModelPricing) :
  lookup_prefixed models ps id = Some p ->
  exists pre, In pre ps /\ models !! (pre ++ id)%string = Some p.
Proof.
  induction ps as [|pre ps IH]; simpl; [discriminate|].
  destruct (models !! (pre ++ id)%string) eqn:E.
  - intros [= <-]. exists pre; auto.
  - intros H. destruct (IH H) as (pre' & Hin & Hl). exists pre'; auto.
Qed.

Lemma fuzzy_loop_some (lm : string) (ln : option string)
    (l : list (string * ModelPricing)) (p : ModelPricing) :
  fuzzy_loop lm ln l = Some p -> exists k, In (k, p) l /\ fuzzy_hit lm ln k = true.
Proof.
  induction l as [|[k q] l IH]; simpl; [discriminate|].
  destruct (fuzzy_hit lm ln k) eqn:E.
  - intros [= <-]. exists k; auto.
  - intros H. destruct (IH H) as (k' & Hin & Hh). exists k'; auto.
Qed.

Lemma fuzzy_loop_none (lm : string) (ln : option string)
    (l : list (string * ModelPricing)) :
  fuzzy_loop lm ln l = None <-> forall k q, In (k, q) l -> fuzzy_hit lm ln k = false.
Proof.
  induction l as [|[k q] l IH]; simpl.
  - split; [intros _ k q []|reflexivity].
  - destruct (fuzzy_hit lm ln k) eqn:E; split.
    + discriminate.
    + intros H. rewrite (H k q (or_introl eq_refl)) in E. discriminate.
    + intros H k' q' [[= <- <-] | Hin]; [exact E|]. exact (proj1 IH H k' q' Hin).
    + intros H. apply (proj2 IH). intros k' q' Hin. apply (H k' q'). right; exact Hin.
Qed.

Lemma in_map_to_list_lookup (m : PricingData) (k : string) (q : ModelPricing) :
  In (k, q) (map_to_list m) <-> m !! k = Some q.
Proof. rewrite <- list_elem_of_In. apply elem_of_map_to_list. Qed.

(** Every key the earlier steps of [get_pricing] can hit also passes the
    fuzzy test, so the lookup fails exactly when no key passes it. *)
Lemma get_pricing_none_iff (models : PricingData) (model_id : string) :
  get_pricing models model_id = None <->
  forall k q, models !! k = Some q ->
    fuzzy_hit (to_lowercase model_id)
      (option_map to_lowercase (normalize_cursor_model_name model_id)) k = false.
Proof.
  set (lm := to_lowercase model_id).
  set (ln := option_map to_lowercase (normalize_cursor_model_name model_id)).
  assert (Hhit : forall k, contains (to_lowercase k) lm = true -> fuzzy_hit lm ln k = true).
  { intros k Hk. unfold fuzzy_hit. rewrite Hk. reflexivity. }
  assert (Hnhit : forall k n, normalize_cursor_model_name model_id = Some n ->
                   contains (to_lowercase k) n = true -> fuzzy_hit lm ln k = true).
  { intros k n Hn Hk. unfold fuzzy_hit, ln. rewrite Hn. simpl.
    rewrite (normalize_lower _ _ Hn), Hk, !orb_true_r. reflexivity. }
  unfold get_pricing. split.
  - destruct (models !! model_id) eqn:E1; [discriminate|].
    destruct (lookup_prefixed models prefixes model_id) eqn:E2; [discriminate|].
    intros H.
    assert (H' : fuzzy_loop lm ln (map_to_list models) = None).
    { destruct (normalize_cursor_model_name model_id) as [n|];
        [destruct (models !! n); [discriminate|];
         destruct (lookup_prefixed models prefixes n); [discriminate|]|]; exact H. }
    intros k q Hk. apply fuzzy_loop_none with (q := q) (l := map_to_list models);
      [exact H'|]. apply in_map_to_list_lookup. exact Hk.
  - intros H.
    destruct (models !! model_id) eqn:E1.
    { specialize (Hhit model_id (contains_refl _)). rewrite (H _ _ E1) in Hhit. discriminate. }
    destruct (lookup_prefixed models prefixes model_id) eqn:E2.
    { destruct (lookup_prefixed_some _ _ _ _ E2) as (pre & Hpre & Hl).
      specialize (Hhit (pre ++ model_id)%string).
      rewrite (H _ _ Hl), to_lowercase_app, (prefixes_lower _ Hpre), contains_app_r in Hhit.
      discriminate (Hhit eq_refl). }
    destruct (normalize_cursor_model_name model_id) as [n|] eqn:En.
    + destruct (models !! n) eqn:E3.
      { specialize (Hnhit n n eq_refl). rewrite (H _ _ E3), (normalize_lower _ _ En),
          contains_refl in Hnhit. discriminate (Hnhit eq_refl). }
      destruct (lookup_prefixed models prefixes n) eqn:E4.
      { destruct (lookup_prefixed_some _ _ _ _ E4) as (pre & Hpre & Hl).
        specialize (Hnhit (pre ++ n)%string n eq_refl).
        rewrite (H _ _ Hl), to_lowercase_app, (prefixes_lower _ Hpre),
          (normalize_lower _ _ En), contains_app_r in Hnhit.
        discriminate (Hnhit eq_refl). }
      apply fuzzy_loop_none. intros k q Hin. apply (H k q), in_map_to_list_lookup, Hin.
    + apply fuzzy_loop_none. intros k q Hin. apply (H k q), in_map_to_list_lookup, Hin.
Qed.

(** X1: [add_model] then [get_pricing] round trip: after [add_model models
    model_id p], [get_pricing] of the same [model_id] returns [p], since the
    exact lookup sees the inserted entry. *)
Theorem add_model_get_pricing (models : PricingData) (model_id : string) (p : ModelPricing) :
  get_pricing (add_model models model_id p) model_id = Some p.
Proof. unfold get_pricing, add_model, PricingData in *. rewrite lookup_insert_eq. reflexivity. Qed.

(** X2: [get_pricing] returns [None] exactly when no key of the catalog passes
    the fuzzy test, i.e. for every key the lower-cased key neither contains
    nor is contained in the lower-cased id or its lower-cased normalized name;
    every earlier step is subsumed by this test. *)
Theorem get_pricing_none_no_match (models : PricingData) (model_id : string) :
  get_pricing models model_id = None <->
  forall k q, models !! k = Some q ->
    fuzzy_hit (to_lowercase model_id)
      (option_map to_lowercase (normalize_cursor_model_name model_id)) k = false.
Proof. apply get_pricing_none_iff. Qed.

Lemma get_pricing_in_catalog (models : PricingData) (model_id : string) (p : ModelPricing) :
  get_pricing models model_id = Some p -> exists k, models !! k = Some p.
Proof.
  unfold get_pricing.
  destruct (models !! model_id) eqn:E1; [intros [= <-]; eauto|].
  destruct (lookup_prefixed models prefixes model_id) eqn:E2.
  { intros [= <-]. destruct (lookup_prefixed_some _ _ _ _ E2) as (pre & _ & Hl). eauto. }
  assert (Hf : fuzzy_loop (to_lowercase model_id)
                 (option_map to_lowercase (normalize_cursor_model_name model_id))
                 (map_to_list models) = Some p -> exists k, models !! k = Some p).
  { intros H. destruct (fuzzy_loop_some _ _ _ _ H) as (k & Hin & _).
    exists k. apply in_map_to_list_lookup, Hin. }
  destruct (normalize_cursor_model_name model_id) as [n|]; [|exact Hf].
  destruct (models !! n) eqn:E3; [intros [= <-]; eauto|].
  destruct (lookup_prefixed models prefixes n) eqn:E4; [|exact Hf].
  intros [= <-]. destruct (lookup_prefixed_some _ _ _ _ E4) as (pre & _ & Hl). eauto.
Qed.

(** X3: whatever [get_pricing] returns is one of the catalog's own entries: a
    [Some p] result means some key maps to [p]. *)
Theorem get_pricing_from_catalog (models : PricingData) (model_id : string) (p : ModelPricing) :
  get_pricing models model_id = Some p -> exists k, models !! k = Some p.
Proof. apply get_pricing_in_catalog. Qed.

(** X4: adding a model never makes a resolvable id unresolvable: if
    [get_pricing] finds pricing for [model_id] before [add_model], it still
    finds some pricing after it. *)
Theorem add_model_keeps_resolved (models : PricingData) (model_id key : string)
    (p : ModelPricing) :
  get_pricing models model_id <> None ->
  get_pricing (add_model models key p) model_id <> None.
Proof.
  intros H Hn. apply H. apply get_pricing_none_iff. intros k q Hk.
  apply (proj1 (get_pricing_none_iff _ _) Hn k (if decide (k = key) then p else q)).
  unfold add_model, PricingData in *. destruct (decide (k = key)) as [-> | Hne].
  - apply lookup_insert_eq.
  - rewrite lookup_insert_ne by congruence. exact Hk.
Qed.

(** X5: the empty model id resolves against every non-empty catalog, since
    every lower-cased key contains the empty string in the fuzzy step. *)
Theorem get_pricing_empty_id (models : PricingData) :
  models <> ∅ -> get_pricing models "" <> None.
Proof.
  intros Hne Hn. apply Hne. apply map_empty. intros k.
  destruct (models !! k) as [q|] eqn:Hk; [|exact Hk].
  exfalso. pose proof (proj1 (get_pricing_none_iff _ _) Hn k q Hk) as H.
  unfold fuzzy_hit in H. simpl in H. rewrite contains_empty in H. discriminate.
Qed.

Lemma get_pricing_empty_id_witness :
  {[ "gpt-4o"%string := test_pricing ]} <> (∅ : PricingData) /\
  get_pricing {[ "gpt-4o"%string := test_pricing ]} "" <> None.
Proof.
  split; [apply map_non_empty_singleton|].
  apply get_pricing_empty_id. apply map_non_empty_singleton.
Defined.

(** X6: [normalize_cursor_model_name] ignores case: normalizing the
    lower-cased id gives the same result as normalizing the id. *)
Theorem normalize_case_insensitive (model_id : string) :
  normalize_cursor_model_name (to_lowercase model_id) = normalize_cursor_model_name model_id.
Proof. unfold normalize_cursor_model_name. rewrite to_lowercase_idem. reflexivity. Qed.











Lemma summary_sets_inner (l : list SourceContribution) (ss ms : gset string) (x : string) :
  let r := foldl (fun '(sources_set, models_set) s =>
                    ({[sc_source s]} ∪ sources_set, {[sc_model_id s]} ∪ models_set)) (ss, ms) l in
  (x ∈ r.1 <-> x ∈ ss \/ exists s, In s l /\ sc_source s = x) /\
  (x ∈ r.2 <-> x ∈ ms \/ exists s, In s l /\ sc_model_id s = x).
Proof.
  revert ss ms. induction l as [|s l IH]; intros ss ms; simpl.
  - split; split; [tauto| intros [H | (? & [] & _)]; exact H | tauto |
                   intros [H | (? & [] & _)]; exact H].
  - destruct (IH ({[sc_source s]} ∪ ss) ({[sc_model_id s]} ∪ ms)) as [[A1 A2] [B1 B2]].
    split; split.
    + intros H. apply A1 in H as [H | (s' & Hin & Hs)].
      * apply elem_of_union in H as [H | H]; [apply elem_of_singleton in H; subst|]; eauto.
      * eauto.
    + intros [H | (s' & [<- | Hin] & <-)]; apply A2.
      * left; set_solver.
      * left; set_solver.
      * right; eauto.
    + intros H. apply B1 in H as [H | (s' & Hin & Hs)].
      * apply elem_of_union in H as [H | H]; [apply elem_of_singleton in H; subst|]; eauto.
      * eauto.
    + intros [H | (s' & [<- | Hin] & <-)]; apply B2.
      * left; set_solver.
      * left; set_solver.
      * right; eauto.
Qed.

Lemma summary_sets_outer (cs : list DailyContribution) (ss ms : gset string) (x : string) :
  let r := foldl (fun '(sources_set, models_set) c =>
           foldl (fun '(sources_set, models_set) s =>
                    ({[sc_source s]} ∪ sources_set, {[sc_model_id s]} ∪ models_set))
                 (sources_set, models_set) (dc_sources c)) (ss, ms) cs in
  (x ∈ r.1 <-> x ∈ ss \/ exists c s, In c cs /\ In s (dc_sources c) /\ sc_source s = x) /\
  (x ∈ r.2 <-> x ∈ ms \/ exists c s, In c cs /\ In s (dc_sources c) /\ sc_model_id s = x).
Proof.
  revert ss ms. induction cs as [|c cs IH]; intros ss ms; simpl.
  - split; split; [tauto| intros [H | (? & ? & [] & _)]; exact H | tauto |
                   intros [H | (? & ? & [] & _)]; exact H].
  - destruct (foldl _ (ss, ms) (dc_sources c)) as [ss' ms'] eqn:E.
    pose proof (summary_sets_inner (dc_sources c) ss ms x) as [[C1 C2] [D1 D2]].
    simpl in C1, C2, D1, D2. rewrite E in C1, C2, D1, D2. simpl in C1, C2, D1, D2.
    destruct (IH ss' ms') as [[A1 A2] [B1 B2]].
    split; split.
    + intros H. apply A1 in H as [H | (c' & s & Hc & Hs & Hx)].
      * apply C1 in H as [H | (s & Hs & Hx)]; [left; exact H | right; exists c, s; auto].
      * right; exists c', s; auto.
    + intros [H | (c' & s & [<- | Hc] & Hs & Hx)]; apply A2.
      * left; apply C2; left; exact H.
      * left; apply C2; right; exists s; auto.
      * right; exists c', s; auto.
    + intros H. apply B1 in H as [H | (c' & s & Hc & Hs & Hx)].
      * apply D1 in H as [H | (s & Hs & Hx)]; [left; exact H | right; exists c, s; auto].
      * right; exists c', s; auto.
    + intros [H | (c' & s & [<- | Hc] & Hs & Hx)]; apply B2.
      * left; apply D2; left; exact H.
      * left; apply D2; right; exists s; auto.
      * right; exists c', s; auto.
Qed.

(** X8: [calculate_summary] lists each source and each model once, and exactly
    those that occur in some day's [sources]. *)
Theorem calculate_summary_sources_models (cs : list DailyContribution) :
  NoDup (ds_sources (calculate_summary cs)) /\ NoDup (ds_models (calculate_summary cs)) /\
  (forall x, In x (ds_sources (calculate_summary cs)) <->
     exists c s, In c cs /\ In s (dc_sources c) /\ sc_source s = x) /\
  (forall x, In x (ds_models (calculate_summary cs)) <->
     exists c s, In c cs /\ In s (dc_sources c) /\ sc_model_id s = x).
Proof.
  unfold calculate_summary, summary_sets.
  destruct (foldl _ (∅, ∅) cs) as [ss ms] eqn:E. simpl.
  split; [apply NoDup_elements|]. split; [apply NoDup_elements|].
  split; intros x; rewrite <- list_elem_of_In, elem_of_elements;
    pose proof (summary_sets_outer cs ∅ ∅ x) as [[A1 A2] [B1 B2]]; simpl in *; rewrite E in *;
    simpl in *; split; intros H.
  - apply A1 in H as [H | H]; [set_solver | exact H].
  - apply A2; right; exact H.
  - apply B1 in H as [H | H]; [set_solver | exact H].
  - apply B2; right; exact H.
Qed.

Definition lexleb (k1 k2 : Z * Z * Z) : bool := negb (lexltb k2 k1).

Lemma fmax_key (a x : spec_float) :
  a <> S754_nan -> x <> S754_nan ->
  F64.fmax a x = if lexltb (fkey a) (fkey x) then x else a.
Proof.
  intros Ha Hx. unfold F64.fmax. rewrite !not_nan_is_nan by assumption.
  rewrite SFcompare_fkey by assumption.
  destruct (lexcmp (fkey a) (fkey x)) eqn:E.
  - apply lexcmp_eq in E. rewrite E, lexltb_irrefl. reflexivity.
  - apply lexcmp_lt, lexltb_spec in E. rewrite E. reflexivity.
  - apply lexcmp_gt, lexlt_asym in E. rewrite E. reflexivity.
Qed.

Lemma lexleb_refl (k : Z * Z * Z) : lexleb k k = true.
Proof. unfold lexleb. rewrite lexltb_irrefl. reflexivity. Qed.

Lemma lexleb_trans (k1 k2 k3 : Z * Z * Z) :
  lexleb k1 k2 = true -> lexleb k2 k3 = true -> lexleb k1 k3 = true.
Proof.
  destruct k1 as [[a1 b1] c1], k2 as [[a2 b2] c2], k3 as [[a3 b3] c3].
  unfold lexleb; simpl. lia.
Qed.

Lemma lexleb_ltb (k1 k2 : Z * Z * Z) : lexltb k1 k2 = true -> lexleb k1 k2 = true.
Proof. destruct k1 as [[a1 b1] c1], k2 as [[a2 b2] c2]. unfold lexleb; simpl. lia. Qed.

Lemma lexleb_not_ltb (k1 k2 : Z * Z * Z) : lexltb k1 k2 = false -> lexleb k2 k1 = true.
Proof. intros H. unfold lexleb. rewrite H. reflexivity. Qed.

(** The running [f64::max] over non-NaN values from a non-NaN start is
    not NaN, not below the start nor any value, and is the start or one
    of the values. *)
Lemma fold_fmax_upper (f : DailyContribution -> spec_float) (cs : list DailyContribution) :
  (forall c, In c cs -> f c <> S754_nan) ->
  forall acc, acc <> S754_nan ->
  let r := foldl (fun a c => F64.fmax a (f c)) acc cs in
  r <> S754_nan /\ lexleb (fkey acc) (fkey r) = true /\
  (forall c, In c cs -> lexleb (fkey (f c)) (fkey r) = true) /\
  (r = acc \/ exists c, In c cs /\ f c = r).
Proof.
  induction cs as [|c cs IH]; intros Hcs acc Hacc; simpl.
  - split; [exact Hacc|]. split; [apply lexleb_refl|]. split; [intros ? []|left; reflexivity].
  - assert (Hc : f c <> S754_nan) by (apply Hcs; left; reflexivity).
    rewrite (fmax_key acc (f c) Hacc Hc).
    set (a' := if lexltb (fkey acc) (fkey (f c)) then f c else acc).
    assert (Ha' : a' <> S754_nan) by (unfold a'; destruct (lexltb _ _); assumption).
    assert (L1 : lexleb (fkey acc) (fkey a') = true /\ lexleb (fkey (f c)) (fkey a') = true).
    { unfold a'. destruct (lexltb _ _) eqn:E.
      - split; [apply lexleb_ltb; exact E | apply lexleb_refl].
      - split; [apply lexleb_refl | apply lexleb_not_ltb; exact E]. }
    destruct (IH (fun c' H => Hcs c' (or_intror H)) a' Ha') as (R1 & R2 & R3 & R4).
    split; [exact R1|]. split; [eapply lexleb_trans; [apply L1|exact R2]|]. split.
    + intros c' [<- | Hin]; [eapply lexleb_trans; [apply L1|exact R2]|apply R3; exact Hin].
    + destruct R4 as [-> | (c' & Hin & Hr)]; [|right; exists c'; auto].
      unfold a'. destruct (lexltb _ _); [right; exists c; auto|left; reflexivity].
Qed.

Lemma le_lexleb (x y : spec_float) :
  x <> S754_nan -> y <> S754_nan -> F64.le x y = lexleb (fkey x) (fkey y).
Proof. intros Hx Hy. rewrite le_fkey by assumption. reflexivity. Qed.

(** X9: when no day cost is NaN, [max_cost_in_single_day] of
    [calculate_summary] is at least [0.0], at least every day's cost, and is
    [0.0] or the cost of some day. *)
Theorem calculate_summary_max_cost (cs : list DailyContribution) :
  (forall c, In c cs -> day_cost c <> S754_nan) ->
  let M := ds_max_cost_in_single_day (calculate_summary cs) in
  F64.le F64.zero M = true /\
  (forall c, In c cs -> F64.le (day_cost c) M = true) /\
  (M = F64.zero \/ exists c, In c cs /\ day_cost c = M).
Proof.
  intros Hcs M.
  assert (HM : M = foldl (fun a c => F64.fmax a (day_cost c)) F64.zero cs).
  { unfold M, calculate_summary. destruct (summary_sets cs). reflexivity. }
  destruct (fold_fmax_upper day_cost cs Hcs F64.zero ltac:(discriminate)) as (R1 & R2 & R3 & R4).
  rewrite <- HM in R1, R2, R3, R4.
  split; [rewrite le_lexleb by (discriminate || exact R1); exact R2|]. split.
  - intros c Hc. rewrite le_lexleb by (exact (Hcs c Hc) || exact R1). apply R3, Hc.
  - exact R4.
Qed.

(** X16: for every split of the input among the workers, every bucket of
    [aggregate_by_interval] counts the messages whose timestamp truncates
    to its start (as an [i32]), and has no rate statistics exactly when it
    holds no message. *)
Theorem aggregate_by_interval_bucket_counts (fuel : nat) (p : Partition) (w : Z)
    (bs : list IntervalBucket) :
  0 < w <= i64_max -> Forall ts_valid (flatten p) ->
  aggregate_by_interval fuel p w = Some bs ->
  forall b, In b bs ->
    messages b = wrap32 (Z.of_nat (length (msgs_in_bucket w (start_ms b) (flatten p)))) /\
    (rate_stats b = None <-> msgs_in_bucket w (start_ms b) (flatten p) = []).
Proof.
  intros Hw Hv H b Hb.
  assert (Hne : flatten p <> []).
  { intros E. unfold aggregate_by_interval in H. rewrite E in H. injection H as <-.
    destruct Hb. }
  destruct (aggregate_by_interval_some fuel p w bs Hne Hw Hv H) as (M & HM & Hf).
  destruct (bucket_reduce_spec w p Hw Hv) as (M' & HM' & Hk).
  rewrite HM in HM'. injection HM' as <-.
  destruct (fill_buckets_in M _ w fuel _ bs Hf b Hb) as [s ->].
  destruct (bucket_at_holds M w s _ (Hk s)) as (S1 & S2 & S3 & _).
  rewrite S1. split; [exact S2 | exact S3].
Qed.

Section ZsumPartition.
Context {A K : Type} (eqb : K -> K -> bool) (eqb_spec : forall x y, eqb x y = true <-> x = y).

Lemma zsum_indicator_notin (ks : list K) (x : K) (a : Z) :
  ~ In x ks -> zsum (fun k => if eqb x k then a else 0) ks = 0.
Proof.
  induction ks as [|k ks IH]; intros Hin; simpl; [reflexivity|].
  destruct (eqb x k) eqn:E; [apply eqb_spec in E; subst; destruct Hin; left; reflexivity|].
  rewrite IH; [lia|]. intros H; apply Hin; right; exact H.
Qed.

Lemma zsum_indicator (ks : list K) (x : K) (a : Z) :
  NoDup ks -> In x ks -> zsum (fun k => if eqb x k then a else 0) ks = a.
Proof.
  induction ks as [|k ks IH]; intros Hnd Hin; [destruct Hin|].
  apply NoDup_cons in Hnd as [Hk Hnd']. simpl.
  destruct (eqb x k) eqn:E.
  - apply eqb_spec in E; subst.
    rewrite zsum_indicator_notin; [lia|]. intros H; apply Hk, list_elem_of_In, H.
  - destruct Hin as [Ek | Hin].
    + assert (eqb x k = true) by (apply eqb_spec; symmetry; exact Ek). congruence.
    + rewrite IH by assumption. lia.
Qed.

(** Summing a measure group by group over distinct keys covering every
    element gives the sum over all elements. *)
Lemma zsum_partition (key : A -> K) (h : A -> Z) (ks : list K) (ms : list A) :
  NoDup ks -> (forall m, In m ms -> In (key m) ks) ->
  zsum (fun k => zsum h (List.filter (fun m => eqb (key m) k) ms)) ks = zsum h ms.
Proof.
  intros Hnd. induction ms as [|m ms IH]; intros Hcov; simpl.
  - clear Hnd Hcov. induction ks; simpl; [reflexivity|]. rewrite IHks. reflexivity.
  - rewrite <- IH by (intros; apply Hcov; right; assumption).
    rewrite <- (zsum_indicator ks (key m) (h m) Hnd (Hcov m (or_introl eq_refl))).
    clear. induction ks as [|k ks IH]; simpl; [reflexivity|].
    rewrite IH. destruct (eqb (key m) k); simpl; lia.
Qed.

End ZsumPartition.

Lemma zsum_filter_le (h : UnifiedMessage -> Z) (f : UnifiedMessage -> bool) (ms : list UnifiedMessage) :
  (forall m, In m ms -> 0 <= h m) ->
  0 <= zsum h (List.filter f ms) <= zsum h ms.
Proof.
  induction ms as [|m ms IH]; intros Hnn; simpl; [lia|].
  assert (0 <= h m) by (apply Hnn; left; reflexivity).
  destruct IH as [IH1 IH2]; [intros; apply Hnn; right; assumption|].
  destruct (f m); simpl; lia.
Qed.

Lemma tb_sum_fields (ms : list UnifiedMessage) :
  tb_sum ms = mkTokenBreakdown (zsum (fun m => input (tokens m)) ms)
                (zsum (fun m => output (tokens m)) ms)
                (zsum (fun m => cache_read (tokens m)) ms)
                (zsum (fun m => cache_write (tokens m)) ms)
                (zsum (fun m => reasoning (tokens m)) ms).
Proof. induction ms as [|m ms IH]; simpl; [reflexivity|]. rewrite IH. reflexivity. Qed.

Lemma tb_sum_buckets_fields (bs : list IntervalBucket) :
  tb_sum_buckets bs = mkTokenBreakdown (zsum (fun b => input (token_breakdown b)) bs)
                (zsum (fun b => output (token_breakdown b)) bs)
                (zsum (fun b => cache_read (token_breakdown b)) bs)
                (zsum (fun b => cache_write (token_breakdown b)) bs)
                (zsum (fun b => reasoning (token_breakdown b)) bs).
Proof. induction bs as [|b bs IH]; simpl; [reflexivity|]. rewrite IH. reflexivity. Qed.

Lemma zsum_map {A B} (h : B -> Z) (f : A -> B) (l : list A) :
  zsum h (map f l) = zsum (fun x => h (f x)) l.
Proof. induction l; simpl; congruence. Qed.

Lemma zsum_ext {A} (h1 h2 : A -> Z) (l : list A) :
  (forall x, In x l -> h1 x = h2 x) -> zsum h1 l = zsum h2 l.
Proof.
  induction l as [|x l IH]; intros H; simpl; [reflexivity|].
  rewrite (H x (or_introl eq_refl)), IH by (intros; apply H; right; assumption). reflexivity.
Qed.

Lemma bucket_starts_NoDup (s w : Z) (n : nat) : 0 < w -> NoDup (bucket_starts s w n).
Proof.
  intros Hw. revert s. induction n as [|n IH]; intros s; simpl; constructor.
  - intros Hin. apply list_elem_of_In, bucket_starts_In_inv in Hin as (k & _ & Hk). lia.
  - apply IH.
Qed.

Lemma zsum_one_length {A} (l : list A) : zsum (fun _ => 1) l = Z.of_nat (length l).
Proof. induction l; simpl; [reflexivity|]. rewrite IHl. lia. Qed.

Lemma zsum_app {A} (h : A -> Z) (l1 l2 : list A) : zsum h (l1 ++ l2) = zsum h l1 + zsum h l2.
Proof. induction l1; simpl; [reflexivity|]. rewrite IHl1. lia. Qed.

Lemma tb_clamp_default : tb_clamp tb_default = tb_default.
Proof. reflexivity. Qed.

(** The breakdown of the bucket at [s] is the exact sum over its messages
    when the sum over all messages fits an [i64]. *)
Lemma bucket_at_tokens (M : gmap Z IntervalAccumulator) (w s : Z) (ms : list UnifiedMessage) :
  entry_holds (M !! s) (msgs_in_bucket w s ms) ->
  Forall msg_nonneg ms -> tb_le_max (tb_sum ms) ->
  token_breakdown (bucket_at M s w) = tb_sum (msgs_in_bucket w s ms).
Proof.
  intros Hs Hnn Hmax.
  assert (Hnn' : Forall msg_nonneg (msgs_in_bucket w s ms)).
  { unfold msgs_in_bucket. apply List.Forall_forall. intros x Hx.
    apply filter_In in Hx as [Hx _]. eapply List.Forall_forall; eauto. }
  destruct (bucket_at_holds M w s _ Hs) as (_ & _ & _ & _ & E).
  rewrite (E Hnn'). apply tb_clamp_le_max.
  assert (Hh : forall h : UnifiedMessage -> Z, (forall x, In x ms -> 0 <= h x) ->
               zsum h ms <= i64_max -> zsum h (msgs_in_bucket w s ms) <= i64_max).
  { intros h H1 H2. unfold msgs_in_bucket.
    pose proof (zsum_filter_le h (fun x => Z.eqb (trunc_bucket w (timestamp x)) s) ms H1).
    lia. }
  rewrite List.Forall_forall in Hnn.
  unfold tb_le_max in *. rewrite tb_sum_fields in Hmax |- *.
  cbn [input output cache_read cache_write reasoning] in Hmax |- *.
  destruct Hmax as (H1 & H2 & H3 & H4 & H5).
  repeat split; apply Hh; try assumption; intros x Hx; destruct (Hnn x Hx) as [(? & ? & ? & ? & ?) _];
    assumption.
Qed.

(** X17: [aggregate_by_interval] neither loses nor duplicates messages,
    for every split of the input among the workers: without overflow, the
    bucket message counts add up to the number of messages and the bucket
    token breakdowns add up, field by field, to the messages'
    breakdowns. *)
Theorem aggregate_by_interval_conserves (fuel : nat) (p : Partition) (w : Z)
    (bs : list IntervalBucket) :
  0 < w <= i64_max -> Forall ts_valid (flatten p) -> Forall msg_nonneg (flatten p) ->
  (forall m, In m (flatten p) -> trunc_bucket w (timestamp m) + w <= i64_max) ->
  Z.of_nat (length (flatten p)) <= i32_max -> tb_le_max (tb_sum (flatten p)) ->
  aggregate_by_interval fuel p w = Some bs ->
  zsum messages bs = Z.of_nat (length (flatten p)) /\ tb_sum_buckets bs = tb_sum (flatten p).
Proof.
  intros Hw Hv Hnn Hend Hlen Hmax H.
  assert (Hcase : flatten p = [] \/ flatten p <> [])
    by (destruct (flatten p); [left | right]; congruence).
  destruct Hcase as [E | Hne].
  { unfold aggregate_by_interval in H. rewrite E in H |- *. injection H as <-.
    split; reflexivity. }
  destruct (aggregate_by_interval_starts fuel p w bs Hne Hw Hv Hend H)
    as (M & n & Hk & -> & Hn1 & Hn2).
  destruct (min_max_ts_spec _ Hne Hv) as (Hmin & _ & Hmax' & _).
  set (ms := flatten p) in *.
  set (c := trunc_bucket w (fst (min_max_ts ms))) in *.
  set (l := trunc_bucket w (snd (min_max_ts ms))) in *.
  assert (Hcov : forall m, In m ms -> In (trunc_bucket w (timestamp m)) (bucket_starts c w n)).
  { intros m Hm.
    pose proof (Hmin m Hm); pose proof (Hmax' m Hm).
    assert (c <= trunc_bucket w (timestamp m)) by (apply trunc_bucket_mono; lia).
    assert (trunc_bucket w (timestamp m) <= l) by (apply trunc_bucket_mono; lia).
    pose proof (trunc_bucket_diff_mod w (timestamp m) (fst (min_max_ts ms)) ltac:(lia)) as Hmod.
    fold c in Hmod.
    set (t := trunc_bucket w (timestamp m)) in *.
    pose proof (Z.div_mod (t - c) w ltac:(lia)) as Hd.
    assert (0 <= (t - c) / w) by (apply Z.div_pos; lia).
    assert ((t - c) / w < Z.of_nat n) by nia.
    replace t with (c + Z.of_nat (Z.to_nat ((t - c) / w)) * w) by (rewrite Z2Nat.id; lia).
    apply bucket_starts_In. lia. }
  pose proof (bucket_starts_NoDup c w n ltac:(lia)) as Hnd.
  assert (Hlen' : forall s, Z.of_nat (length (msgs_in_bucket w s ms)) <= Z.of_nat (length ms)).
  { intros s. unfold msgs_in_bucket. apply inj_le, filter_length_le. }
  split.
  - rewrite zsum_map.
    rewrite (zsum_ext _ (fun s => zsum (fun _ => 1)
              (List.filter (fun m => Z.eqb (trunc_bucket w (timestamp m)) s) ms))).
    + rewrite (zsum_partition Z.eqb Z.eqb_eq (fun m => trunc_bucket w (timestamp m)) (fun _ => 1)
                 _ ms Hnd Hcov).
      apply zsum_one_length.
    + intros s _. destruct (bucket_at_holds M w s _ (Hk s)) as (_ & E & _).
      rewrite E. fold (msgs_in_bucket w s ms). rewrite zsum_one_length.
      specialize (Hlen' s). unfold wrap32, i32_max in *.
      rewrite Z.mod_small by lia. lia.
  - rewrite tb_sum_buckets_fields, (tb_sum_fields ms).
    assert (Hb : forall s, token_breakdown (bucket_at M s w) = tb_sum (msgs_in_bucket w s ms))
      by (intros s; apply bucket_at_tokens; auto).
    rewrite !zsum_map.
    f_equal; (erewrite zsum_ext;
      [apply (zsum_partition Z.eqb Z.eqb_eq (fun m => trunc_bucket w (timestamp m)) _ _ ms Hnd Hcov)
      | intros s _; rewrite Hb, tb_sum_fields; reflexivity]).
Qed.

Lemma aggregate_by_interval_bucket_counts_witness :
  aggregate_by_interval 10 gap_split 1000 = Some gap_buckets /\
  forall b, In b gap_buckets ->
    messages b = wrap32 (Z.of_nat (length (msgs_in_bucket 1000 (start_ms b) (flatten gap_split)))) /\
    (rate_stats b = None <-> msgs_in_bucket 1000 (start_ms b) (flatten gap_split) = []).
Proof.
  assert (H : aggregate_by_interval 10 gap_split 1000 = Some gap_buckets)
    by (vm_compute; reflexivity).
  split; [exact H|].
  exact (aggregate_by_interval_bucket_counts 10 gap_split 1000 gap_buckets
           ltac:(unfold i64_max; lia) gap_split_valid H).
Defined.

Lemma gap_split_nonneg : Forall msg_nonneg (flatten gap_split).
Proof.
  simpl. repeat constructor; unfold i64_max; simpl; lia.
Qed.

Lemma aggregate_by_interval_conserves_witness :
  aggregate_by_interval 10 gap_split 1000 = Some gap_buckets /\
  zsum messages gap_buckets = Z.of_nat (length (flatten gap_split)) /\
  tb_sum_buckets gap_buckets = tb_sum (flatten gap_split).
Proof.
  assert (H : aggregate_by_interval 10 gap_split 1000 = Some gap_buckets)
    by (vm_compute; reflexivity).
  split; [exact H|].
  apply (aggregate_by_interval_conserves 10 gap_split 1000 gap_buckets
           ltac:(unfold i64_max; lia) gap_split_valid gap_split_nonneg).
  - simpl. intros m [<- | [<- | [<- | []]]]; vm_compute; discriminate.
  - vm_compute; discriminate.
  - unfold tb_le_max, i64_max; simpl; lia.
  - exact H.
Defined.

Lemma string_compare_OT (s t : string) :
  String.compare s t = String_as_OT.compare s t.
Proof.
  revert t. induction s as [|a s IH]; intros [|b t]; try reflexivity.
Qed.

Lemma string_ltb_lt (s t : string) : String.ltb s t = true <-> String_as_OT.lt s t.
Proof.
  unfold String.ltb, String_as_OT.lt. rewrite string_compare_OT.
  destruct (String_as_OT.compare s t); split; congruence.
Qed.

Lemma string_ltb_trans (a b c : string) :
  String.ltb a b = true -> String.ltb b c = true -> String.ltb a c = true.
Proof.
  rewrite !string_ltb_lt. intros. eapply (StrictOrder_Transitive (R := String_as_OT.lt)); eauto.
Qed.

Lemma string_ltb_irrefl (a : string) : String.ltb a a = false.
Proof.
  destruct (String.ltb a a) eqn:E; [|reflexivity].
  apply string_ltb_lt in E. exfalso. exact (StrictOrder_Irreflexive (R := String_as_OT.lt) a E).
Qed.

Lemma string_leb_ltb (a b : string) :
  String.leb a b = true -> a <> b -> String.ltb a b = true.
Proof.
  unfold String.leb, String.ltb. intros H Hne.
  destruct (String.compare a b) eqn:E; try discriminate; [|reflexivity].
  apply String.compare_eq_iff in E. contradiction.
Qed.

Lemma string_leb_false (a b : string) : String.leb a b = false -> String.ltb b a = true.
Proof.
  unfold String.leb, String.ltb. rewrite String.compare_antisym.
  destruct (String.compare b a); simpl; congruence.
Qed.

Lemma string_ltb_leb (a b : string) : String.ltb a b = true -> String.leb a b = true.
Proof. unfold String.leb, String.ltb. destruct (String.compare a b); congruence. Qed.

Lemma string_leb_refl (a : string) : String.leb a a = true.
Proof.
  unfold String.leb. destruct (String.compare a a) eqn:E; try reflexivity.
  pose proof (String.compare_antisym a a) as H. rewrite E in H. discriminate.
Qed.

Lemma string_leb_trans (a b c : string) :
  String.leb a b = true -> String.leb b c = true -> String.leb a c = true.
Proof.
  intros H1 H2.
  destruct (String.eqb_spec a b) as [<- | Hab]; [exact H2|].
  destruct (String.eqb_spec b c) as [<- | Hbc]; [exact H1|].
  apply string_ltb_leb, (string_ltb_trans a b c); apply string_leb_ltb; assumption.
Qed.

Lemma insert_by_date_perm (x : DailyContribution) (l : list DailyContribution) :
  insert_by_date x l ≡ₚ x :: l.
Proof.
  induction l as [|y l IH]; simpl; [reflexivity|].
  destruct (String.leb (dc_date y) (dc_date x)); [|reflexivity].
  rewrite IH. apply Permutation_swap.
Qed.

Lemma sort_by_date_perm (l : list DailyContribution) : sort_by_date l ≡ₚ l.
Proof.
  unfold sort_by_date.
  assert (G : forall acc, foldl (fun acc x => insert_by_date x acc) acc l ≡ₚ acc ++ l).
  { induction l as [|x l IH]; intros acc; simpl; [rewrite app_nil_r; reflexivity|].
    rewrite IH, insert_by_date_perm. simpl. apply Permutation_middle. }
  apply G.
Qed.

Lemma insert_by_date_sorted (x : DailyContribution) (l : list DailyContribution) :
  Sorted date_lt l -> (forall y, In y l -> dc_date y <> dc_date x) ->
  Sorted date_lt (insert_by_date x l).
Proof.
  induction l as [|y l IH]; intros Hs Hne; simpl; [repeat constructor|].
  destruct (String.leb (dc_date y) (dc_date x)) eqn:E.
  - apply Sorted_inv in Hs as [Hs Hhd].
    constructor; [apply IH; [exact Hs | intros; apply Hne; right; assumption]|].
    destruct l as [|z l]; simpl.
    + constructor. apply string_leb_ltb; [exact E | apply Hne; left; reflexivity].
    + destruct (String.leb (dc_date z) (dc_date x)); constructor.
      * inversion Hhd; assumption.
      * apply string_leb_ltb; [exact E | apply Hne; left; reflexivity].
  - constructor; [exact Hs|]. constructor. apply string_leb_false, E.
Qed.

Lemma sort_by_date_sorted (l : list DailyContribution) :
  NoDup (map dc_date l) -> Sorted date_lt (sort_by_date l).
Proof.
  unfold sort_by_date.
  assert (G : forall acc, Sorted date_lt acc -> NoDup (map dc_date (acc ++ l)) ->
            Sorted date_lt (foldl (fun acc x => insert_by_date x acc) acc l)).
  { induction l as [|x l IH]; intros acc Hs Hnd; simpl; [exact Hs|].
    apply IH.
    - apply insert_by_date_sorted; [exact Hs|].
      intros y Hy Heq. rewrite map_app in Hnd. simpl in Hnd.
      apply NoDup_app in Hnd as (_ & Hdis & _).
      apply (Hdis (dc_date x)); [apply list_elem_of_In, in_map_iff; eauto | left].
    - assert (P : map dc_date (insert_by_date x acc ++ l) ≡ₚ map dc_date (acc ++ x :: l)).
      { apply Permutation_map. rewrite insert_by_date_perm. simpl. apply Permutation_middle. }
      rewrite P. exact Hnd. }
  intros H. apply G; [constructor | exact H].
Qed.

Lemma date_add_fold_keys (ms : list UnifiedMessage) (acc : gmap string DayAccumulator) (d : string) :
  is_Some (foldl date_add acc ms !! d) <-> is_Some (acc !! d) \/ exists m, In m ms /\ date m = d.
Proof.
  revert acc. induction ms as [|m ms IH]; intros acc; simpl.
  - split; [auto | intros [H | (m & [] & _)]; exact H].
  - rewrite IH. unfold date_add.
    destruct (String.eqb_spec (date m) d) as [<- | Hne].
    + rewrite lookup_insert_eq. split; [intros _; right; exists m; auto | intros _; left; eauto].
    + rewrite lookup_insert_ne by exact Hne. split.
      * intros [H | (m' & Hm' & E)]; [left; exact H | right; eauto].
      * intros [H | (m' & [<- | Hm'] & E)]; [left; exact H | congruence | right; eauto].
Qed.

Lemma date_merge_keys (a b : gmap string DayAccumulator) (d : string) :
  is_Some (date_merge a b !! d) <-> is_Some (a !! d) \/ is_Some (b !! d).
Proof.
  unfold date_merge.
  assert (G : forall (l : list (string * DayAccumulator)) (a : gmap string DayAccumulator), is_Some (foldl (fun (a : gmap string DayAccumulator) '(d, acc) =>
           let e := match a !! d with Some x => x | None => day_default end in
           <[d := day_merge e acc]> a) a l !! d) <->
           is_Some (a !! d) \/ exists acc, In (d, acc) l).
  { induction l as [|[d' acc'] l IH]; intros a'; simpl.
    - split; [auto | intros [H | (? & [])]; exact H].
    - rewrite IH. destruct (String.eqb_spec d' d) as [<- | Hne].
      + rewrite lookup_insert_eq. split; [intros _; right; eauto | intros _; left; eauto].
      + rewrite lookup_insert_ne by exact Hne. split.
        * intros [H | (x & Hx)]; [left; exact H | right; eauto].
        * intros [H | (x & [E | Hx])]; [left; exact H | congruence | right; eauto]. }
  rewrite G. split; intros [H | H]; auto; right.
  - destruct H as (x & Hx). exists x. apply elem_of_map_to_list, list_elem_of_In, Hx.
  - destruct H as (x & Hx). exists x. apply list_elem_of_In, elem_of_map_to_list, Hx.
Qed.

Lemma date_reduce_keys (p : Partition) (d : string) :
  is_Some (date_reduce p !! d) <-> exists m, In m (flatten p) /\ date m = d.
Proof.
  induction p as [ms | l IHl r IHr]; cbn [date_reduce flatten].
  - rewrite date_add_fold_keys, lookup_empty. split; [intros [[? H] | H]; [discriminate | exact H] | intros H; right; exact H].
  - rewrite date_merge_keys, IHl, IHr. split.
    + intros [(m & Hm & E) | (m & Hm & E)]; exists m; rewrite in_app_iff; auto.
    + intros (m & Hm & E). apply in_app_iff in Hm as [Hm | Hm]; [left | right]; eauto.
Qed.

Lemma calculate_intensities_dates (cs : list DailyContribution) :
  map dc_date (calculate_intensities cs) = map dc_date cs.
Proof.
  unfold calculate_intensities. destruct (F64.eqb _ _); [reflexivity|].
  rewrite map_map. reflexivity.
Qed.

Lemma contributions_dates (M : gmap string DayAccumulator) :
  map dc_date (map (fun '(d, acc) => into_contribution acc d) (map_to_list M)) =
  map fst (map_to_list M).
Proof. rewrite map_map. apply map_ext. intros [d acc]. reflexivity. Qed.

Lemma Sorted_map_dates (R : string -> string -> Prop) (l1 l2 : list DailyContribution) :
  map dc_date l1 = map dc_date l2 ->
  Sorted (fun c1 c2 => R (dc_date c1) (dc_date c2)) l2 ->
  Sorted (fun c1 c2 => R (dc_date c1) (dc_date c2)) l1.
Proof.
  revert l2. induction l1 as [|x l1 IH]; intros [|y l2] E Hs; try discriminate; [constructor|].
  injection E as E1 E2. apply Sorted_inv in Hs as [Hs Hhd].
  constructor; [eapply IH; eauto|].
  destruct l1 as [|x' l1]; [constructor|]. destruct l2 as [|y' l2]; [discriminate|].
  injection E2 as E3 _. inversion Hhd; subst. constructor. rewrite E1, E3. assumption.
Qed.

(** X10: [aggregate_by_date] returns its days in strictly increasing date
    order, so no date appears twice. *)
Theorem aggregate_by_date_sorted_unique (p : Partition) :
  StronglySorted (fun c1 c2 => String.ltb (dc_date c1) (dc_date c2) = true) (aggregate_by_date p).
Proof.
  apply Sorted_StronglySorted; [intros x y z; apply string_ltb_trans|].
  unfold aggregate_by_date. destruct (flatten p); [constructor|].
  apply (Sorted_map_dates (fun a b => String.ltb a b = true) _
           (sort_by_date (map (fun '(d, acc) => into_contribution acc d)
                            (map_to_list (date_reduce p))))).
  - apply calculate_intensities_dates.
  - apply sort_by_date_sorted. rewrite contributions_dates. apply NoDup_fst_map_to_list.
Qed.

Lemma aggregate_by_date_In_date (p : Partition) (d : string) :
  (exists c, In c (aggregate_by_date p) /\ dc_date c = d) <->
  In d (map fst (map_to_list (date_reduce p))).
Proof.
  unfold aggregate_by_date.
  assert (E : forall l, (exists c, In c l /\ dc_date c = d) <-> In d (map dc_date l)).
  { intros l. rewrite in_map_iff. split; intros (c & H1 & H2); eauto. }
  destruct (flatten p) eqn:Ef.
  - split; [intros (c & [] & _)|]. intros H.
    apply in_map_iff in H as ([d' acc] & <- & H). apply list_elem_of_In, elem_of_map_to_list in H.
    destruct (proj1 (date_reduce_keys p d') (mk_is_Some _ _ H)) as (m & Hm & _).
    rewrite Ef in Hm. destruct Hm.
  - rewrite E, calculate_intensities_dates, <- contributions_dates.
    split; apply Permutation_in.
    + apply Permutation_map, sort_by_date_perm.
    + symmetry. apply Permutation_map, sort_by_date_perm.
Qed.

(** X11: a date has an entry in [aggregate_by_date] exactly when some input
    message carries that date. *)
Theorem aggregate_by_date_dates (p : Partition) (d : string) :
  (exists c, In c (aggregate_by_date p) /\ dc_date c = d) <->
  (exists m, In m (flatten p) /\ date m = d).
Proof.
  rewrite aggregate_by_date_In_date, <- date_reduce_keys. split.
  - intros H. apply in_map_iff in H as ([d' acc] & <- & H).
    apply list_elem_of_In, elem_of_map_to_list in H. eauto.
  - intros [acc H]. apply in_map_iff. exists (d, acc). split; [reflexivity|].
    apply list_elem_of_In, elem_of_map_to_list, H.
Qed.

Lemma year_step_eq (m : gmap string YearAccumulator) (c : DailyContribution) :
  year_step m c =
  match str_prefix_slice (dc_date c) 4 with
  | None => None
  | Some y => Some (<[y := ya_add (match m !! y with Some a => a | None => ya_default end) c]> m)
  end.
Proof. reflexivity. Qed.

Lemma year_loop_spec (cs : list DailyContribution) :
  forall (m m' : gmap string YearAccumulator), year_loop m cs = Some m' ->
  (forall c, In c cs -> is_Some (str_prefix_slice (dc_date c) 4)) /\
  forall y, m' !! y = ya_after (m !! y) (List.filter (in_year y) cs).
Proof.
  induction cs as [|c cs IH]; intros m m' H; simpl in H.
  - injection H as <-. split; [intros _ []|]. intros y. reflexivity.
  - rewrite year_step_eq in H.
    destruct (str_prefix_slice (dc_date c) 4) as [y0|] eqn:Ey; [|discriminate].
    destruct (IH _ _ H) as [Hs Hk]. split.
    { intros c' [<- | Hc']; [rewrite Ey; eauto | auto]. }
    intros y. rewrite Hk. simpl. unfold in_year at 2. rewrite Ey.
    destruct (String.eqb_spec y0 y) as [<- | Hne].
    + rewrite bool_decide_eq_true_2 by reflexivity. rewrite lookup_insert_eq.
      destruct (List.filter (in_year y0) cs); reflexivity.
    + rewrite bool_decide_eq_false_2 by congruence.
      rewrite lookup_insert_ne by exact Hne. reflexivity.
Qed.

Lemma wrap64_add_l (a b : Z) : wrap64 (wrap64 a + b) = wrap64 (a + b).
Proof.
  unfold wrap64.
  replace ((a + 9223372036854775808) mod 18446744073709551616 - 9223372036854775808 + b
           + 9223372036854775808)
    with ((a + 9223372036854775808) mod 18446744073709551616 + b) by lia.
  rewrite Zplus_mod_idemp_l. f_equal. f_equal. lia.
Qed.

Lemma ya_fold_tokens (l : list DailyContribution) (c : DailyContribution) (e : YearAccumulator) :
  ya_tokens (foldl ya_add e (c :: l)) =
  wrap64 (ya_tokens e + zsum (fun c => totals_tokens (dc_totals c)) (c :: l)).
Proof.
  revert c e. induction l as [|c' l IH]; intros c e.
  - simpl. f_equal. lia.
  - change (foldl ya_add e (c :: c' :: l)) with (foldl ya_add (ya_add e c) (c' :: l)).
    rewrite IH. unfold ya_add at 1; cbn [ya_tokens]. rewrite wrap64_add_l. f_equal.
    unfold zsum; simpl. lia.
Qed.

Lemma ya_fold_cost (l : list DailyContribution) (e : YearAccumulator) :
  ya_cost (foldl ya_add e l) = foldl (fun a c => F64.add a (day_cost c)) (ya_cost e) l.
Proof. revert e. induction l as [|c l IH]; intros e; simpl; [reflexivity|]. apply IH. Qed.

Lemma str_prefix_slice_length (s y : string) (j : nat) :
  str_prefix_slice s j = Some y -> (j <= String.length s)%nat.
Proof.
  unfold str_prefix_slice. destruct (Nat.leb_spec j (String.length s)); [auto|discriminate].
Qed.

Lemma string_ltb_false (a b : string) : String.ltb a b = false -> String.leb b a = true.
Proof.
  unfold String.leb, String.ltb. rewrite String.compare_antisym.
  destruct (String.compare b a); simpl; congruence.
Qed.

(** Over a non-empty list of non-empty dates, the loop body keeps the
    least date as start and the greatest as end. *)
Lemma ya_fold_range (l : list DailyContribution) :
  l <> [] -> (forall c, In c l -> dc_date c <> EmptyString) ->
  let r := foldl ya_add ya_default l in
  In (ya_start r) (map dc_date l) /\ In (ya_end r) (map dc_date l) /\
  forall c, In c l -> String.leb (ya_start r) (dc_date c) = true /\
                      String.leb (dc_date c) (ya_end r) = true.
Proof.
  induction l as [|c l IH] using rev_ind; intros Hne Hd r; [congruence|].
  unfold r. rewrite foldl_app. simpl.
  destruct l as [|c0 l0] eqn:El.
  - simpl.
    split; [left; reflexivity|]. split; [left; reflexivity|].
    intros c' [<- | []]. split; apply string_leb_refl.
  - rewrite <- El in *.
    assert (Hne' : l <> []) by (subst; discriminate).
    destruct (IH Hne' ltac:(intros; apply Hd, in_app_iff; auto)) as (Hs & He & Hle).
    set (r0 := foldl ya_add ya_default l) in *.
    assert (Hs0 : ya_start r0 <> EmptyString).
    { apply in_map_iff in Hs as (c1 & E & Hc1). rewrite <- E. apply Hd, in_app_iff; auto. }
    assert (He0 : ya_end r0 <> EmptyString).
    { apply in_map_iff in He as (c1 & E & Hc1). rewrite <- E. apply Hd, in_app_iff; auto. }
    unfold ya_add; simpl.
    destruct (String.eqb_spec (ya_start r0) "") as [|_]; [contradiction|].
    destruct (String.eqb_spec (ya_end r0) "") as [|_]; [contradiction|]. simpl.
    rewrite map_app. simpl.
    split; [|split].
    + destruct (String.ltb (dc_date c) (ya_start r0)); apply in_app_iff; simpl; auto.
    + destruct (String.ltb (ya_end r0) (dc_date c)); apply in_app_iff; simpl; auto.
    + intros c' Hc'. apply in_app_iff in Hc' as [Hc' | [<- | []]].
      * destruct (Hle c' Hc') as [H1 H2]. split.
        -- destruct (String.ltb (dc_date c) (ya_start r0)) eqn:E; [|exact H1].
           eapply string_leb_trans; [apply string_ltb_leb, E | exact H1].
        -- destruct (String.ltb (ya_end r0) (dc_date c)) eqn:E; [|exact H2].
           eapply string_leb_trans; [exact H2 | apply string_ltb_leb, E].
      * split.
        -- destruct (String.ltb (dc_date c) (ya_start r0)) eqn:E;
             [apply string_leb_refl | apply string_ltb_false, E].
        -- destruct (String.ltb (ya_end r0) (dc_date c)) eqn:E;
             [apply string_leb_refl | apply string_ltb_false, E].
Qed.

(** [years.sort_by(|a, b| a.year.cmp(&b.year))] *)
Lemma insert_by_year_perm (x : YearSummary) (l : list YearSummary) :
  insert_by_year x l ≡ₚ x :: l.
Proof.
  induction l as [|y l IH]; simpl; [reflexivity|].
  destruct (String.leb (ys_year y) (ys_year x)); [|reflexivity].
  rewrite IH. apply Permutation_swap.
Qed.

Lemma sort_by_year_perm (l acc : list YearSummary) :
  foldl (fun acc x => insert_by_year x acc) acc l ≡ₚ acc ++ l.
Proof.
  revert acc. induction l as [|x l IH]; intros acc; simpl; [rewrite app_nil_r; reflexivity|].
  rewrite IH, insert_by_year_perm. simpl. apply Permutation_middle.
Qed.

Lemma insert_by_year_sorted (x : YearSummary) (l : list YearSummary) :
  Sorted year_lt l -> (forall y, In y l -> ys_year y <> ys_year x) ->
  Sorted year_lt (insert_by_year x l).
Proof.
  induction l as [|y l IH]; intros Hs Hne; simpl; [repeat constructor|].
  destruct (String.leb (ys_year y) (ys_year x)) eqn:E.
  - apply Sorted_inv in Hs as [Hs Hhd].
    constructor; [apply IH; [exact Hs | intros; apply Hne; right; assumption]|].
    destruct l as [|z l]; simpl.
    + constructor. apply string_leb_ltb; [exact E | apply Hne; left; reflexivity].
    + destruct (String.leb (ys_year z) (ys_year x)); constructor.
      * inversion Hhd; assumption.
      * apply string_leb_ltb; [exact E | apply Hne; left; reflexivity].
  - constructor; [exact Hs|]. constructor. apply string_leb_false, E.
Qed.

Lemma sort_by_year_sorted (l acc : list YearSummary) :
  Sorted year_lt acc -> NoDup (map ys_year (acc ++ l)) ->
  Sorted year_lt (foldl (fun acc x => insert_by_year x acc) acc l).
Proof.
  revert acc. induction l as [|x l IH]; intros acc Hs Hnd; simpl; [exact Hs|].
  apply IH.
  - apply insert_by_year_sorted; [exact Hs|].
    intros y Hy Heq. rewrite map_app in Hnd. simpl in Hnd.
    apply NoDup_app in Hnd as (_ & Hdis & _).
    apply (Hdis (ys_year x)); [apply list_elem_of_In, in_map_iff; eauto | left].
  - assert (P : map ys_year (insert_by_year x acc ++ l) ≡ₚ map ys_year (acc ++ x :: l)).
    { apply Permutation_map. rewrite insert_by_year_perm. simpl. apply Permutation_middle. }
    rewrite P. exact Hnd.
Qed.

Lemma calculate_years_eq (cs : list DailyContribution) (ys : list YearSummary) :
  calculate_years cs = Some ys ->
  exists m, year_loop ∅ cs = Some m /\
    ys = foldl (fun acc x => insert_by_year x acc) [] (map year_summary_of (map_to_list m)).
Proof.
  unfold calculate_years. destruct (year_loop ∅ cs) as [m|]; [|discriminate].
  intros H; injection H as <-. exists m. split; [reflexivity|].
  reflexivity.
Qed.

(** Each summary comes from the entry of its year. *)
Lemma calculate_years_In (cs : list DailyContribution) (ys : list YearSummary) (s : YearSummary) :
  calculate_years cs = Some ys -> In s ys ->
  exists m acc, year_loop ∅ cs = Some m /\ m !! ys_year s = Some acc /\
    s = year_summary_of (ys_year s, acc).
Proof.
  intros H Hs. destruct (calculate_years_eq cs ys H) as (m & Hm & ->).
  apply (Permutation_in _ (sort_by_year_perm _ [])) in Hs. simpl in Hs.
  apply in_map_iff in Hs as ([y acc] & <- & Hin).
  apply list_elem_of_In, elem_of_map_to_list in Hin.
  exists m, acc. split; [exact Hm|]. split; [exact Hin | reflexivity].
Qed.

Lemma filter_nonempty {A} (f : A -> bool) (l : list A) (x : A) :
  In x l -> f x = true -> List.filter f l <> [].
Proof.
  intros Hx Hf E. assert (In x (List.filter f l)) by (apply filter_In; auto).
  rewrite E in H. exact H.
Qed.

Lemma year_summaries_nodup (m : gmap string YearAccumulator) :
  NoDup (map ys_year (map year_summary_of (map_to_list m))).
Proof.
  rewrite map_map.
  replace (map (fun x => ys_year (year_summary_of x)) (map_to_list m))
    with (map fst (map_to_list m)) by (apply map_ext; intros [y a]; reflexivity).
  apply NoDup_fst_map_to_list.
Qed.

Lemma calculate_years_nodup (cs : list DailyContribution) (ys : list YearSummary) :
  calculate_years cs = Some ys -> NoDup (map ys_year ys).
Proof.
  intros H. destruct (calculate_years_eq cs ys H) as (m & _ & ->).
  rewrite (Permutation_map ys_year (sort_by_year_perm _ [])). apply year_summaries_nodup.
Qed.

Lemma calculate_years_sorted (cs : list DailyContribution) (ys : list YearSummary) :
  calculate_years cs = Some ys ->
  StronglySorted (fun a b => String.ltb (ys_year a) (ys_year b) = true) ys.
Proof.
  intros H. destruct (calculate_years_eq cs ys H) as (m & Hm & E).
  apply Sorted_StronglySorted; [intros x y z; apply string_ltb_trans|].
  rewrite E. apply sort_by_year_sorted; [constructor|]. apply year_summaries_nodup.
Qed.

Lemma calculate_years_year_in (cs : list DailyContribution) (ys : list YearSummary) (y : string) :
  calculate_years cs = Some ys ->
  (exists s, In s ys /\ ys_year s = y) <->
  (exists c, In c cs /\ str_prefix_slice (dc_date c) 4 = Some y).
Proof.
  intros H. destruct (calculate_years_eq cs ys H) as (m & Hm & E).
  destruct (year_loop_spec cs ∅ m Hm) as [_ Hk]. split.
  - intros (s & Hs & <-).
    destruct (calculate_years_In cs ys s H Hs) as (m' & acc & Hm' & Hacc & _).
    rewrite Hm in Hm'. injection Hm' as <-.
    rewrite Hk, lookup_empty in Hacc.
    destruct (List.filter (in_year (ys_year s)) cs) as [|c l] eqn:Ef; [discriminate|].
    assert (Hc : In c (List.filter (in_year (ys_year s)) cs)) by (rewrite Ef; left; reflexivity).
    apply filter_In in Hc as [Hc Hy]. unfold in_year in Hy.
    apply bool_decide_eq_true_1 in Hy. eauto.
  - intros (c & Hc & Hy).
    assert (Hne : List.filter (in_year y) cs <> []).
    { apply (filter_nonempty _ _ c Hc). unfold in_year. apply bool_decide_eq_true_2, Hy. }
    specialize (Hk y). rewrite lookup_empty in Hk.
    destruct (List.filter (in_year y) cs) as [|c0 l] eqn:Ef; [congruence|].
    simpl in Hk.
    exists (year_summary_of (y, foldl ya_add (ya_add ya_default c0) l)).
    split; [|reflexivity].
    rewrite E. apply (Permutation_in _ (symmetry (sort_by_year_perm _ []))). simpl.
    apply (in_map year_summary_of (map_to_list m) (y, _)).
    apply list_elem_of_In, elem_of_map_to_list. exact Hk.
Qed.

(** X12: [calculate_years] returns its years in strictly increasing order, one
    per distinct 4-byte date prefix of the contributions. *)
Theorem calculate_years_sorted_years (cs : list DailyContribution) (ys : list YearSummary) :
  calculate_years cs = Some ys ->
  StronglySorted (fun a b => String.ltb (ys_year a) (ys_year b) = true) ys /\
  forall y, (exists s, In s ys /\ ys_year s = y) <->
            (exists c, In c cs /\ str_prefix_slice (dc_date c) 4 = Some y).
Proof.
  intros H. split; [exact (calculate_years_sorted cs ys H)|].
  intros y. exact (calculate_years_year_in cs ys y H).
Qed.

Lemma calculate_years_entry (cs : list DailyContribution) (ys : list YearSummary) (s : YearSummary) :
  calculate_years cs = Some ys -> In s ys ->
  List.filter (in_year (ys_year s)) cs <> [] /\
  s = year_summary_of (ys_year s, foldl ya_add ya_default (List.filter (in_year (ys_year s)) cs)) /\
  (forall c, In c cs -> is_Some (str_prefix_slice (dc_date c) 4)).
Proof.
  intros H Hs.
  destruct (calculate_years_In cs ys s H Hs) as (m & acc & Hm & Hacc & Es).
  destruct (year_loop_spec cs ∅ m Hm) as [Hsl Hk].
  rewrite Hk, lookup_empty in Hacc.
  destruct (List.filter (in_year (ys_year s)) cs) as [|c l] eqn:Ef; [discriminate|].
  injection Hacc as <-. split; [discriminate|]. split; [exact Es | exact Hsl].
Qed.

Lemma calculate_years_entry_totals (cs : list DailyContribution) (ys : list YearSummary)
    (s : YearSummary) :
  calculate_years cs = Some ys -> In s ys ->
  ys_total_tokens s =
    wrap64 (zsum (fun c => totals_tokens (dc_totals c)) (List.filter (in_year (ys_year s)) cs)) /\
  ys_total_cost s =
    foldl (fun a c => F64.add a (day_cost c)) F64.zero (List.filter (in_year (ys_year s)) cs).
Proof.
  intros H Hs.
  destruct (calculate_years_entry cs ys s H Hs) as (Hne & Es & _).
  rewrite Es at 1 3. cbn [year_summary_of ys_total_tokens ys_total_cost].
  destruct (List.filter (in_year (ys_year s)) cs) as [|c l]; [congruence|].
  split; [rewrite ya_fold_tokens; reflexivity | apply ya_fold_cost].
Qed.

(** X13: each year of [calculate_years] totals the tokens (wrapping [i64] sum)
    and the costs ([f64] sum from [0.0] in list order) of exactly the
    contributions whose date starts with that year. *)
Theorem calculate_years_totals (cs : list DailyContribution) (ys : list YearSummary) :
  calculate_years cs = Some ys ->
  forall s, In s ys ->
    ys_total_tokens s =
      wrap64 (zsum (fun c => totals_tokens (dc_totals c)) (List.filter (in_year (ys_year s)) cs)) /\
    ys_total_cost s =
      foldl (fun a c => F64.add a (day_cost c)) F64.zero (List.filter (in_year (ys_year s)) cs).
Proof.
  intros H s Hs. exact (calculate_years_entry_totals cs ys s H Hs).
Qed.

(** X14: the [range_start] and [range_end] of each year of [calculate_years]
    are dates of that year's contributions, and every contribution of that
    year lies between them. *)
Theorem calculate_years_range (cs : list DailyContribution) (ys : list YearSummary) :
  calculate_years cs = Some ys ->
  forall s, In s ys ->
    In (ys_range_start s) (map dc_date (List.filter (in_year (ys_year s)) cs)) /\
    In (ys_range_end s) (map dc_date (List.filter (in_year (ys_year s)) cs)) /\
    forall c, In c cs -> in_year (ys_year s) c = true ->
      String.leb (ys_range_start s) (dc_date c) = true /\
      String.leb (dc_date c) (ys_range_end s) = true.
Proof.
  intros H s Hs.
  destruct (calculate_years_entry cs ys s H Hs) as (Hne & Es & Hsl).
  assert (Hd : forall c, In c (List.filter (in_year (ys_year s)) cs) -> dc_date c <> EmptyString).
  { intros c Hc E. apply filter_In in Hc as [Hc _].
    destruct (Hsl c Hc) as [y Hy]. apply str_prefix_slice_length in Hy.
    rewrite E in Hy. simpl in Hy. lia. }
  destruct (ya_fold_range _ Hne Hd) as (R1 & R2 & R3).
  rewrite Es. cbn [year_summary_of ys_range_start ys_range_end ys_year].
  split; [exact R1|]. split; [exact R2|].
  intros c Hc Hy. apply R3, filter_In. auto.
Qed.

Lemma wrap64_zsum {A} (f : A -> Z) (l : list A) :
  wrap64 (zsum (fun x => wrap64 (f x)) l) = wrap64 (zsum f l).
Proof.
  induction l as [|x l IH]; [reflexivity|]. unfold zsum in *; simpl.
  replace (wrap64 (f x) + fold_right (fun y acc => wrap64 (f y) + acc) 0 l)
    with (wrap64 (f x) + fold_right (fun y acc => wrap64 (f y) + acc) 0 l) by reflexivity.
  rewrite wrap64_add_l, Z.add_comm, <- wrap64_add_l, IH, wrap64_add_l. f_equal. lia.
Qed.

Lemma summary_total_tokens (cs : list DailyContribution) :
  ds_total_tokens (calculate_summary cs) = wrap64 (zsum (fun c => totals_tokens (dc_totals c)) cs).
Proof.
  unfold calculate_summary. destruct (summary_sets cs) as [ss ms]. cbn [ds_total_tokens].
  assert (G : forall a, -9223372036854775808 <= a <= 9223372036854775807 ->
            foldl (fun a c => wrap64 (a + totals_tokens (dc_totals c))) a cs =
            wrap64 (a + zsum (fun c => totals_tokens (dc_totals c)) cs)).
  { induction cs as [|c cs IH]; intros a Ha; simpl.
    - rewrite Z.add_0_r. symmetry. apply wrap64_id. unfold i64_min, i64_max. lia.
    - rewrite IH.
      + rewrite wrap64_add_l. f_equal. unfold zsum; simpl. lia.
      + unfold wrap64. pose proof (Z.mod_pos_bound (a + totals_tokens (dc_totals c) + 9223372036854775808) 18446744073709551616 ltac:(lia)). lia. }
  rewrite G by lia. reflexivity.
Qed.

Lemma option_eqb_spec {A} `{EqDecision A} (a b : option A) : bool_decide (a = b) = true <-> a = b.
Proof. apply bool_decide_eq_true. Qed.

Lemma NoDup_map_Some {A} (l : list A) : NoDup l -> NoDup (map Some l).
Proof.
  induction l as [|x l IH]; intros Hnd; simpl; [constructor|].
  apply NoDup_cons in Hnd as [Hx Hnd]. constructor; [|auto].
  intros Hin. apply list_elem_of_In, in_map_iff in Hin as (y & E & Hy).
  injection E as ->. apply Hx, list_elem_of_In, Hy.
Qed.

(** X15: the token totals of the years of [calculate_years] add up (wrapping
    [i64] sum) to [total_tokens] of [calculate_summary] over the same
    contributions. *)
Theorem calculate_years_tokens_summary (cs : list DailyContribution) (ys : list YearSummary) :
  calculate_years cs = Some ys ->
  wrap64 (zsum ys_total_tokens ys) = ds_total_tokens (calculate_summary cs).
Proof.
  intros H. rewrite summary_total_tokens.
  rewrite (zsum_ext _ (fun s => wrap64 (zsum (fun c => totals_tokens (dc_totals c))
                        (List.filter (fun c => bool_decide (str_prefix_slice (dc_date c) 4 = Some (ys_year s))) cs))))
    by (intros s Hs; exact (proj1 (calculate_years_entry_totals cs ys s H Hs))).
  rewrite <- (zsum_map (fun k => wrap64 (zsum (fun c => totals_tokens (dc_totals c))
                 (List.filter (fun c => bool_decide (str_prefix_slice (dc_date c) 4 = k)) cs)))
    (fun s => Some (ys_year s))).
  rewrite wrap64_zsum.
  rewrite (zsum_partition (fun a b : option string => bool_decide (a = b)) option_eqb_spec
             (fun c => str_prefix_slice (dc_date c) 4) (fun c => totals_tokens (dc_totals c)));
    [reflexivity | |].
  - rewrite <- (map_map ys_year Some). apply NoDup_map_Some, (calculate_years_nodup cs ys H).
  - intros c Hc. destruct (calculate_years_eq cs ys H) as (m & Hm & _).
    destruct (year_loop_spec cs ∅ m Hm) as [Hsl _].
    destruct (Hsl c Hc) as [y Hy]. rewrite Hy.
    destruct (proj2 (calculate_years_year_in cs ys y H) (ex_intro _ c (conj Hc Hy)))
      as (s & Hs & <-).
    apply in_map_iff. eauto.
Qed.

Lemma StronglySorted_last {A} (R : A -> A -> Prop) (x y : A) (l : list A) :
  (forall a, R a a) -> StronglySorted R l -> last l = Some y -> In x l -> R x y.
Proof.
  intros Hr. induction l as [|a l IH]; intros Hs Hl Hx; [destruct Hx|].
  apply StronglySorted_inv in Hs as [Hs Hf].
  destruct l as [|b l'].
  - simpl in Hl. injection Hl as ->. destruct Hx as [<- | []]. apply Hr.
  - rewrite last_cons in Hl.
    destruct (last (b :: l')) as [y'|] eqn:E; [|apply last_None in E; discriminate].
    injection Hl as ->. destruct Hx as [<- | Hx].
    + eapply List.Forall_forall; [exact Hf|].
      apply last_Some_elem_of in E. apply list_elem_of_In, E.
    + eapply IH; eauto.
Qed.

(** X18: for contributions sorted by date, [generate_graph_result] keeps them
    unchanged, and its [date_range_start] and [date_range_end] are empty for
    no contributions and otherwise the smallest and largest of their dates. *)
Theorem generate_graph_result_date_range (now pkg_version : string)
    (contributions : list DailyContribution) (processing_time_ms : Z) (g : GraphResult) :
  StronglySorted (fun a b => String.leb (dc_date a) (dc_date b) = true) contributions ->
  generate_graph_result now pkg_version contributions processing_time_ms = Some g ->
  gr_contributions g = contributions /\
  (contributions = [] -> date_range_start (gr_meta g) = EmptyString /\
                         date_range_end (gr_meta g) = EmptyString) /\
  (contributions <> [] ->
     In (date_range_start (gr_meta g)) (map dc_date contributions) /\
     In (date_range_end (gr_meta g)) (map dc_date contributions)) /\
  forall c, In c contributions ->
    String.leb (date_range_start (gr_meta g)) (dc_date c) = true /\
    String.leb (dc_date c) (date_range_end (gr_meta g)) = true.
Proof.
  intros Hs H. unfold generate_graph_result in H.
  destruct (calculate_years contributions) as [ys|]; [|discriminate].
  injection H as <-. cbn [gr_contributions gr_meta date_range_start date_range_end].
  split; [reflexivity|].
  destruct contributions as [|c0 cs] eqn:Ec.
  { split; [auto|]. split; [intros []; reflexivity|]. intros c []. }
  rewrite <- Ec in *.
  destruct (last contributions) as [cl|] eqn:El; [|subst; rewrite last_None in El; discriminate].
  assert (Hcl : In cl contributions) by (apply list_elem_of_In, last_Some_elem_of, El).
  cbn [head]. split; [intros H; subst; discriminate|].
  split.
  - intros _. split; [subst; left; reflexivity|]. apply in_map, Hcl.
  - intros c Hc. split.
    + subst. destruct Hc as [<- | Hc]; [apply string_leb_refl|].
      apply StronglySorted_inv in Hs as [_ Hf]. eapply List.Forall_forall in Hf; eauto.
    + apply (StronglySorted_last (fun a b => String.leb (dc_date a) (dc_date b) = true) c cl
               contributions); auto.
      intros a. apply string_leb_refl.
Qed.

Lemma Forall_filter_sub {A} (P : A -> Prop) (f : A -> bool) (l : list A) :
  Forall P l -> Forall P (List.filter f l).
Proof.
  rewrite !List.Forall_forall. intros H x Hx. apply filter_In in Hx as [Hx _]. auto.
Qed.

Lemma key_msgs_app (k : string) (l1 l2 : list UnifiedMessage) :
  key_msgs k (l1 ++ l2) = key_msgs k l1 ++ key_msgs k l2.
Proof.
  unfold key_msgs. induction l1 as [|x l1 IH]; simpl; [reflexivity|].
  destruct (String.eqb (source_key x) k); simpl; congruence.
Qed.

Lemma tb_sum_snoc (l : list UnifiedMessage) (m : UnifiedMessage) :
  tb_sum (l ++ [m]) = tb_plus (tb_sum l) (tokens m).
Proof. rewrite tb_sum_app. simpl. rewrite tb_plus_default_r. reflexivity. Qed.

Lemma tb_saturating_add_msg (X : TokenBreakdown) (m : UnifiedMessage) :
  tb_nonneg X -> msg_nonneg m ->
  tb_saturating_add (tb_clamp X) (tokens m) = tb_clamp (tb_plus X (tokens m)).
Proof.
  intros HX [Hnn Hle].
  rewrite <- (tb_clamp_le_max (tokens m)) at 1 by assumption.
  destruct HX as (? & ? & ? & ? & ?); destruct Hnn as (? & ? & ? & ? & ?).
  apply tb_saturating_add_clamped; assumption.
Qed.

Lemma tb_saturating_add_sums (X Y : TokenBreakdown) :
  tb_nonneg X -> tb_nonneg Y ->
  tb_saturating_add (tb_clamp X) (tb_clamp Y) = tb_clamp (tb_plus X Y).
Proof.
  intros (? & ? & ? & ? & ?) (? & ? & ? & ? & ?). apply tb_saturating_add_clamped; assumption.
Qed.

Lemma key_msgs_nonneg (k : string) (l : list UnifiedMessage) :
  Forall msg_nonneg l -> tb_nonneg (tb_sum (key_msgs k l)).
Proof. intros H. apply tb_sum_nonneg, Forall_filter_sub, H. Qed.

Lemma day_inv_default : day_inv day_default [].
Proof.
  split; [reflexivity|]. split; [reflexivity|]. split; [reflexivity|].
  split; [intros k _; reflexivity|].
  intros k sc H. change (day_sources day_default) with (∅ : gmap string SourceContribution) in H.
  rewrite lookup_empty in H. discriminate.
Qed.

Lemma src_inv_key (k : string) (sc : SourceContribution) (l : list UnifiedMessage) :
  src_inv k sc l -> k = (sc_source sc ++ ":" ++ sc_model_id sc)%string.
Proof.
  intros (_ & _ & m & Hm & E1 & E2 & _). unfold key_msgs in Hm.
  apply filter_In in Hm as [_ Hk]. apply String.eqb_eq in Hk.
  rewrite <- Hk, <- E1, <- E2. reflexivity.
Qed.

Lemma day_inv_add (acc : DayAccumulator) (l : list UnifiedMessage) (m : UnifiedMessage) :
  Forall msg_nonneg l -> msg_nonneg m -> day_inv acc l ->
  day_inv (day_add_message acc m) (l ++ [m]).
Proof.
  intros Hl Hm (Htb & Htok & Hmsg & Hnone & Hsome).
  pose proof (raw_total_sum_nonneg _ Hl).
  destruct (day_add_message_closed acc m (tb_sum l) (raw_total_sum l) (Z.of_nat (length l)))
    as (A & B & C); try assumption; try lia; [apply tb_sum_nonneg, Hl|].
  split; [rewrite A, tb_sum_snoc; reflexivity|].
  split; [rewrite B, raw_total_sum_app; simpl; f_equal; lia|].
  split; [rewrite C, length_app; simpl; f_equal; lia|].
  assert (Hkm : forall k, key_msgs k (l ++ [m]) =
            key_msgs k l ++ (if String.eqb (source_key m) k then [m] else [])).
  { intros k. rewrite key_msgs_app. reflexivity. }
  unfold day_add_message. cbn [day_sources].
  split.
  - intros k Hk. destruct (String.eqb_spec (source_key m) k) as [<- | Hne].
    + rewrite lookup_insert_eq in Hk. discriminate.
    + rewrite lookup_insert_ne in Hk by exact Hne. rewrite Hkm, Hnone by exact Hk.
      destruct (String.eqb_spec (source_key m) k); [contradiction | reflexivity].
  - intros k sc Hk. unfold src_inv. rewrite Hkm.
    destruct (String.eqb_spec (source_key m) k) as [<- | Hne].
    + rewrite lookup_insert_eq in Hk. injection Hk as <-.
      destruct (day_sources acc !! source_key m) as [e|] eqn:Ee; cbn [sc_tokens sc_messages
        sc_source sc_model_id sc_provider_id].
      * destruct (Hsome _ e Ee) as (T1 & T2 & (m0 & Hm0 & L1 & L2 & L3)).
        rewrite T1, T2, tb_sum_snoc, length_app.
        split; [apply tb_saturating_add_msg; [apply key_msgs_nonneg, Hl | exact Hm]|].
        split; [change 1 with (Z.min i32_max 1) at 1; rewrite saturating_add32_clamped by lia;
                simpl; f_equal; lia|].
        exists m0. rewrite in_app_iff. auto.
      * rewrite (Hnone _ Ee). cbn [app length].
        split.
        { change (tb_sum [m]) with (tb_plus (tokens m) tb_default).
          rewrite tb_plus_default_r.
          pose proof (tb_saturating_add_msg tb_default m tb_nonneg_default Hm) as E.
          rewrite tb_clamp_default, tb_plus_default_l in E. exact E. }
        split; [reflexivity|]. exists m. simpl. auto.
    + rewrite lookup_insert_ne in Hk by exact Hne. rewrite app_nil_r. exact (Hsome k sc Hk).
Qed.

Lemma day_merge_source_same (S1 S2 : gmap string SourceContribution) (k : string)
    (sc : SourceContribution) :
  S1 !! k = S2 !! k -> day_merge_source S1 (k, sc) !! k = day_merge_source S2 (k, sc) !! k.
Proof. intros H. unfold day_merge_source. rewrite !lookup_insert_eq, H. reflexivity. Qed.

Lemma day_merge_source_other (S : gmap string SourceContribution) (k k' : string)
    (sc : SourceContribution) :
  k' <> k -> day_merge_source S (k', sc) !! k = S !! k.
Proof. intros H. unfold day_merge_source. rewrite lookup_insert_ne by exact H. reflexivity. Qed.

Lemma merge_sources_fold (L : list (string * SourceContribution)) :
  NoDup (map fst L) ->
  forall (S : gmap string SourceContribution) k,
  (~ In k (map fst L) -> foldl day_merge_source S L !! k = S !! k) /\
  (forall sc, In (k, sc) L -> foldl day_merge_source S L !! k = day_merge_source S (k, sc) !! k).
Proof.
  induction L as [|[k' sc'] L IH]; intros Hnd S k; cbn [foldl map fst In].
  - split; [reflexivity | intros _ []].
  - apply NoDup_cons in Hnd as [Hk' Hnd].
    assert (Hk'' : ~ In k' (map fst L)) by (intros H; apply Hk', list_elem_of_In, H).
    destruct (IH Hnd (day_merge_source S (k', sc')) k) as [IH1 IH2].
    split.
    + intros Hk. rewrite IH1 by tauto. apply day_merge_source_other. intros ->. tauto.
    + intros sc [E | Hin].
      * injection E as <- <-. apply IH1, Hk''.
      * assert (Hne : k' <> k).
        { intros <-. apply Hk''. apply in_map_iff. exists (k', sc). auto. }
        rewrite (IH2 sc Hin). apply day_merge_source_same, day_merge_source_other, Hne.
Qed.

Lemma key_msgs_nonneg_list (k : string) (l : list UnifiedMessage) :
  Forall msg_nonneg l -> Forall msg_nonneg (key_msgs k l).
Proof. apply Forall_filter_sub. Qed.

Lemma day_inv_merge (a b : DayAccumulator) (l1 l2 : list UnifiedMessage) :
  Forall msg_nonneg l1 -> Forall msg_nonneg l2 ->
  day_inv a l1 -> day_inv b l2 -> day_inv (day_merge a b) (l1 ++ l2).
Proof.
  intros Hl1 Hl2 (Atb & Atok & Amsg & Anone & Asome) (Btb & Btok & Bmsg & Bnone & Bsome).
  pose proof (tb_sum_nonneg _ Hl1) as N1; pose proof (tb_sum_nonneg _ Hl2) as N2.
  pose proof (raw_total_sum_nonneg _ Hl1); pose proof (raw_total_sum_nonneg _ Hl2).
  unfold day_inv, day_merge; cbn [day_totals day_token_breakdown day_sources totals_tokens totals_messages].
  split; [rewrite Atb, Btb, tb_sum_app; apply tb_saturating_add_sums; assumption|].
  split; [rewrite Atok, Btok, raw_total_sum_app; apply saturating_add_clamped; assumption|].
  split; [rewrite Amsg, Bmsg, saturating_add32_clamped, length_app, Nat2Z.inj_add by lia; reflexivity|].
  pose proof (merge_sources_fold (map_to_list (day_sources b)) (NoDup_fst_map_to_list _)
                (day_sources a)) as F.
  assert (Hin : forall k, In k (map fst (map_to_list (day_sources b))) <->
                          is_Some (day_sources b !! k)).
  { intros k. rewrite in_map_iff. split.
    - intros ([k' sb] & <- & Hkb). apply list_elem_of_In, elem_of_map_to_list in Hkb. eauto.
    - intros [sb Hsb]. exists (k, sb). split; [reflexivity|].
      apply list_elem_of_In, elem_of_map_to_list, Hsb. }
  split.
  - intros k Hk. rewrite key_msgs_app.
    destruct (day_sources b !! k) as [sb|] eqn:Eb.
    + exfalso. destruct (F k) as [_ F2].
      rewrite (F2 sb) in Hk by (apply list_elem_of_In, elem_of_map_to_list, Eb).
      unfold day_merge_source in Hk. rewrite lookup_insert_eq in Hk. discriminate.
    + destruct (F k) as [F1 _]. rewrite F1 in Hk by (rewrite Hin, Eb; intros [? ?]; discriminate).
      rewrite Anone, Bnone by assumption. reflexivity.
  - intros k sc Hk. unfold src_inv. rewrite key_msgs_app.
    pose proof (key_msgs_nonneg k l1 Hl1) as K1; pose proof (key_msgs_nonneg k l2 Hl2) as K2.
    destruct (day_sources b !! k) as [sb|] eqn:Eb.
    + destruct (F k) as [_ F2].
      rewrite (F2 sb) in Hk by (apply list_elem_of_In, elem_of_map_to_list, Eb).
      unfold day_merge_source in Hk. rewrite lookup_insert_eq in Hk. injection Hk as <-.
      destruct (Bsome k sb Eb) as (S1 & S2 & (m2 & Hm2 & L1 & L2 & L3)).
      destruct (day_sources a !! k) as [e|] eqn:Ea; cbn [sc_tokens sc_messages sc_source
        sc_model_id sc_provider_id].
      * destruct (Asome k e Ea) as (T1 & T2 & (m1 & Hm1 & M1 & M2 & M3)).
        rewrite T1, T2, S1, S2, tb_sum_app, length_app.
        split; [apply tb_saturating_add_sums; assumption|].
        split; [rewrite saturating_add32_clamped by lia; f_equal; lia|].
        exists m1. rewrite in_app_iff. auto.
      * rewrite (Anone k Ea). cbn [app]. rewrite S1, S2.
        split; [rewrite <- tb_clamp_default, tb_saturating_add_sums, tb_plus_default_l;
                [reflexivity | apply tb_nonneg_default | exact K2]|].
        split; [change 0 with (Z.min i32_max 0); rewrite saturating_add32_clamped by lia;
                f_equal; lia|].
        exists m2. auto.
    + destruct (F k) as [F1 _]. rewrite F1 in Hk by (rewrite Hin, Eb; intros [? ?]; discriminate).
      rewrite (Bnone k Eb), app_nil_r. exact (Asome k sc Hk).
Qed.

Lemma date_msgs_app (d : string) (l1 l2 : list UnifiedMessage) :
  date_msgs d (l1 ++ l2) = date_msgs d l1 ++ date_msgs d l2.
Proof.
  unfold date_msgs. induction l1 as [|x l1 IH]; simpl; [reflexivity|].
  destruct (String.eqb (date x) d); simpl; rewrite IH; reflexivity.
Qed.

Lemma date_inv_empty : date_inv ∅ [].
Proof.
  split; [intros d acc H; rewrite lookup_empty in H; discriminate | intros d _; reflexivity].
Qed.

Lemma date_inv_add (M : gmap string DayAccumulator) (l : list UnifiedMessage) (m : UnifiedMessage) :
  Forall msg_nonneg l -> msg_nonneg m -> date_inv M l -> date_inv (date_add M m) (l ++ [m]).
Proof.
  intros Hl Hm [Hsome Hnone]. unfold date_add.
  split; [intros d acc Hd | intros d Hd]; rewrite date_msgs_app;
    change (date_msgs d [m]) with (if String.eqb (date m) d then [m] else []);
    (destruct (String.eqb_spec (date m) d) as [<- | Hne]; [|rewrite app_nil_r]).
  - rewrite lookup_insert_eq in Hd. injection Hd as <-.
    apply day_inv_add; [apply Forall_filter_sub, Hl | exact Hm|].
    destruct (M !! date m) as [e|] eqn:E; [apply Hsome, E|].
    rewrite (Hnone _ E). apply day_inv_default.
  - rewrite lookup_insert_ne in Hd by exact Hne. apply Hsome, Hd.
  - rewrite lookup_insert_eq in Hd. discriminate.
  - rewrite lookup_insert_ne in Hd by exact Hne. apply Hnone, Hd.
Qed.

Lemma date_add_fold_inv (ms : list UnifiedMessage) :
  forall (M : gmap string DayAccumulator) (l : list UnifiedMessage),
  Forall msg_nonneg (l ++ ms) -> date_inv M l -> date_inv (foldl date_add M ms) (l ++ ms).
Proof.
  induction ms as [|m ms IH]; intros M l Hl Hinv; cbn [foldl].
  - rewrite app_nil_r. exact Hinv.
  - replace (l ++ m :: ms) with ((l ++ [m]) ++ ms) by (rewrite <- app_assoc; reflexivity).
    apply IH.
    + rewrite <- app_assoc. exact Hl.
    + apply Forall_app in Hl as [Hl Hms]. apply Forall_cons in Hms as [Hm _].
      apply date_inv_add; assumption.
Qed.

Lemma date_merge_steps (a b : gmap string DayAccumulator) :
  date_merge a b = foldl date_merge_step a (map_to_list b).
Proof. reflexivity. Qed.

Lemma date_merge_fold (L : list (string * DayAccumulator)) :
  NoDup (map fst L) ->
  forall (A : gmap string DayAccumulator) d,
  (~ In d (map fst L) ->
   foldl date_merge_step A L !! d = A !! d) /\
  (forall acc, In (d, acc) L ->
   foldl date_merge_step A L !! d =
   Some (day_merge (match A !! d with Some x => x | None => day_default end) acc)).
Proof.
  induction L as [|[d' acc'] L IH]; intros Hnd A d; cbn [foldl map fst In].
  - split; [reflexivity | intros _ []].
  - apply NoDup_cons in Hnd as [Hd' Hnd].
    assert (Hd'' : ~ In d' (map fst L)) by (intros H; apply Hd', list_elem_of_In, H).
    destruct (IH Hnd (date_merge_step A (d', acc')) d) as [IH1 IH2].
    split.
    + intros Hd. rewrite IH1 by tauto. unfold date_merge_step. rewrite lookup_insert_ne; [reflexivity|].
      intros ->. tauto.
    + intros acc [E | Hin].
      * injection E as <- <-. rewrite IH1 by exact Hd''. unfold date_merge_step. rewrite lookup_insert_eq. reflexivity.
      * assert (Hne : d' <> d).
        { intros <-. apply Hd''. apply in_map_iff. exists (d', acc). auto. }
        rewrite (IH2 acc Hin). unfold date_merge_step. rewrite lookup_insert_ne by exact Hne. reflexivity.
Qed.

Lemma date_merge_lookup (a b : gmap string DayAccumulator) (d : string) :
  date_merge a b !! d =
  match b !! d with
  | None => a !! d
  | Some acc => Some (day_merge (match a !! d with Some x => x | None => day_default end) acc)
  end.
Proof.
  rewrite date_merge_steps.
  destruct (date_merge_fold (map_to_list b) (NoDup_fst_map_to_list _) a d) as [F1 F2].
  destruct (b !! d) as [acc|] eqn:E.
  - apply F2. apply list_elem_of_In, elem_of_map_to_list, E.
  - apply F1. rewrite in_map_iff. intros ([d' acc] & <- & Hin).
    apply list_elem_of_In, elem_of_map_to_list in Hin. simpl in *. congruence.
Qed.

Lemma date_inv_merge (A B : gmap string DayAccumulator) (l1 l2 : list UnifiedMessage) :
  Forall msg_nonneg l1 -> Forall msg_nonneg l2 ->
  date_inv A l1 -> date_inv B l2 -> date_inv (date_merge A B) (l1 ++ l2).
Proof.
  intros Hl1 Hl2 [As An] [Bs Bn].
  split; [intros d acc Hd | intros d Hd]; rewrite date_merge_lookup in Hd; rewrite date_msgs_app;
    destruct (B !! d) as [b|] eqn:Eb.
  - injection Hd as <-.
    apply day_inv_merge; [apply Forall_filter_sub, Hl1 | apply Forall_filter_sub, Hl2 | | apply Bs, Eb].
    destruct (A !! d) as [a|] eqn:Ea; [apply As, Ea|].
    rewrite (An _ Ea). apply day_inv_default.
  - rewrite (Bn _ Eb), app_nil_r. apply As, Hd.
  - discriminate.
  - rewrite (Bn _ Eb), (An _ Hd). reflexivity.
Qed.

Lemma date_reduce_inv (p : Partition) :
  Forall msg_nonneg (flatten p) -> date_inv (date_reduce p) (flatten p).
Proof.
  induction p as [ms | l IHl r IHr]; cbn [date_reduce flatten]; intros H.
  - apply (date_add_fold_inv ms ∅ []); [exact H | apply date_inv_empty].
  - apply Forall_app in H as [Hl Hr].
    apply date_inv_merge; auto.
Qed.

Lemma calculate_intensities_In (cs : list DailyContribution) (c : DailyContribution) :
  In c (calculate_intensities cs) ->
  exists c', In c' cs /\ dc_date c = dc_date c' /\ dc_totals c = dc_totals c' /\
             dc_token_breakdown c = dc_token_breakdown c' /\ dc_sources c = dc_sources c'.
Proof.
  unfold calculate_intensities. destruct (F64.eqb _ _).
  - intros H. exists c. auto.
  - intros H. apply in_map_iff in H as (c' & <- & H). exists c'. auto.
Qed.

Lemma aggregate_by_date_acc (p : Partition) (c : DailyContribution) :
  In c (aggregate_by_date p) ->
  exists acc, date_reduce p !! dc_date c = Some acc /\ dc_totals c = day_totals acc /\
              dc_token_breakdown c = day_token_breakdown acc /\
              dc_sources c = map snd (map_to_list (day_sources acc)).
Proof.
  unfold aggregate_by_date. destruct (flatten p); [intros []|].
  intros H. apply calculate_intensities_In in H as (c' & H & E1 & E2 & E3 & E4).
  apply (Permutation_in _ (sort_by_date_perm _)) in H.
  apply in_map_iff in H as ([d acc] & <- & H).
  apply list_elem_of_In, elem_of_map_to_list in H.
  exists acc. rewrite E1, E2, E3, E4. auto.
Qed.

(** X19: every day of [aggregate_by_date] holds the clamped sums of exactly
    the input messages of its date: its token total is [min(i64::MAX, sum)],
    its message count [min(i32::MAX, count)] and its breakdown the field-wise
    clamped sum; the day has at least one message. *)
Theorem aggregate_by_date_day_totals (p : Partition) (c : DailyContribution) :
  Forall msg_nonneg (flatten p) -> In c (aggregate_by_date p) ->
  date_msgs (dc_date c) (flatten p) <> [] /\
  totals_tokens (dc_totals c) = Z.min i64_max (raw_total_sum (date_msgs (dc_date c) (flatten p))) /\
  totals_messages (dc_totals c) =
    Z.min i32_max (Z.of_nat (length (date_msgs (dc_date c) (flatten p)))) /\
  dc_token_breakdown c = tb_clamp (tb_sum (date_msgs (dc_date c) (flatten p))).
Proof.
  intros Hp Hc. apply aggregate_by_date_acc in Hc as (acc & Hacc & E1 & E2 & _).
  destruct (date_reduce_inv p Hp) as [Hs _].
  destruct (Hs _ _ Hacc) as (T1 & T2 & T3 & _).
  rewrite E1, E2. split; [|auto].
  destruct (proj1 (date_reduce_keys p (dc_date c)) (ex_intro _ acc Hacc)) as (m & Hm & Ed).
  intros Hnil. assert (Hin : In m (date_msgs (dc_date c) (flatten p))).
  { apply filter_In. split; [exact Hm | apply String.eqb_eq, Ed]. }
  rewrite Hnil in Hin. exact Hin.
Qed.

(** X20: the sources of every day of [aggregate_by_date] have distinct
    [source:model] keys, cover every message of that day, and each holds the
    clamped token sum and message count of that day's messages with its key,
    with its labels taken from one of them. *)
Theorem aggregate_by_date_day_sources (p : Partition) (c : DailyContribution) :
  Forall msg_nonneg (flatten p) -> In c (aggregate_by_date p) ->
  NoDup (map (fun sc => (sc_source sc ++ ":" ++ sc_model_id sc)%string) (dc_sources c)) /\
  (forall m, In m (date_msgs (dc_date c) (flatten p)) ->
     exists sc, In sc (dc_sources c) /\ (sc_source sc ++ ":" ++ sc_model_id sc)%string = source_key m) /\
  (forall sc, In sc (dc_sources c) ->
     let ms := key_msgs (sc_source sc ++ ":" ++ sc_model_id sc) (date_msgs (dc_date c) (flatten p)) in
     sc_tokens sc = tb_clamp (tb_sum ms) /\
     sc_messages sc = Z.min i32_max (Z.of_nat (length ms)) /\
     exists m, In m ms /\ source m = sc_source sc /\ model_id m = sc_model_id sc /\
               provider_id m = sc_provider_id sc).
Proof.
  intros Hp Hc. apply aggregate_by_date_acc in Hc as (acc & Hacc & _ & _ & Es).
  destruct (date_reduce_inv p Hp) as [Hs _].
  destruct (Hs _ _ Hacc) as (_ & _ & _ & Snone & Ssome).
  rewrite Es.
  assert (Hkey : forall sc, In sc (map snd (map_to_list (day_sources acc))) ->
            exists k, day_sources acc !! k = Some sc /\
                      k = (sc_source sc ++ ":" ++ sc_model_id sc)%string).
  { intros sc Hin. apply in_map_iff in Hin as ([k sc'] & <- & Hin).
    apply list_elem_of_In, elem_of_map_to_list in Hin. exists k. split; [exact Hin|].
    apply (src_inv_key _ _ _ (Ssome _ _ Hin)). }
  split; [|split].
  - assert (E : map (fun sc => (sc_source sc ++ ":" ++ sc_model_id sc)%string)
                  (map snd (map_to_list (day_sources acc))) = map fst (map_to_list (day_sources acc))).
    { rewrite map_map. apply map_ext_in. intros [k sc] Hin.
      apply list_elem_of_In, elem_of_map_to_list in Hin.
      symmetry. apply (src_inv_key _ _ _ (Ssome _ _ Hin)). }
    rewrite E. apply NoDup_fst_map_to_list.
  - intros m Hm. destruct (day_sources acc !! source_key m) as [sc|] eqn:Ek.
    + exists sc. split.
      * apply in_map_iff. exists (source_key m, sc). split; [reflexivity|].
        apply list_elem_of_In, elem_of_map_to_list, Ek.
      * symmetry. apply (src_inv_key _ _ _ (Ssome _ _ Ek)).
    + exfalso. assert (Hin : In m (key_msgs (source_key m) (date_msgs (dc_date c) (flatten p)))).
      { apply filter_In. split; [exact Hm | apply String.eqb_refl]. }
      rewrite (Snone _ Ek) in Hin. exact Hin.
  - intros sc Hin. destruct (Hkey sc Hin) as (k & Hk & ->). exact (Ssome _ _ Hk).
Qed.

Lemma sources_partition_nonneg : Forall msg_nonneg (flatten sources_partition).
Proof. repeat constructor; unfold i64_max; simpl; lia. Qed.


Lemma calculate_summary_max_cost_witness :
  let M := ds_max_cost_in_single_day (calculate_summary days_contributions) in
  F64.le F64.zero M = true /\
  (forall c, In c days_contributions -> F64.le (day_cost c) M = true) /\
  (M = F64.zero \/ exists c, In c days_contributions /\ day_cost c = M).
Proof.
  apply calculate_summary_max_cost.
  intros c Hc. vm_compute in Hc. repeat destruct Hc as [<- | Hc]; try contradiction;
    intros E; vm_compute in E; discriminate E.
Defined.

Lemma calculate_years_sorted_years_witness :
  StronglySorted (fun a b => String.ltb (ys_year a) (ys_year b) = true) sources_years /\
  forall y, (exists s, In s sources_years /\ ys_year s = y) <->
            (exists c, In c sources_contributions /\ str_prefix_slice (dc_date c) 4 = Some y).
Proof. apply calculate_years_sorted_years. vm_compute. reflexivity. Defined.

Lemma calculate_years_totals_witness :
  ys_total_tokens first_source_year =
    wrap64 (zsum (fun c => totals_tokens (dc_totals c))
              (List.filter (in_year (ys_year first_source_year)) sources_contributions)) /\
  ys_total_cost first_source_year =
    foldl (fun a c => F64.add a (day_cost c)) F64.zero
      (List.filter (in_year (ys_year first_source_year)) sources_contributions).
Proof.
  apply (calculate_years_totals sources_contributions sources_years);
    vm_compute; [reflexivity | left; reflexivity].
Defined.

Lemma calculate_years_range_witness :
  In (ys_range_start first_source_year)
    (map dc_date (List.filter (in_year (ys_year first_source_year)) sources_contributions)) /\
  In (ys_range_end first_source_year)
    (map dc_date (List.filter (in_year (ys_year first_source_year)) sources_contributions)) /\
  forall c, In c sources_contributions -> in_year (ys_year first_source_year) c = true ->
    String.leb (ys_range_start first_source_year) (dc_date c) = true /\
    String.leb (dc_date c) (ys_range_end first_source_year) = true.
Proof.
  apply (calculate_years_range sources_contributions sources_years);
    vm_compute; [reflexivity | left; reflexivity].
Defined.

Lemma calculate_years_tokens_summary_witness :
  wrap64 (zsum ys_total_tokens sources_years) =
  ds_total_tokens (calculate_summary sources_contributions).
Proof. apply calculate_years_tokens_summary. vm_compute. reflexivity. Defined.

Lemma aggregate_by_date_day_totals_witness :
  date_msgs (dc_date first_source_day) (flatten sources_partition) <> [] /\
  totals_tokens (dc_totals first_source_day) =
    Z.min i64_max (raw_total_sum (date_msgs (dc_date first_source_day) (flatten sources_partition))) /\
  totals_messages (dc_totals first_source_day) =
    Z.min i32_max (Z.of_nat (length (date_msgs (dc_date first_source_day) (flatten sources_partition)))) /\
  dc_token_breakdown first_source_day =
    tb_clamp (tb_sum (date_msgs (dc_date first_source_day) (flatten sources_partition))).
Proof.
  apply aggregate_by_date_day_totals; [exact sources_partition_nonneg|].
  vm_compute. left. reflexivity.
Defined.

Lemma aggregate_by_date_day_sources_witness :
  NoDup (map (fun sc => (sc_source sc ++ ":" ++ sc_model_id sc)%string) (dc_sources first_source_day)) /\
  (forall m, In m (date_msgs (dc_date first_source_day) (flatten sources_partition)) ->
     exists sc, In sc (dc_sources first_source_day) /\
                (sc_source sc ++ ":" ++ sc_model_id sc)%string = source_key m) /\
  (forall sc, In sc (dc_sources first_source_day) ->
     let ms := key_msgs (sc_source sc ++ ":" ++ sc_model_id sc)
                 (date_msgs (dc_date first_source_day) (flatten sources_partition)) in
     sc_tokens sc = tb_clamp (tb_sum ms) /\
     sc_messages sc = Z.min i32_max (Z.of_nat (length ms)) /\
     exists m, In m ms /\ source m = sc_source sc /\ model_id m = sc_model_id sc /\
               provider_id m = sc_provider_id sc).
Proof.
  apply aggregate_by_date_day_sources; [exact sources_partition_nonneg|].
  vm_compute. left. reflexivity.
Defined.

Lemma generate_graph_result_date_range_witness :
  gr_contributions sources_graph = sources_contributions /\
  (sources_contributions = [] -> date_range_start (gr_meta sources_graph) = EmptyString /\
                                 date_range_end (gr_meta sources_graph) = EmptyString) /\
  (sources_contributions <> [] ->
     In (date_range_start (gr_meta sources_graph)) (map dc_date sources_contributions) /\
     In (date_range_end (gr_meta sources_graph)) (map dc_date sources_contributions)) /\
  forall c, In c sources_contributions ->
    String.leb (date_range_start (gr_meta sources_graph)) (dc_date c) = true /\
    String.leb (dc_date c) (date_range_end (gr_meta sources_graph)) = true.
Proof.
  apply (generate_graph_result_date_range "2026-01-01T00:00:00Z" "1.0.0" sources_contributions 5).
  - vm_compute. repeat constructor.
  - vm_compute. reflexivity.
Defined.

Lemma get_pricing_from_catalog_witness : exists k, prefixed_catalog !! k = Some test_pricing.
Proof. apply (get_pricing_from_catalog prefixed_catalog sonnet_id). vm_compute. reflexivity. Defined.

Lemma add_model_keeps_resolved_witness :
  get_pricing (add_model cost_catalog "gpt-4o" test_pricing) sonnet_id <> None.
Proof.
  apply add_model_keeps_resolved. vm_compute. intros H. discriminate H.
Defined.
